(** * Write path of the graph database: worker/mutation.go

    A shallow embedding of the mutation worker: edge validation and
    conversion, the edge applier and its choice of read strategy, schema
    validation, the mutation router with its per-group fan-out, and the
    schema mutation coordinator with its background index rebuilds.

    Collaborating packages (x, types, posting, schema, the group
    membership, the key-value store) are interfaces here: type classes whose
    methods are the calls mutation.go makes. *)

From Stdlib Require Import ZArith NArith Strings.Byte Strings.Ascii.
From stdpp Require Import base list gmap strings.

Set Default Proof Using "Type".
Open Scope Z_scope.

#[global] Instance byte_eq_dec : EqDecision byte := Byte.byte_eq_dec.

(** ** Protocol buffer messages (package pb)

    The messages are declared outside src/; each record has the fields that
    mutation.go reads or writes, under their names there. *)

(** Modelled from the spec: the value-type enumeration [pb.Posting_ValType]
    is declared outside src/ (the spec's "valueType"); mutation.go names
    DEFAULT, BINARY, INT, UID, PASSWORD, STRING, OBJECT and VFLOAT. *)
Inductive Posting_ValType :=
  | Posting_DEFAULT | Posting_BINARY | Posting_INT | Posting_FLOAT
  | Posting_BOOL | Posting_DATETIME | Posting_GEO | Posting_UID
  | Posting_PASSWORD | Posting_STRING | Posting_OBJECT | Posting_BIGFLOAT
  | Posting_VFLOAT.

#[global] Instance Posting_ValType_eq_dec : EqDecision Posting_ValType.
Proof. solve_decision. Defined.

(** Modelled from the spec: [pb.DirectedEdge_Op], "operation ∈ {SET, DELETE}";
    the declaration is outside src/. *)
Inductive DirectedEdge_Op := DirectedEdge_SET | DirectedEdge_DEL.

#[global] Instance DirectedEdge_Op_eq_dec : EqDecision DirectedEdge_Op.
Proof. solve_decision. Defined.

(** Modelled from the spec: [pb.SchemaUpdate_Directive], the index and
    reverse directives of a schema update; the declaration is outside src/. *)
Inductive SchemaUpdate_Directive :=
  | SchemaUpdate_NONE | SchemaUpdate_INDEX | SchemaUpdate_REVERSE
  | SchemaUpdate_DELETE.

#[global] Instance SchemaUpdate_Directive_eq_dec : EqDecision SchemaUpdate_Directive.
Proof. solve_decision. Defined.

(** [types.TypeID] is a conversion of the protocol enumeration; [Enum] is the
    conversion back. *)
Definition TypeID := Posting_ValType.
Definition DefaultID : TypeID := Posting_DEFAULT.
Definition BinaryID : TypeID := Posting_BINARY.
Definition UidID : TypeID := Posting_UID.
Definition Enum (t : TypeID) : Posting_ValType := t.

(** Modelled from the spec: [TypeID.IsScalar] is declared outside src/; the
    spec splits value types into the uid shape and the scalar shape. *)
Definition IsScalar (t : TypeID) : bool := bool_decide (t ≠ UidID).

Module DirectedEdge.
Record t := mk {
  Entity : N;
  Attr : string;
  Value : list byte;
  ValueType : Posting_ValType;
  ValueId : N;
  Lang : string;
  Op : DirectedEdge_Op
}.
Definition setValueType (vt : Posting_ValType) (e : t) : t :=
  mk (Entity e) (Attr e) (Value e) vt (ValueId e) (Lang e) (Op e).
Definition setValue (v : list byte) (e : t) : t :=
  mk (Entity e) (Attr e) v (ValueType e) (ValueId e) (Lang e) (Op e).
End DirectedEdge.

Module SchemaUpdate.
Record t := mk {
  Predicate : string;
  ValueType : Posting_ValType;
  Directive : SchemaUpdate_Directive;
  Tokenizer : list string;
  Count : bool;
  List : bool;
  Upsert : bool;
  Lang : bool;
  Unique : bool;
  ObjectTypeName : string
}.
(** The zero value [pb.SchemaUpdate{}]. *)
Definition zero : t :=
  mk "" Posting_DEFAULT SchemaUpdate_NONE [] false false false false false "".
Definition setUpsert (b : bool) (s : t) : t :=
  mk (Predicate s) (ValueType s) (Directive s) (Tokenizer s) (Count s)
     (List s) b (Lang s) (Unique s) (ObjectTypeName s).
End SchemaUpdate.

Module TypeUpdate.
Record t := mk {
  TypeName : string;
  Fields : list SchemaUpdate.t
}.
End TypeUpdate.

(** ** Errors

    One constructor per [errors.Errorf]/[errors.New] site of mutation.go, with
    the values the message is formatted from; [ErrExternal] stands for an
    error value handed back by a collaborator. *)
Inductive error :=
  | errNonExistentTablet
  | errUnservedTablet
  | ErrNoConnection
  | ErrExternal (msg : string)
  | ErrWrap (msg : string) (cause : error)
  (* runMutation *)
  | ErrNoSchemaFor (attr : string)
  | ErrNeverReachHere
  (* ValidateAndConvert *)
  | ErrLangDirective (attr : string) (edge : DirectedEdge.t)
  | ErrUidInputIsScalar (attr : string) (edge : DirectedEdge.t)
  | ErrScalarInputIsUid (attr : string) (edge : DirectedEdge.t)
  | ErrInputNotVector (attr : string) (edge : DirectedEdge.t)
  | ErrPermissionNotInt
  | ErrPermissionRange (perm : Z)
  | ErrConvertEdgeType (storageType schemaType : TypeID)
  (* checkSchema *)
  | ErrNilSchema
  | ErrNoPredicate
  | ErrInternalName (attr : string)
  | ErrTokenizerRequired (s : SchemaUpdate.t)
  | ErrDirectiveMustBeIndex
  | ErrIndexOnUid (attr : string)
  | ErrReverseOnNonUid (attr : string)
  | ErrUpsertNeedsTokenizer (attr : string)
  | ErrSchemaChange (from to : Posting_ValType)
  | ErrListToNonList (from to : TypeID) (attr : string)
  | ErrScalarUidWithData (attr : string)
  (* validateSchemaForUnique *)
  | ErrDropUpsertWithUnique (attr : string)
  | ErrDropIndexWithUnique (tokenizers : list string) (attr : string)
  | ErrUniqueNeedsHashOrExact (attr : string)
  | ErrUniqueNeedsInt (attr : string)
  | ErrUniqueUnsupported (vt : Posting_ValType)
  (* runSchemaMutation *)
  | ErrTabletNotServedByGroup (pred : string)
  (* verifyTypes, typeSanityCheck *)
  | ErrTypeNameMissing
  | ErrFieldNameMissing
  | ErrObjectTypeNameMissing
  | ErrFieldDirective
  | ErrFieldTokenizers
  | ErrNoMatchingPredicate (field typeName : string)
  (* Mutate *)
  | ErrGroupNotServed (gid : N)
  (* not an error value: the run-time panic of indexing an empty string *)
  | PanicIndexOutOfRange.

Inductive result (A : Type) :=
  | Ok (a : A)
  | Err (e : error).
Arguments Ok {A} a.
Arguments Err {A} e.

(** ** Package types: dynamically typed values *)

(** The [interface{}] payload of a [types.Val]: mutation.go inspects it for
    [[]byte] and [int64]; every other dynamic type is [VOther]. *)
Inductive GoValue :=
  | VBytes (bs : list byte)
  | VInt64 (n : Z)
  | VString (s : string)
  | VOther (tag : N).

Module Val.
Record t := mk { Tid : TypeID; Value : GoValue }.
End Val.

(** ** Collaborator interfaces *)

(** Package x: constants, predicate-name helpers, key construction and the
    worker configuration. *)
Class XPkg := {
  Star : list byte;
  ParseAttr : string → string;
  ParseNamespaceAttr : string → N * string;
  NamespaceAttr : N → string → string;
  IsInternalPredicate : string → bool;
  DataKey : string → N → list byte;
  DataPrefix : string → list byte;
  SchemaKey : string → list byte;
  WorkerConfig_AclEnabled : bool;
  WorkerConfig_StrictMutations : bool
}.

(** Package types: the shared value conversion and marshalling routines. *)
Class TypesPkg := {
  Convert : Val.t → TypeID → result Val.t;
  ValueForType : TypeID → Val.t;
  (** [Marshal from &to]: the value of [to] afterwards, or the error. *)
  Marshal : Val.t → Val.t → result Val.t
}.

(** [posting.TypeID(edge)]: the type of the destination vertex. *)
Class PostingTypeOf := posting_TypeID : DirectedEdge.t → TypeID.

(** The live schema as mutation.go reads it through [schema.State()]. *)
Class SchemaReader := {
  (** [Get(ctx, pred)]; the flag is the context's write marker. A missing
      predicate gives the zero value and false. *)
  State_Get : bool → string → SchemaUpdate.t * bool;
  State_TypeOf : string → result TypeID;
  State_IsList : string → bool;
  HasTokenizerOrVectorIndexSpec : SchemaUpdate.t → bool
}.

(** The transaction's local posting-list cache and the posting lists, as the
    edge applier uses them. *)
Class PostingStore (Txn PList : Type) := {
  Txn_GetScalarList : list byte → Txn → Txn * result PList;
  Txn_Get : list byte → Txn → Txn * result PList;
  Txn_GetFromDelta : list byte → Txn → Txn * result PList;
  AddMutationWithIndex : PList → DirectedEdge.t → Txn → Txn * option error
}.

(** ** Edge validation *)

Section EdgeValidation.
Context `{!XPkg, !TypesPkg, !PostingTypeOf}.

Definition isStarAll (v : list byte) : bool := bool_decide (v = Star).

Definition isDeletePredicateEdge (edge : DirectedEdge.t) : bool :=
  (DirectedEdge.Entity edge =? 0)%N && isStarAll (DirectedEdge.Value edge).

(** Outcome of the "type checks" switch of ValidateAndConvert: a case that
    returns, or a fall through to the conversion with the schema type the
    switch settled on. *)
Inductive TypeCheck :=
  | TcReturn (err : option error)
  | TcConvert (schemaType : TypeID).

Definition typeChecks (edge : DirectedEdge.t) (su : SchemaUpdate.t) : TypeCheck :=
  let storageType := posting_TypeID edge in
  let schemaType : TypeID := SchemaUpdate.ValueType su in
  if bool_decide (DirectedEdge.Lang edge ≠ "") && negb (SchemaUpdate.Lang su) then
    TcReturn (Some (ErrLangDirective (ParseAttr (DirectedEdge.Attr edge)) edge))
  else if negb (IsScalar schemaType) && negb (IsScalar storageType) then
    TcReturn None
  else if negb (IsScalar schemaType) && IsScalar storageType then
    TcReturn (Some (ErrUidInputIsScalar (ParseAttr (DirectedEdge.Attr edge)) edge))
  else if IsScalar schemaType && negb (IsScalar storageType) then
    TcReturn (Some (ErrScalarInputIsUid (ParseAttr (DirectedEdge.Attr edge)) edge))
  else if bool_decide (schemaType = Posting_VFLOAT) then
    if negb (bool_decide (storageType = Posting_VFLOAT)
             || bool_decide (storageType = Posting_STRING)
             || bool_decide (storageType = Posting_DEFAULT)) then
      TcReturn (Some (ErrInputNotVector (ParseAttr (DirectedEdge.Attr edge)) edge))
    else TcConvert schemaType
  else if bool_decide (storageType = schemaType)
          && bool_decide (schemaType ≠ DefaultID) then
    TcReturn None
  else if bool_decide (schemaType = DefaultID) then
    TcConvert storageType
  else TcConvert schemaType.

(** The access-control rule check on the converted value. *)
Definition checkPermission (edge : DirectedEdge.t) (dst : Val.t) : option error :=
  if WorkerConfig_AclEnabled
     && bool_decide (ParseAttr (DirectedEdge.Attr edge) = "dgraph.rule.permission") then
    match Val.Value dst with
    | VInt64 perm =>
        if bool_decide (perm < 0) || bool_decide (perm > 7)
        then Some (ErrPermissionRange perm) else None
    | _ => Some ErrPermissionNotInt
    end
  else None.

(** The part of ValidateAndConvert after the switch: convert, marshal,
    check the permission range, then rewrite the edge in place. *)
Definition convertEdge (edge : DirectedEdge.t) (schemaType : TypeID)
  : DirectedEdge.t * option error :=
  let src := Val.mk (DirectedEdge.ValueType edge) (VBytes (DirectedEdge.Value edge)) in
  match Convert src schemaType with
  | Err err => (edge, Some err)
  | Ok dst =>
      match Marshal dst (ValueForType BinaryID) with
      | Err err => (edge, Some err)
      | Ok b =>
          match checkPermission edge dst with
          | Some err => (edge, Some err)
          | None =>
              let edge1 := DirectedEdge.setValueType (Enum schemaType) edge in
              match Val.Value b with
              | VBytes bs => (DirectedEdge.setValue bs edge1, None)
              | _ => (DirectedEdge.setValue [] edge1,
                      Some (ErrConvertEdgeType (posting_TypeID edge) schemaType))
              end
          end
      end
  end.

(** ValidateAndConvert: the edge as the call leaves it, and the error. *)
Definition ValidateAndConvert (edge : DirectedEdge.t) (su : SchemaUpdate.t)
  : DirectedEdge.t * option error :=
  if isDeletePredicateEdge edge then (edge, None)
  else if bool_decide (DirectedEdge.ValueType edge = DefaultID)
          && isStarAll (DirectedEdge.Value edge) then (edge, None)
  else
    match typeChecks edge su with
    | TcReturn err => (edge, err)
    | TcConvert schemaType => convertEdge edge schemaType
    end.
End EdgeValidation.

(** ** Edge applier *)

(** The three ways runMutation can fetch the current posting state. *)
Inductive GetFn := UseGetScalarList | UseGet | UseGetFromDelta.

#[global] Instance GetFn_eq_dec : EqDecision GetFn.
Proof. solve_decision. Defined.

(** The switch of runMutation that picks [getFn]. *)
Definition chooseGetFn (edge : DirectedEdge.t) (su : SchemaUpdate.t) : GetFn :=
  let isList := SchemaUpdate.List su in
  if bool_decide (String.length (DirectedEdge.Lang edge) = 0%nat) && negb isList then
    UseGetScalarList
  else if bool_decide (0 < String.length (DirectedEdge.Lang edge))%nat
          || SchemaUpdate.Count su then
    UseGet
  else if bool_decide (DirectedEdge.Op edge = DirectedEdge_DEL) then
    UseGet
  else UseGetFromDelta.

Section EdgeApplier.
Context `{!XPkg, !TypesPkg, !PostingTypeOf, !SchemaReader}.
Context {Txn PList : Type} `{!PostingStore Txn PList}.

Definition callGet (f : GetFn) : list byte → Txn → Txn * result PList :=
  match f with
  | UseGetScalarList => Txn_GetScalarList
  | UseGet => Txn_Get
  | UseGetFromDelta => Txn_GetFromDelta
  end.

(** runMutation from the deletion-wildcard check on, with the schema the
    lookup produced. *)
Definition applyEdge (edge : DirectedEdge.t) (su : SchemaUpdate.t) (txn : Txn)
  : Txn * DirectedEdge.t * option error :=
  if isDeletePredicateEdge edge then (txn, edge, Some ErrNeverReachHere)
  else
    match ValidateAndConvert edge su with
    | (edge', Some err) => (txn, edge', Some err)
    | (edge', None) =>
        let key := DataKey (DirectedEdge.Attr edge') (DirectedEdge.Entity edge') in
        match callGet (chooseGetFn edge' su) key txn with
        | (txn', Err err) => (txn', edge', Some err)
        | (txn', Ok plist) =>
            let '(txn'', err) := AddMutationWithIndex plist edge' txn' in
            (txn'', edge', err)
        end
    end.

(** runMutation: the transaction and the edge afterwards, and the error. *)
Definition runMutation (edge : DirectedEdge.t) (txn : Txn)
  : Txn * DirectedEdge.t * option error :=
  let '(su, ok) := State_Get true (DirectedEdge.Attr edge) in
  if bool_decide (DirectedEdge.Op edge ≠ DirectedEdge_DEL) && negb ok then
    (txn, edge, Some (ErrNoSchemaFor (DirectedEdge.Attr edge)))
  else applyEdge edge su txn.
End EdgeApplier.

(** ** Schema validation *)

(** An item of the key-value store as an iterator shows it (values are not
    prefetched): the key and the user meta byte. *)
Module Item.
Record t := mk { Key : list byte; UserMeta : N }.
End Item.

(** The store [pstore], read through a transaction at a timestamp: the items
    a prefix iterator visits, in order. *)
Class KVStore := {
  iterate : N → list byte → list Item.t;
  (** [posting.BitEmptyPosting], the mark of an empty posting list. *)
  BitEmptyPosting : N
}.

Definition MaxUint64 : N := (2 ^ 64 - 1)%N.

Section SchemaValidation.
Context `{!XPkg, !SchemaReader, !KVStore}.

(** hasEdges: true at the first item under the predicate's data prefix
    whose user meta does not carry the empty-posting bit. *)
Definition hasEdges (attr : string) (startTs : N) : bool :=
  existsb (λ it, (N.land (Item.UserMeta it) BitEmptyPosting =? 0)%N)
          (iterate startTs (DataPrefix attr)).

Definition validTokenizer (tokenizers : list string) : bool :=
  existsb (λ value, bool_decide (value = "hash") || bool_decide (value = "exact")
                    || bool_decide (value = "int")) tokenizers.

(** validateSchemaForUnique: the current schema as the call leaves it (the
    upsert flag is forced on) and the error. *)
Definition validateSchemaForUnique (prevSchema currentSchema : SchemaUpdate.t)
  : SchemaUpdate.t * option error :=
  let attr := ParseAttr (SchemaUpdate.Predicate currentSchema) in
  if bool_decide (SchemaUpdate.Predicate prevSchema ≠ "")
     && SchemaUpdate.Upsert prevSchema && negb (SchemaUpdate.Upsert currentSchema) then
    (currentSchema, Some (ErrDropUpsertWithUnique attr))
  else if bool_decide (SchemaUpdate.Predicate prevSchema ≠ "")
          && SchemaUpdate.Unique prevSchema
          && negb (validTokenizer (SchemaUpdate.Tokenizer currentSchema)) then
    (currentSchema, Some (ErrDropIndexWithUnique (SchemaUpdate.Tokenizer prevSchema) attr))
  else
    let currentSchema :=
      if negb (SchemaUpdate.Upsert currentSchema)
      then SchemaUpdate.setUpsert true currentSchema else currentSchema in
    let toks := SchemaUpdate.Tokenizer currentSchema in
    match SchemaUpdate.ValueType currentSchema with
    | Posting_STRING =>
        if bool_decide (length toks = 0%nat)
           || (bool_decide (0 < length toks)%nat && negb (validTokenizer toks))
        then (currentSchema, Some (ErrUniqueNeedsHashOrExact attr))
        else (currentSchema, None)
    | Posting_INT =>
        if bool_decide (length toks = 0%nat)
        then (currentSchema, Some (ErrUniqueNeedsInt attr))
        else (currentSchema, None)
    | vt => (currentSchema, Some (ErrUniqueUnsupported vt))
    end.

(** The switch at the end of checkSchema, for a predicate whose previous
    type is [t]. *)
Definition checkConversion (t : TypeID) (s : SchemaUpdate.t) : option error :=
  let typ : TypeID := SchemaUpdate.ValueType s in
  let pred := SchemaUpdate.Predicate s in
  if IsScalar t && (bool_decide (Enum t = Posting_PASSWORD)
                    || bool_decide (SchemaUpdate.ValueType s = Posting_PASSWORD)) then
    if bool_decide (Enum t ≠ SchemaUpdate.ValueType s)
    then Some (ErrSchemaChange (Enum t) (Enum typ)) else None
  else if bool_decide (IsScalar t = IsScalar typ) then
    if State_IsList pred && negb (SchemaUpdate.List s) && hasEdges pred MaxUint64
    then Some (ErrListToNonList t typ (ParseAttr pred)) else None
  else
    if hasEdges pred MaxUint64
    then Some (ErrScalarUidWithData (ParseAttr pred)) else None.

(** checkSchema on a schema update that is not nil: the update as the call
    leaves it, and the error. *)
Definition checkSchemaUpdate (s : SchemaUpdate.t) : SchemaUpdate.t * option error :=
  let pred := SchemaUpdate.Predicate s in
  let typ : TypeID := SchemaUpdate.ValueType s in
  if bool_decide (ParseAttr pred = "") then (s, Some ErrNoPredicate)
  else if IsInternalPredicate pred then (s, Some (ErrInternalName (ParseAttr pred)))
  else if bool_decide (SchemaUpdate.Directive s = SchemaUpdate_INDEX)
          && negb (HasTokenizerOrVectorIndexSpec s) then
    (s, Some (ErrTokenizerRequired s))
  else if HasTokenizerOrVectorIndexSpec s
          && bool_decide (SchemaUpdate.Directive s ≠ SchemaUpdate_INDEX) then
    (s, Some ErrDirectiveMustBeIndex)
  else if bool_decide (typ = UidID)
          && bool_decide (SchemaUpdate.Directive s = SchemaUpdate_INDEX) then
    (s, Some (ErrIndexOnUid (ParseAttr pred)))
  else if bool_decide (typ ≠ UidID)
          && bool_decide (SchemaUpdate.Directive s = SchemaUpdate_REVERSE) then
    (s, Some (ErrReverseOnNonUid (ParseAttr pred)))
  else if SchemaUpdate.Upsert s && bool_decide (length (SchemaUpdate.Tokenizer s) = 0%nat)
          && negb (SchemaUpdate.Unique s) then
    (s, Some (ErrUpsertNeedsTokenizer (ParseAttr pred)))
  else
    let '(s1, uniqueErr) :=
      if SchemaUpdate.Unique s
      then validateSchemaForUnique (fst (State_Get false pred)) s
      else (s, None) in
    match uniqueErr with
    | Some err => (s1, Some err)
    | None =>
        match State_TypeOf (SchemaUpdate.Predicate s1) with
        | Err _ => (s1, None)
        | Ok t => (s1, checkConversion t s1)
        end
    end.

Definition checkSchema (s : option SchemaUpdate.t)
  : option SchemaUpdate.t * option error :=
  match s with
  | None => (None, Some ErrNilSchema)
  | Some s => let '(s', err) := checkSchemaUpdate s in (Some s', err)
  end.
End SchemaValidation.

(** ** Mutation router *)

(** [pb.Metadata_HintType], the list/scalar hint of a predicate. *)
Inductive Metadata_HintType := Metadata_DEFAULT | Metadata_SINGLE | Metadata_LIST.

Module Mutations.
Record t := mk {
  GroupId : N;
  StartTs : N;
  Edges : list DirectedEdge.t;
  Schema : list SchemaUpdate.t;
  Types : list TypeUpdate.t;
  (** [pb.Mutations_DropOp], an int32 enumeration whose zero is "none". *)
  DropOp : Z;
  DropValue : string;
  (** [*pb.Metadata]: nil, or the predicate hints. *)
  Metadata : option (gmap string Metadata_HintType)
}.
(** [&pb.Mutations{GroupId: gid}] *)
Definition new (gid : N) : t := mk gid 0%N [] [] [] 0 "" None.
Definition addEdge (md : option (gmap string Metadata_HintType))
    (edge : DirectedEdge.t) (mu : t) : t :=
  mk (GroupId mu) (StartTs mu) (Edges mu ++ [edge]) (Schema mu) (Types mu)
     (DropOp mu) (DropValue mu) md.
Definition addSchema (s : SchemaUpdate.t) (mu : t) : t :=
  mk (GroupId mu) (StartTs mu) (Edges mu) (Schema mu ++ [s]) (Types mu)
     (DropOp mu) (DropValue mu) (Metadata mu).
Definition setDrop (op : Z) (value : string) (mu : t) : t :=
  mk (GroupId mu) (StartTs mu) (Edges mu) (Schema mu) (Types mu)
     op value (Metadata mu).
Definition setTypes (ts : list TypeUpdate.t) (mu : t) : t :=
  mk (GroupId mu) (StartTs mu) (Edges mu) (Schema mu) ts
     (DropOp mu) (DropValue mu) (Metadata mu).
Definition setStartTs (ts : N) (mu : t) : t :=
  mk (GroupId mu) ts (Edges mu) (Schema mu) (Types mu)
     (DropOp mu) (DropValue mu) (Metadata mu).
End Mutations.

Module TxnContext.
Record t := mk {
  StartTs : N;
  CommitTs : N;
  Aborted : bool;
  Keys : list string;
  Preds : list string
}.
(** [&api.TxnContext{}] *)
Definition zero : t := mk 0%N 0%N false [] [].
(** The two appends of the aggregation loop. *)
Definition merge (tctx from : t) : t :=
  mk (StartTs tctx) (CommitTs tctx) (Aborted tctx)
     (Keys tctx ++ Keys from) (Preds tctx ++ Preds from).
End TxnContext.

(** The reply of one group: [type res struct]; [ctx] may be nil. *)
Module res.
Record t := mk { err : option error; ctx : option TxnContext.t }.
End res.

(** Group membership, the transaction oracle, the local consensus node and the
    connections to other groups, as the router calls them. *)
Class Cluster := {
  (** [groups().BelongsTo(pred)]: the owning group, 0 when no group serves
      the predicate. *)
  BelongsTo : string → result N;
  KnownGroups : list N;
  ServesGroup : N → bool;
  groupId : N;
  (** [groups().Leader(gid)]: nil, or the connection pool of the leader. *)
  Leader : N → option N;
  Oracle_WaitForTs : N → option error;
  (** [Oracle().GetTxn(startTs)] and, when it is not nil, its
      [FillContext(tctx, gid, isErrored)]. *)
  Oracle_FillContext : N → option (TxnContext.t → N → bool → TxnContext.t);
  Node_proposeAndWait : Mutations.t → option error;
  (** The remote call [c.Mutate(ctx, m)] over a pool. *)
  Remote_Mutate : N → Mutations.t → option TxnContext.t * option error;
  (** The caller's context as the [select] of proposeOrSend finds it for a
      group: [Some err] when its Done branch is taken. *)
  ctx_Done : N → option error;
  (** [GetSchemaOverNetwork] for a list of predicates: the predicates of the
      schema nodes that come back. *)
  GetSchemaOverNetwork : list string → result (list string)
}.

Section Router.
Context `{!XPkg, !SchemaReader, !Cluster}.

Definition fillTxnContext (tctx : TxnContext.t) (startTs : N) (isErrored : bool)
  : TxnContext.t :=
  match Oracle_FillContext startTs with
  | Some fill => fill tctx groupId isErrored
  | None => tctx
  end.

(** The strict-mutations loop of proposeAndWait. *)
Fixpoint strictCheck (edges : list DirectedEdge.t) : option error :=
  match edges with
  | [] => None
  | edge :: rest =>
      match State_TypeOf (DirectedEdge.Attr edge) with
      | Err err => Some err
      | Ok _ => strictCheck rest
      end
  end.

(** grpcWorker.proposeAndWait: the transaction context afterwards, and the
    error. *)
Definition proposeAndWait (txnCtx : TxnContext.t) (m : Mutations.t)
  : TxnContext.t * option error :=
  match (if WorkerConfig_StrictMutations then strictCheck (Mutations.Edges m) else None) with
  | Some err => (txnCtx, Some err)
  | None =>
      match Oracle_WaitForTs (Mutations.StartTs m) with
      | Some err => (txnCtx, Some err)
      | None =>
          let err := Node_proposeAndWait m in
          (fillTxnContext txnCtx (Mutations.StartTs m) (bool_decide (err ≠ None)), err)
      end
  end.

(** proposeOrSend: the reply it puts on the channel. *)
Definition proposeOrSend (gid : N) (m : Mutations.t) : res.t :=
  if ServesGroup gid then
    let '(tctx, err) := proposeAndWait TxnContext.zero m in
    res.mk err (Some tctx)
  else
    match Leader gid with
    | None => res.mk (Some ErrNoConnection) None
    | Some pl =>
        match ctx_Done gid with
        | Some err => res.mk (Some err) None
        | None => let '(tc, err) := Remote_Mutate pl m in res.mk err tc
        end
    end.

(** [mu := mm[gid]; if mu == nil { mu = &pb.Mutations{GroupId: gid}; mm[gid] = mu }]
    followed by an update of [*mu]. *)
Definition upsertGroup (f : Mutations.t → Mutations.t) (gid : N)
    (mm : gmap N Mutations.t) : gmap N Mutations.t :=
  <[gid := f (default (Mutations.new gid) (mm !! gid))]> mm.

Fixpoint placeEdges (md : option (gmap string Metadata_HintType))
    (edges : list DirectedEdge.t) (mm : gmap N Mutations.t)
  : result (gmap N Mutations.t) :=
  match edges with
  | [] => Ok mm
  | edge :: rest =>
      match BelongsTo (DirectedEdge.Attr edge) with
      | Err err => Err err
      | Ok gid => placeEdges md rest (upsertGroup (Mutations.addEdge md edge) gid mm)
      end
  end.

Fixpoint placeSchema (schemas : list SchemaUpdate.t) (mm : gmap N Mutations.t)
  : result (gmap N Mutations.t) :=
  match schemas with
  | [] => Ok mm
  | schema :: rest =>
      match BelongsTo (SchemaUpdate.Predicate schema) with
      | Err err => Err err
      | Ok gid => placeSchema rest (upsertGroup (Mutations.addSchema schema) gid mm)
      end
  end.

(** A loop over [groups().KnownGroups()] that updates every group's entry. *)
Definition toKnownGroups (f : Mutations.t → Mutations.t)
    (mm : gmap N Mutations.t) : gmap N Mutations.t :=
  foldl (λ mm gid, upsertGroup f gid mm) mm KnownGroups.

(** populateMutationMap: the map from group id to the mutation for that
    group. *)
Definition populateMutationMap (src : Mutations.t) : result (gmap N Mutations.t) :=
  match placeEdges (Mutations.Metadata src) (Mutations.Edges src) ∅ with
  | Err err => Err err
  | Ok mm =>
      match placeSchema (Mutations.Schema src) mm with
      | Err err => Err err
      | Ok mm =>
          let mm :=
            if bool_decide (Mutations.DropOp src > 0)
            then toKnownGroups (Mutations.setDrop (Mutations.DropOp src)
                                                  (Mutations.DropValue src)) mm
            else mm in
          let mm :=
            if bool_decide (0 < length (Mutations.Types src))%nat
            then toKnownGroups (Mutations.setTypes (Mutations.Types src)) mm
            else mm in
          Ok mm
      end
  end.

(** Whether the group [gid] owns the predicate. *)
Definition ownedBy (gid : N) (pred : string) : bool :=
  match BelongsTo pred with
  | Ok g => bool_decide (g = gid)
  | Err _ => false
  end.

(** The map holds, for every group, the edges and the schema updates of
    the two lists that the group owns, in their order; a group without an
    entry owns none of them. *)
Definition Partitioned (edges : list DirectedEdge.t) (schemas : list SchemaUpdate.t)
    (mm : gmap N Mutations.t) : Prop :=
  ∀ gid,
    match mm !! gid with
    | Some mu =>
        Mutations.GroupId mu = gid
        ∧ Mutations.Edges mu = filter (λ e, ownedBy gid (DirectedEdge.Attr e)) edges
        ∧ Mutations.Schema mu = filter (λ s, ownedBy gid (SchemaUpdate.Predicate s)) schemas
    | None =>
        filter (λ e, ownedBy gid (DirectedEdge.Attr e)) edges = []
        ∧ filter (λ s, ownedBy gid (SchemaUpdate.Predicate s)) schemas = []
    end.

(** typeSanityCheck, over the fields of the type update. *)
Fixpoint typeSanityCheckFields (fields : list SchemaUpdate.t) : option error :=
  match fields with
  | [] => None
  | field :: rest =>
      if bool_decide (ParseAttr (SchemaUpdate.Predicate field) = "") then
        Some ErrFieldNameMissing
      else if bool_decide (SchemaUpdate.ValueType field = Posting_OBJECT)
              && bool_decide (SchemaUpdate.ObjectTypeName field = "") then
        Some ErrObjectTypeNameMissing
      else if bool_decide (SchemaUpdate.Directive field ≠ SchemaUpdate_NONE) then
        Some ErrFieldDirective
      else if bool_decide (0 < length (SchemaUpdate.Tokenizer field))%nat then
        Some ErrFieldTokenizers
      else typeSanityCheckFields rest
  end.

Definition typeSanityCheck (t : TypeUpdate.t) : option error :=
  typeSanityCheckFields (TypeUpdate.Fields t).

(** The field name verifyTypes looks up: the predicate, without the
    leading tilde of a reverse edge. [attr[0]] panics on an empty [attr]. *)
Definition fieldName (field : SchemaUpdate.t) : result string :=
  let '(ns, attr) := ParseNamespaceAttr (SchemaUpdate.Predicate field) in
  match attr with
  | EmptyString => Err PanicIndexOutOfRange
  | String c rest =>
      if bool_decide (c = "~"%char) then Ok (NamespaceAttr ns rest)
      else Ok (SchemaUpdate.Predicate field)
  end.

Fixpoint fieldsNotInRequest (reqPredSet : gset string)
    (typeFields : list SchemaUpdate.t) (fields : list string) : result (list string) :=
  match typeFields with
  | [] => Ok fields
  | field :: rest =>
      match fieldName field with
      | Err err => Err err
      | Ok name =>
          fieldsNotInRequest reqPredSet rest
            (if bool_decide (name ∈ reqPredSet) then fields else fields ++ [name])
      end
  end.

(** The first loop of verifyTypes over [m.Types]. *)
Fixpoint collectFields (reqPredSet : gset string) (types : list TypeUpdate.t)
    (fields : list string) : result (list string) :=
  match types with
  | [] => Ok fields
  | t :: rest =>
      if bool_decide (TypeUpdate.TypeName t = "") then Err ErrTypeNameMissing
      else match typeSanityCheck t with
           | Some err => Err err
           | None =>
               match fieldsNotInRequest reqPredSet (TypeUpdate.Fields t) fields with
               | Err err => Err err
               | Ok fields => collectFields reqPredSet rest fields
               end
           end
  end.

Fixpoint fieldsResolve (schemaSet reqPredSet : gset string) (typeName : string)
    (typeFields : list SchemaUpdate.t) : option error :=
  match typeFields with
  | [] => None
  | field :: rest =>
      match fieldName field with
      | Err err => Some err
      | Ok name =>
          if negb (bool_decide (name ∈ schemaSet)) && negb (bool_decide (name ∈ reqPredSet))
          then Some (ErrNoMatchingPredicate (SchemaUpdate.Predicate field) typeName)
          else fieldsResolve schemaSet reqPredSet typeName rest
      end
  end.

(** The second loop of verifyTypes over [m.Types]. *)
Fixpoint typesResolve (schemaSet reqPredSet : gset string)
    (types : list TypeUpdate.t) : option error :=
  match types with
  | [] => None
  | t :: rest =>
      match fieldsResolve schemaSet reqPredSet (TypeUpdate.TypeName t)
              (TypeUpdate.Fields t) with
      | Some err => Some err
      | None => typesResolve schemaSet reqPredSet rest
      end
  end.

Definition verifyTypes (m : Mutations.t) : option error :=
  let reqPredSet : gset string :=
    list_to_set (SchemaUpdate.Predicate <$> Mutations.Schema m) in
  match collectFields reqPredSet (Mutations.Types m) [] with
  | Err err => Some err
  | Ok fields =>
      match GetSchemaOverNetwork fields with
      | Err err => Some (ErrWrap "cannot retrieve predicate information" err)
      | Ok schemas => typesResolve (list_to_set schemas) reqPredSet (Mutations.Types m)
      end
  end.

(** One round of the loop that waits for the replies. *)
Definition collectReply (acc : TxnContext.t * option error) (r : res.t)
  : TxnContext.t * option error :=
  let '(tctx, e) := acc in
  (match res.ctx r with
   | Some c => TxnContext.merge tctx c
   | None => tctx
   end,
   match res.err r with
   | Some err => Some err
   | None => e
   end).

Definition collectReplies (tctx : TxnContext.t) (replies : list res.t)
  : TxnContext.t * option error :=
  foldl collectReply (tctx, None) replies.

(** The replies MutateOverNetwork waits for: that of proposeOrSend for every
    entry of the map, with the start timestamp of the batch. *)
Definition dispatched (m : Mutations.t) (mm : gmap N Mutations.t) : list res.t :=
  (λ '(gid, mu), proposeOrSend gid (Mutations.setStartTs (Mutations.StartTs m) mu))
    <$> map_to_list mm.

(** MutateOverNetwork. The dispatch loop ranges over the map in an
    unspecified order and returns at group 0, whichever groups it has
    started by then; what it returns does not depend on that order. The
    replies come back in the order the groups finish: [arrival] is that
    order, a rearrangement of the replies. *)
Definition MutateOverNetwork (arrival : list res.t → list res.t) (m : Mutations.t)
  : TxnContext.t * option error :=
  let tctx := TxnContext.mk (Mutations.StartTs m) 0%N false [] [] in
  match verifyTypes m with
  | Some err => (tctx, Some err)
  | None =>
      match populateMutationMap m with
      | Err err => (tctx, Some err)
      | Ok mutationMap =>
          if bool_decide (is_Some (mutationMap !! 0%N)) then
            (tctx, Some errNonExistentTablet)
          else
            collectReplies tctx (arrival (dispatched m mutationMap))
      end
  end.
End Router.

(** ** Schema mutation coordinator: the schema state and its durable copy *)

(** [posting.IndexRebuild]: the plan of one schema change. *)
Module IndexRebuild.
Record t := mk {
  Attr : string;
  StartTs : N;
  OldSchema : SchemaUpdate.t;
  CurrentSchema : SchemaUpdate.t
}.
End IndexRebuild.

(** The schema of the process: the in-memory state [schema.State()] with its
    map of schemas under mutation, and the schema records committed to the
    store. [loads] counts the calls of [schema.Load]; [slept] is the time
    spent in back-off, in milliseconds. *)
Module World.
Record t := mk {
  predicate : gmap string SchemaUpdate.t;
  mutSchema : gmap string SchemaUpdate.t;
  durable : gmap string SchemaUpdate.t;
  loads : nat;
  slept : N
}.
(** [schema.State().Set(pred, s)] *)
Definition Set_ (pred : string) (s : SchemaUpdate.t) (w : t) : t :=
  mk (<[pred := s]> (predicate w)) (mutSchema w) (durable w) (loads w) (slept w).
(** [schema.State().SetMutSchema(pred, s)] *)
Definition SetMutSchema (pred : string) (s : SchemaUpdate.t) (w : t) : t :=
  mk (predicate w) (<[pred := s]> (mutSchema w)) (durable w) (loads w) (slept w).
(** [schema.State().DeleteMutSchema(pred)] *)
Definition DeleteMutSchema (pred : string) (w : t) : t :=
  mk (predicate w) (delete pred (mutSchema w)) (durable w) (loads w) (slept w).
(** A committed write of the schema record of [pred]. *)
Definition commit (pred : string) (s : SchemaUpdate.t) (w : t) : t :=
  mk (predicate w) (mutSchema w) (<[pred := s]> (durable w)) (loads w) (slept w).
(** [time.Sleep(d)] *)
Definition sleep (ms : N) (w : t) : t :=
  mk (predicate w) (mutSchema w) (durable w) (loads w) (slept w + ms)%N.
End World.

(** What the index rebuild and the store answer: the outcome of building,
    of the synchronous set-up, of the writes of a schema record, and of each
    attempt to load a schema (by the number of loads made before it). *)
Class RebuildEnv := {
  NeedIndexRebuild : IndexRebuild.t → bool;
  GetQuerySchema : IndexRebuild.t → SchemaUpdate.t;
  DropIndexes : IndexRebuild.t → option error;
  BuildData : IndexRebuild.t → option error;
  BuildIndexes : IndexRebuild.t → option error;
  Txn_SetEntry : string → N → option error;
  Txn_CommitAt : string → N → option error;
  Load_result : string → nat → option error
}.

(** How a call that may end in [glog.Fatalf] leaves the process. *)
Inductive exit :=
  | Alive
  | Fatal (maxRetries : nat) (loadErr : error).

Section SchemaCommit.
Context `{!RebuildEnv}.

(** Modelled from the spec: [schema.Load] is outside src/; "the predicate's
    schema is reloaded from durable storage", which "rolls back the in-memory
    schema". A load that succeeds makes the in-memory schema of the
    predicate the durable one and drops its schema under mutation; a load
    that fails changes nothing. Every call is counted. *)
Definition schema_Load (pred : string) (w : World.t) : World.t * option error :=
  let w1 := World.mk (World.predicate w) (World.mutSchema w) (World.durable w)
                     (S (World.loads w)) (World.slept w) in
  match Load_result pred (World.loads w) with
  | Some err => (w1, Some err)
  | None =>
      (World.mk (match World.durable w !! pred with
                 | Some s => <[pred := s]> (World.predicate w)
                 | None => delete pred (World.predicate w)
                 end)
                (delete pred (World.mutSchema w)) (World.durable w)
                (S (World.loads w)) (World.slept w),
       None)
  end.

(** Modelled from the spec: the loop of [x.RetryUntilSuccess], which is
    outside src/; "a bounded retry loop with fixed backoff". It runs [f]
    while the budget lasts, pauses after a failure, stops at the first
    success, and ends with the last error. *)
Fixpoint retryLoop (retry : nat) (waitAfterFailure : N)
    (f : World.t → World.t * option error) (err : option error) (w : World.t)
  : World.t * option error :=
  match retry with
  | O => (w, err)
  | S retry' =>
      match f w with
      | (w', None) => (w', None)
      | (w', Some e) =>
          retryLoop retry' waitAfterFailure f (Some e) (World.sleep waitAfterFailure w')
      end
  end.

(** Modelled from the spec: [x.RetryUntilSuccess] is outside src/; "retry
    with budget", the budget and the pause being its first two arguments. *)
Definition RetryUntilSuccess (maxRetries : nat) (waitAfterFailure : N)
    (f : World.t → World.t * option error) (w : World.t) : World.t * option error :=
  retryLoop maxRetries waitAfterFailure f None w.

Definition undoSchemaUpdate (predicate : string) (w : World.t) : World.t * exit :=
  let maxRetries := 10%nat in
  match RetryUntilSuccess maxRetries 10%N (schema_Load predicate) w with
  | (w', Some loadErr) => (w', Fatal maxRetries loadErr)
  | (w', None) => (w', Alive)
  end.

(** updateSchema: publish in memory, then write and commit the schema
    record at [ts]; the record is in the store only after the commit. *)
Definition updateSchema (s : SchemaUpdate.t) (ts : N) (w : World.t)
  : World.t * option error :=
  let pred := SchemaUpdate.Predicate s in
  let w := World.DeleteMutSchema pred (World.Set_ pred s w) in
  match Txn_SetEntry pred ts with
  | Some err => (w, Some err)
  | None =>
      match Txn_CommitAt pred ts with
      | Some err => (w, Some err)
      | None => (World.commit pred s w, None)
      end
  end.

(** The closure [buildIndexesHelper] of runSchemaMutation. *)
Definition buildIndexesHelper (update : SchemaUpdate.t) (rebuild : IndexRebuild.t)
    (w : World.t) : World.t * option error :=
  match BuildIndexes rebuild with
  | Some err => (w, Some err)
  | None => updateSchema update (IndexRebuild.StartTs rebuild) w
  end.

(** The closure [buildIndexes] of runSchemaMutation between its
    [throttle.Do()] and [throttle.Done(nil)]: rebuild, and undo the schema
    change when that fails. *)
Definition buildIndexes (update : SchemaUpdate.t) (rebuild : IndexRebuild.t)
    (w : World.t) : World.t * exit :=
  match buildIndexesHelper update rebuild w with
  | (w', Some err) => undoSchemaUpdate (SchemaUpdate.Predicate update) w'
  | (w', None) => (w', Alive)
  end.
End SchemaCommit.

(** ** Schema mutation coordinator: runSchemaMutation and its goroutines *)

(** Where the body of runSchemaMutation stands: blocked in
    [waitForTask(opIndexing)], at the iteration [i] of the loop over the
    updates, or returned (its deferred calls done). *)
Inductive MainPc :=
  | MWaitForTask
  | MLoop (i : nat)
  | MReturned (err : option error).

(** Where a [go buildIndexes(...)] stands: at [wg.Wait()], at
    [throttle.Do()], rebuilding the index, or finished. *)
Inductive GPhase := GWaitGroup | GThrottle | GBuilding | GFinished.

#[global] Instance GPhase_eq_dec : EqDecision GPhase.
Proof. solve_decision. Defined.

Module Goroutine.
Record t := mk {
  update : SchemaUpdate.t;
  rebuild : IndexRebuild.t;
  (** whether the closer it was started with is not nil *)
  closer : bool;
  phase : GPhase
}.
Definition setPhase (p : GPhase) (g : t) : t :=
  mk (update g) (rebuild g) (closer g) p.
End Goroutine.

(** The state of one call of runSchemaMutation and of what it shares with the
    process: the schema, the indexing slot of the node ([indexing] is
    [isRunningTask(opIndexing)]), the variables [closer] (nil or not) and
    [done], the number of deferred [stopIndexing] calls, the slots of the
    throttle in use, the goroutines it started, and whether the process is
    still alive. *)
Module Coord.
Record t := mk {
  world : World.t;
  pc : MainPc;
  indexing : bool;
  closer : bool;
  deferred : nat;
  done : bool;
  throttle : nat;
  goroutines : list Goroutine.t;
  exited : exit
}.
End Coord.

(** The node and the group membership as runSchemaMutation calls them, and
    the way the schema package shows a schema state to its readers. *)
Class NodeEnv := {
  (** [groups().Tablet(pred)]: the group of the tablet, or the error. *)
  Tablet_GroupId : string → result N;
  node_groupId : N;
  (** the error of [startTaskAtTs(opIndexing, ts)] *)
  startTaskAtTs_err : N → option error;
  (** the write marker of the context runSchemaMutation is called with *)
  ctx_IsWrite : bool;
  view : World.t → SchemaReader;
  (** [schema.State().IndexingInProgress()] *)
  IndexingInProgress : World.t → bool
}.

Section Coordinator.
Context `{!XPkg, !KVStore, !RebuildEnv, !NodeEnv}.
Variable updates : list SchemaUpdate.t.
Variable startTs : N.

(** [maxPredicateAtATime], the capacity of the throttle. *)
Definition maxPredicateAtATime : nat :=
  if bool_decide (length updates < 1024)%nat then length updates else 1024%nat.

(** Modelled from the spec: [waitForTask] is outside src/; "other schema
    changes requiring a rebuild must wait for it to clear". The call blocks
    while the indexing slot is taken. *)
Definition waitForTask (s : Coord.t) : option Coord.t :=
  if Coord.indexing s then None else Some s.

(** Modelled from the spec: [startTaskAtTs] is outside src/; "acquire returns
    a handle or blocks". The slot is taken. *)
Definition takeSlot (s : Coord.t) : Coord.t :=
  Coord.mk (Coord.world s) (Coord.pc s) true (Coord.closer s) (Coord.deferred s)
           (Coord.done s) (Coord.throttle s) (Coord.goroutines s) (Coord.exited s).

(** Modelled from the spec: the closer of the task is outside src/; "release
    ... via a one-shot completion guard". [Done] on the closer of the task
    frees the slot; on a nil closer it does nothing. *)
Definition closer_Done (c : bool) (s : Coord.t) : Coord.t :=
  Coord.mk (Coord.world s) (Coord.pc s) (if c then false else Coord.indexing s)
           (Coord.closer s) (Coord.deferred s) (Coord.done s) (Coord.throttle s)
           (Coord.goroutines s) (Coord.exited s).

(** The closure [stopIndexing], called with a closer that is or is not
    nil: when no predicate is being indexed, the first call to get past the
    compare-and-swap of [done] completes the closer. (The snapshot it may
    propose afterwards changes nothing here.) *)
Definition stopIndexing (c : bool) (s : Coord.t) : Coord.t :=
  if negb (IndexingInProgress (Coord.world s)) && negb (Coord.done s) then
    closer_Done c
      (Coord.mk (Coord.world s) (Coord.pc s) (Coord.indexing s) (Coord.closer s)
                (Coord.deferred s) true (Coord.throttle s) (Coord.goroutines s)
                (Coord.exited s))
  else s.

(** [return err]: the deferred [stopIndexing(closer)] calls, then the
    deferred [wg.Done()], which the goroutines observe as the return. *)
Definition mainReturn (err : option error) (s : Coord.t) : Coord.t :=
  let s := Nat.iter (Coord.deferred s) (stopIndexing true) s in
  Coord.mk (Coord.world s) (MReturned err) (Coord.indexing s) (Coord.closer s)
           0 (Coord.done s) (Coord.throttle s) (Coord.goroutines s) (Coord.exited s).

Definition setWorld (w : World.t) (s : Coord.t) : Coord.t :=
  Coord.mk w (Coord.pc s) (Coord.indexing s) (Coord.closer s) (Coord.deferred s)
           (Coord.done s) (Coord.throttle s) (Coord.goroutines s) (Coord.exited s).

Definition setPc (pc : MainPc) (s : Coord.t) : Coord.t :=
  Coord.mk (Coord.world s) pc (Coord.indexing s) (Coord.closer s) (Coord.deferred s)
           (Coord.done s) (Coord.throttle s) (Coord.goroutines s) (Coord.exited s).

Definition setExited (e : exit) (s : Coord.t) : Coord.t :=
  Coord.mk (Coord.world s) (Coord.pc s) (Coord.indexing s) (Coord.closer s)
           (Coord.deferred s) (Coord.done s) (Coord.throttle s) (Coord.goroutines s) e.

(** [closer, err = startTaskAtTs(opIndexing, startTs)] without error,
    and [defer stopIndexing(closer)]. *)
Definition startTask (s : Coord.t) : Coord.t :=
  let s := takeSlot s in
  Coord.mk (Coord.world s) (Coord.pc s) (Coord.indexing s) true (S (Coord.deferred s))
           (Coord.done s) (Coord.throttle s) (Coord.goroutines s) (Coord.exited s).

(** [go buildIndexes(su, rebuild, closer)] *)
Definition spawn (su : SchemaUpdate.t) (rebuild : IndexRebuild.t) (s : Coord.t) : Coord.t :=
  Coord.mk (Coord.world s) (Coord.pc s) (Coord.indexing s) (Coord.closer s)
           (Coord.deferred s) (Coord.done s) (Coord.throttle s)
           (Coord.goroutines s ++ [Goroutine.mk su rebuild (Coord.closer s) GWaitGroup])
           (Coord.exited s).

(** The closure [setup]. *)
Definition setup (ok : bool) (rebuild : IndexRebuild.t) : option error :=
  if negb ok then None
  else match DropIndexes rebuild with
       | Some err => Some err
       | None => BuildData rebuild
       end.

(** One iteration of the loop over the updates, at index [i]. *)
Definition loopBody (i : nat) (su : SchemaUpdate.t) (s : Coord.t) : Coord.t :=
  let pred := SchemaUpdate.Predicate su in
  match Tablet_GroupId pred with
  | Err err => mainReturn (Some err) s
  | Ok gid =>
      if bool_decide (gid ≠ node_groupId) then
        mainReturn (Some (ErrTabletNotServedByGroup pred)) s
      else
        match @checkSchemaUpdate _ (view (Coord.world s)) _ su with
        | (_, Some err) => mainReturn (Some err) s
        | (su, None) =>
            let '(old, ok) := @State_Get (view (Coord.world s)) ctx_IsWrite pred in
            let rebuild := IndexRebuild.mk pred startTs old su in
            let shouldRebuild := ok && NeedIndexRebuild rebuild in
            let started :=
              if shouldRebuild && negb (Coord.indexing s) then
                match startTaskAtTs_err startTs with
                | Some err => Err err
                | None => Ok (startTask s)
                end
              else Ok s in
            match started with
            | Err err => mainReturn (Some err) s
            | Ok s =>
                let querySchema := GetQuerySchema rebuild in
                let s := setWorld (World.SetMutSchema pred su
                                     (World.Set_ pred querySchema (Coord.world s))) s in
                match setup ok rebuild with
                | Some err =>
                    match undoSchemaUpdate pred (Coord.world s) with
                    | (w, Alive) => mainReturn (Some err) (setWorld w s)
                    | (w, fatal) => setExited fatal (setWorld w s)
                    end
                | None =>
                    if shouldRebuild then setPc (MLoop (S i)) (spawn su rebuild s)
                    else
                      match updateSchema su (IndexRebuild.StartTs rebuild) (Coord.world s) with
                      | (w, Some err) => mainReturn (Some err) (setWorld w s)
                      | (w, None) => setPc (MLoop (S i)) (setWorld w s)
                      end
                end
            end
        end
  end.

(** The next step of the body of runSchemaMutation, when it can take
    one. *)
Definition mainStep (s : Coord.t) : option Coord.t :=
  match Coord.pc s with
  | MWaitForTask =>
      match waitForTask s with
      | Some s => Some (setPc (MLoop 0) s)
      | None => None
      end
  | MLoop i =>
      match updates !! i with
      | Some su => Some (loopBody i su s)
      | None => Some (mainReturn None s)
      end
  | MReturned _ => None
  end.

Definition returned (s : Coord.t) : bool :=
  match Coord.pc s with MReturned _ => true | _ => false end.

Definition setGoroutine (k : nat) (g : Goroutine.t) (used : nat) (s : Coord.t) : Coord.t :=
  Coord.mk (Coord.world s) (Coord.pc s) (Coord.indexing s) (Coord.closer s)
           (Coord.deferred s) (Coord.done s) used
           (<[k := g]> (Coord.goroutines s)) (Coord.exited s).

(** The next step of the goroutine [k], when it can take one: past
    [wg.Wait()] once runSchemaMutation has returned, past [throttle.Do()]
    when a slot is free, and through the rebuild to [throttle.Done(nil)]
    and the deferred [stopIndexing(c)]. *)
Definition goStep (k : nat) (s : Coord.t) : option Coord.t :=
  match Coord.goroutines s !! k with
  | None => None
  | Some g =>
      match Goroutine.phase g with
      | GWaitGroup =>
          if returned s
          then Some (setGoroutine k (Goroutine.setPhase GThrottle g) (Coord.throttle s) s)
          else None
      | GThrottle =>
          if bool_decide (Coord.throttle s < maxPredicateAtATime)%nat
          then Some (setGoroutine k (Goroutine.setPhase GBuilding g) (S (Coord.throttle s)) s)
          else None
      | GBuilding =>
          match buildIndexes (Goroutine.update g) (Goroutine.rebuild g) (Coord.world s) with
          | (w, Alive) =>
              Some (stopIndexing (Goroutine.closer g)
                      (setGoroutine k (Goroutine.setPhase GFinished g)
                                    (pred (Coord.throttle s)) (setWorld w s)))
          | (w, fatal) => Some (setExited fatal (setWorld w s))
          end
      | GFinished => None
      end
  end.

(** What can happen next: the body of runSchemaMutation moves, a goroutine
    moves, or the indexing task of an earlier proposal, for which
    [waitForTask] is waiting, ends. *)
Inductive Label :=
  | MainStep
  | GoStep (k : nat)
  | EarlierTaskEnds.

Definition step (l : Label) (s : Coord.t) : option Coord.t :=
  match Coord.exited s with
  | Fatal _ _ => None
  | Alive =>
      match l with
      | MainStep => mainStep s
      | GoStep k => goStep k s
      | EarlierTaskEnds =>
          match Coord.pc s with
          | MWaitForTask =>
              if Coord.indexing s
              then Some (Coord.mk (Coord.world s) (Coord.pc s) false (Coord.closer s)
                                  (Coord.deferred s) (Coord.done s) (Coord.throttle s)
                                  (Coord.goroutines s) (Coord.exited s))
              else None
          | _ => None
          end
      end
  end.

Fixpoint run (schedule : list Label) (s : Coord.t) : option Coord.t :=
  match schedule with
  | [] => Some s
  | l :: rest =>
      match step l s with
      | Some s' => run rest s'
      | None => None
      end
  end.

(** The call of runSchemaMutation on a schema state [w], with the indexing
    slot taken or free: an empty batch returns at once. *)
Definition runSchemaMutation (w : World.t) (indexing : bool) : Coord.t :=
  Coord.mk w (if bool_decide (length updates = 0%nat) then MReturned None else MWaitForTask)
           indexing false 0 false 0 [] Alive.


End Coordinator.

(** ** Schema creation on first write *)

Section SchemaCreation.
Context `{!XPkg, !KVStore, !RebuildEnv, !NodeEnv}.

(** [pb.SchemaUpdate{ValueType: typ.Enum(), Predicate: attr}] with the list
    flag createSchema gives it: set for a uid, then settled by the hint. *)
Definition schemaFor (attr : string) (typ : TypeID) (hint : Metadata_HintType)
  : SchemaUpdate.t :=
  SchemaUpdate.mk attr (Enum typ) SchemaUpdate_NONE [] false
    (match hint with
     | Metadata_SINGLE => false
     | Metadata_LIST => true
     | Metadata_DEFAULT => bool_decide (typ = UidID)
     end)
    false false false "".

(** [s.ValueType = typ.Enum()] *)
Definition withValueType (vt : Posting_ValType) (s : SchemaUpdate.t) : SchemaUpdate.t :=
  SchemaUpdate.mk (SchemaUpdate.Predicate s) vt (SchemaUpdate.Directive s)
    (SchemaUpdate.Tokenizer s) (SchemaUpdate.Count s) (SchemaUpdate.List s)
    (SchemaUpdate.Upsert s) (SchemaUpdate.Lang s) (SchemaUpdate.Unique s)
    (SchemaUpdate.ObjectTypeName s).

(** createSchema: an existing schema keeps everything but its value type; a
    new one is checked and committed like any schema update. *)
Definition createSchema (attr : string) (typ : TypeID) (hint : Metadata_HintType)
    (ts : N) (w : World.t) : World.t * option error :=
  let '(s, ok) := @State_Get (view w) true attr in
  let s := if ok then withValueType (Enum typ) s else schemaFor attr typ hint in
  match @checkSchemaUpdate _ (view w) _ s with
  | (_, Some err) => (w, Some err)
  | (s, None) => updateSchema s ts w
  end.
End SchemaCreation.

(** ** Type updates *)

(** The types of the process: those of the in-memory schema state and the
    type records committed to the store. *)
Module TypeWorld.
Record t := mk {
  types : gmap string TypeUpdate.t;
  durable : gmap string TypeUpdate.t
}.
(** [schema.State().SetType(typeName, t)] *)
Definition SetType (typeName : string) (u : TypeUpdate.t) (w : t) : t :=
  mk (<[typeName := u]> (types w)) (durable w).
(** A committed write of the record of the type. *)
Definition commit (typeName : string) (u : TypeUpdate.t) (w : t) : t :=
  mk (types w) (<[typeName := u]> (durable w)).
End TypeWorld.

(** What the store answers to the writes of a type record. *)
Class TypeStoreEnv := {
  TypeTxn_SetEntry : string → N → option error;
  TypeTxn_CommitAt : string → N → option error
}.

Section TypeMutation.
Context `{!TypeStoreEnv}.

Definition updateType (typeName : string) (t : TypeUpdate.t) (ts : N)
    (w : TypeWorld.t) : TypeWorld.t * option error :=
  let w := TypeWorld.SetType typeName t w in
  match TypeTxn_SetEntry typeName ts with
  | Some err => (w, Some err)
  | None =>
      match TypeTxn_CommitAt typeName ts with
      | Some err => (w, Some err)
      | None => (TypeWorld.commit typeName t w, None)
      end
  end.

(** runTypeMutation: the clone it stores first is equal to the update. *)
Definition runTypeMutation (update : TypeUpdate.t) (ts : N) (w : TypeWorld.t)
  : TypeWorld.t * option error :=
  let current := update in
  updateType (TypeUpdate.TypeName update) update ts
             (TypeWorld.SetType (TypeUpdate.TypeName update) current w).
End TypeMutation.

(** ** Commit through Zero *)

(** The counters CommitOverNetwork records into. *)
Module Stats.
Record t := mk { TxnDiscards : nat; TxnAborts : nat; TxnCommits : nat }.
End Stats.

(** [x.Unique] and the commit call of the Zero client over a pool. *)
Class ZeroEnv := {
  x_Unique : list string → list string;
  Zero_CommitOrAbort : N → TxnContext.t → result TxnContext.t
}.

(** [dgo.ErrAborted], an error value of the client library. *)
Definition ErrAborted : error := ErrExternal "Transaction has been aborted. Please retry".

Section Commit.
Context `{!Cluster, !ZeroEnv}.

(** CommitOverNetwork: the context as the call leaves it (its keys and
    predicates are de-duplicated in place), the counters, the commit
    timestamp and the error. *)
Definition CommitOverNetwork (tc : TxnContext.t) (st : Stats.t)
  : TxnContext.t * Stats.t * N * option error :=
  let clientDiscard := TxnContext.Aborted tc in
  let st := if TxnContext.Aborted tc
            then Stats.mk (S (Stats.TxnDiscards st)) (Stats.TxnAborts st) (Stats.TxnCommits st)
            else st in
  match Leader 0%N with
  | None => (tc, st, 0%N, Some ErrNoConnection)
  | Some pl =>
      let tc := TxnContext.mk (TxnContext.StartTs tc) (TxnContext.CommitTs tc)
                  (TxnContext.Aborted tc) (x_Unique (TxnContext.Keys tc))
                  (x_Unique (TxnContext.Preds tc)) in
      match Zero_CommitOrAbort pl tc with
      | Err err => (tc, st, 0%N, Some err)
      | Ok tctx =>
          if TxnContext.Aborted tctx || (TxnContext.CommitTs tctx =? 0)%N then
            (tc,
             if negb clientDiscard
             then Stats.mk (Stats.TxnDiscards st) (S (Stats.TxnAborts st)) (Stats.TxnCommits st)
             else st,
             0%N, Some ErrAborted)
          else
            (tc, Stats.mk (Stats.TxnDiscards st) (Stats.TxnAborts st) (S (Stats.TxnCommits st)),
             TxnContext.CommitTs tctx, None)
      end
  end.
End Commit.

(** ** The mutation service of a group *)

Section MutationService.
Context `{!XPkg, !SchemaReader, !Cluster}.

(** grpcWorker.Mutate: the transaction context it returns and the error;
    [ctxErr] is [ctx.Err()] at the entry. *)
Definition Mutate (ctxErr : option error) (m : Mutations.t)
  : TxnContext.t * option error :=
  let txnCtx := TxnContext.zero in
  match ctxErr with
  | Some err => (txnCtx, Some err)
  | None =>
      if negb (ServesGroup (Mutations.GroupId m)) then
        (txnCtx, Some (ErrGroupNotServed (Mutations.GroupId m)))
      else proposeAndWait txnCtx m
  end.
End MutationService.

(** ** Vocabulary of the statements about the router and the coordinator *)

(** The keys and the predicates a reply brings: those of its context, none
    when it has no context. *)
Definition replyKeys (r : res.t) : list string :=
  match res.ctx r with Some c => TxnContext.Keys c | None => [] end.
Definition replyPreds (r : res.t) : list string :=
  match res.ctx r with Some c => TxnContext.Preds c | None => [] end.

(** The fields populateMutationMap leaves at their zero value until the
    loops over the known groups. *)
Definition Fresh (md : option (gmap string Metadata_HintType))
    (mm : gmap N Mutations.t) : Prop :=
  ∀ gid mu, mm !! gid = Some mu →
    Mutations.StartTs mu = 0%N ∧ Mutations.DropOp mu = 0
    ∧ Mutations.DropValue mu = "" ∧ Mutations.Types mu = []
    ∧ Mutations.Metadata mu = match Mutations.Edges mu with [] => None | _ => md end.

(** The schema states [w] and [w'] agree on every predicate outside [P]:
    in memory, under mutation and in the store. *)
Definition agreeOutside (P : string → Prop) (w w' : World.t) : Prop :=
  ∀ p, ¬ P p →
    World.predicate w' !! p = World.predicate w !! p
    ∧ World.mutSchema w' !! p = World.mutSchema w !! p
    ∧ World.durable w' !! p = World.durable w !! p.

(** A field of a type update that typeSanityCheck lets through. *)
Definition saneField `{!XPkg} (field : SchemaUpdate.t) : Prop :=
  ParseAttr (SchemaUpdate.Predicate field) ≠ ""
  ∧ (SchemaUpdate.ValueType field = Posting_OBJECT → SchemaUpdate.ObjectTypeName field ≠ "")
  ∧ SchemaUpdate.Directive field = SchemaUpdate_NONE
  ∧ SchemaUpdate.Tokenizer field = [].

(** ** A small cluster to run the definitions on

    One namespace, predicate names that are their own attribute, a store
    whose transaction is the list of the mutations applied, and a conversion
    that reads a one-digit decimal into an integer and marshals an integer
    into eight little-endian bytes. *)
Module Example.
Definition star : list byte := String.list_byte_of_string "_STAR_ALL".

Definition xPkg (aclEnabled : bool) : XPkg := {|
  Star := star;
  ParseAttr := λ attr, attr;
  ParseNamespaceAttr := λ attr, (0%N, attr);
  NamespaceAttr := λ _ attr, attr;
  IsInternalPredicate := λ _, false;
  DataKey := λ attr uid, String.list_byte_of_string attr ++ [x00] ++ match Byte.of_N uid with Some b => [b] | None => [xff] end;
  DataPrefix := λ attr, String.list_byte_of_string attr ++ [x00];
  SchemaKey := λ attr, x01 :: String.list_byte_of_string attr;
  WorkerConfig_AclEnabled := aclEnabled;
  WorkerConfig_StrictMutations := false
|}.

Definition typesPkg : TypesPkg := {|
  Convert := λ src to,
    match to, Val.Value src with
    | Posting_INT, VBytes [b] =>
        Ok (Val.mk Posting_INT (VInt64 (Z.of_N (Byte.to_N b) - 48)))
    | Posting_INT, _ => Err (ErrExternal "strconv.ParseInt: invalid syntax")
    | _, v => Ok (Val.mk to v)
    end;
  ValueForType := λ tid, Val.mk tid (VBytes []);
  Marshal := λ from to,
    match Val.Value from with
    | VInt64 n =>
        match Byte.of_N (Z.to_N n) with
        | Some b => Ok (Val.mk (Val.Tid to) (VBytes [b; x00; x00; x00; x00; x00; x00; x00]))
        | None => Err (ErrExternal "value out of range")
        end
    | VBytes bs => Ok (Val.mk (Val.Tid to) (VBytes bs))
    | _ => Err (ErrExternal "cannot marshal")
    end
|}.

Definition postingTypeOf : PostingTypeOf :=
  λ edge, if bool_decide (DirectedEdge.ValueId edge ≠ 0%N) then UidID
          else DirectedEdge.ValueType edge.

Definition schemaReader (schemas : gmap string SchemaUpdate.t) : SchemaReader := {|
  State_Get := λ _ pred,
    match schemas !! pred with
    | Some s => (s, true)
    | None => (SchemaUpdate.zero, false)
    end;
  State_TypeOf := λ pred,
    match schemas !! pred with
    | Some s => Ok (SchemaUpdate.ValueType s)
    | None => Err (ErrExternal "Schema not defined for predicate")
    end;
  State_IsList := λ pred,
    match schemas !! pred with
    | Some s => SchemaUpdate.List s
    | None => false
    end;
  HasTokenizerOrVectorIndexSpec := λ s,
    bool_decide (0 < length (SchemaUpdate.Tokenizer s))%nat
|}.

(** A transaction is the list of the edges applied, each with the key of
    its posting list. *)
Definition postingStore : PostingStore (list (list byte * DirectedEdge.t)) (list byte) := {|
  Txn_GetScalarList := λ key txn, (txn, Ok key);
  Txn_Get := λ key txn, (txn, Ok key);
  Txn_GetFromDelta := λ key txn, (txn, Ok key);
  AddMutationWithIndex := λ plist edge txn, (txn ++ [(plist, edge)], None)
|}.

Definition kvStore (items : list Item.t) : KVStore := {|
  iterate := λ _ prefix,
    filter (λ it, prefix `prefix_of` Item.Key it) items;
  BitEmptyPosting := 16%N
|}.

Definition xAclOff : XPkg := xPkg false.
Definition xAclOn : XPkg := xPkg true.

(** Edges. *)
Definition nameEdge (lang : string) (value : list byte) (vt : Posting_ValType)
    (op : DirectedEdge_Op) : DirectedEdge.t :=
  DirectedEdge.mk 1%N "name" value vt 0%N lang op.

Definition permissionEdge (digit : byte) : DirectedEdge.t :=
  DirectedEdge.mk 1%N "dgraph.rule.permission" [digit] Posting_DEFAULT 0%N ""
                  DirectedEdge_SET.

(** A delete of a value of "name". *)
Definition deleteName : DirectedEdge.t :=
  nameEdge "" [x61] Posting_STRING DirectedEdge_DEL.

(** A set of a value of "name" tagged "en". *)
Definition taggedName : DirectedEdge.t :=
  nameEdge "en" [x61] Posting_STRING DirectedEdge_SET.

(** The delete of every value of "name" tagged "en", on entity 1. *)
Definition deleteTaggedStar : DirectedEdge.t :=
  nameEdge "en" star Posting_DEFAULT DirectedEdge_DEL.

(** Schemas. *)
Definition scalarName : SchemaUpdate.t :=
  SchemaUpdate.mk "name" Posting_STRING SchemaUpdate_NONE [] false false false false false "".

Definition permissionSchema : SchemaUpdate.t :=
  SchemaUpdate.mk "dgraph.rule.permission" Posting_INT SchemaUpdate_NONE []
                  false false false false false "".

(** A list of uids, a list of passwords, and the updates that make the
    first a string and the second a single password. *)
Definition friendList : SchemaUpdate.t :=
  SchemaUpdate.mk "friend" Posting_UID SchemaUpdate_NONE [] false true false false false "".
Definition friendAsString : SchemaUpdate.t :=
  SchemaUpdate.mk "friend" Posting_STRING SchemaUpdate_NONE [] false true false false false "".
Definition secretList : SchemaUpdate.t :=
  SchemaUpdate.mk "secret" Posting_PASSWORD SchemaUpdate_NONE [] false true false false false "".
Definition secretSingle : SchemaUpdate.t :=
  SchemaUpdate.mk "secret" Posting_PASSWORD SchemaUpdate_NONE [] false false false false false "".

Definition shapes : SchemaReader :=
  schemaReader {["friend" := friendList; "secret" := secretList]}.

(** A store with one delta posting (user meta 4) for each of "friend" and
    "secret", and an empty posting (user meta 16) for "name". *)
Definition someData : KVStore :=
  kvStore [ Item.mk (DataKey (XPkg := xAclOff) "friend" 1%N) 4%N;
            Item.mk (DataKey (XPkg := xAclOff) "secret" 1%N) 4%N;
            Item.mk (DataKey (XPkg := xAclOff) "name" 1%N) 16%N ].

(** Two groups: group 1, served by this node, owns "name"; group 2 owns
    "friend" and its leader cannot be reached; no group serves "orphan";
    the lookup of any other predicate fails. *)
Definition cluster : Cluster := {|
  BelongsTo := λ pred,
    if bool_decide (pred = "name") then Ok 1%N
    else if bool_decide (pred = "friend") then Ok 2%N
    else if bool_decide (pred = "orphan") then Ok 0%N
    else Err (ErrExternal "rpc error: deadline exceeded");
  KnownGroups := [1%N; 2%N];
  ServesGroup := λ gid, bool_decide (gid = 1%N);
  groupId := 1%N;
  Leader := λ gid, if bool_decide (gid = 2%N) then Some 2%N else None;
  Oracle_WaitForTs := λ _, None;
  Oracle_FillContext := λ startTs,
    Some (λ tctx gid isErrored,
            TxnContext.mk startTs 0%N false
                          (TxnContext.Keys tctx ++ ["name/1"])
                          (TxnContext.Preds tctx ++ ["1-name"]));
  Node_proposeAndWait := λ _, None;
  Remote_Mutate := λ _ _, (None, Some (ErrExternal "rpc error: connection refused"));
  ctx_Done := λ _, None;
  GetSchemaOverNetwork := λ _, Ok []
|}.

Definition friendEdge : DirectedEdge.t :=
  DirectedEdge.mk 1%N "friend" [] Posting_UID 2%N "" DirectedEdge_SET.
Definition orphanEdge : DirectedEdge.t :=
  DirectedEdge.mk 1%N "orphan" [x61] Posting_STRING 0%N "" DirectedEdge_SET.

Definition batch (edges : list DirectedEdge.t) (schemas : list SchemaUpdate.t)
    (types : list TypeUpdate.t) (dropOp : Z) : Mutations.t :=
  Mutations.mk 0%N 5%N edges schemas types dropOp "" None.

(** A batch for both groups, with a drop operation and a type update. *)
Definition twoGroupBatch : Mutations.t :=
  batch [deleteName; friendEdge] [scalarName] [TypeUpdate.mk "Person" [scalarName]] 1.

Definition twoGroupMap : gmap N Mutations.t :=
  {[ 1%N := Mutations.mk 1%N 0%N [deleteName] [scalarName]
                         [TypeUpdate.mk "Person" [scalarName]] 1 "" None;
     2%N := Mutations.mk 2%N 0%N [friendEdge] []
                         [TypeUpdate.mk "Person" [scalarName]] 1 "" None ]}.

(** A batch of two edges, one for each group. *)
Definition twoEdgeBatch : Mutations.t := batch [deleteName; friendEdge] [] [] 0.

Definition twoEdgeMap : gmap N Mutations.t :=
  {[ 1%N := Mutations.mk 1%N 0%N [deleteName] [] [] 0 "" None;
     2%N := Mutations.mk 2%N 0%N [friendEdge] [] [] 0 "" None ]}.

(** An edge on a predicate no group serves, alone and next to a type
    update without a name. *)
Definition orphanBatch : Mutations.t := batch [orphanEdge] [] [] 0.

(** The reply of group 2. *)
Definition unreachable : res.t :=
  res.mk (Some (ErrExternal "rpc error: connection refused")) None.

(** Three string predicates without index, the updates that index them,
    and a schema state and store that hold the three. *)
Definition plain (pred : string) : SchemaUpdate.t :=
  SchemaUpdate.mk pred Posting_STRING SchemaUpdate_NONE [] false false false false false "".
Definition indexed (pred : string) : SchemaUpdate.t :=
  SchemaUpdate.mk pred Posting_STRING SchemaUpdate_INDEX ["term"]
                  false false false false false "".

Definition threePredicates : gmap string SchemaUpdate.t :=
  {["name" := plain "name"; "title" := plain "title"; "body" := plain "body"]}.

Definition world0 : World.t := World.mk threePredicates ∅ threePredicates 0 0%N.

(** The rebuild of "name" succeeds, those of "title" and "body" fail; the
    schema of "title" loads at the third attempt, that of "body" never. *)
Definition rebuildEnv : RebuildEnv := {|
  NeedIndexRebuild := λ r,
    bool_decide (SchemaUpdate.Tokenizer (IndexRebuild.OldSchema r)
                 ≠ SchemaUpdate.Tokenizer (IndexRebuild.CurrentSchema r));
  GetQuerySchema := IndexRebuild.OldSchema;
  DropIndexes := λ _, None;
  BuildData := λ _, None;
  BuildIndexes := λ r,
    if bool_decide (IndexRebuild.Attr r = "name") then None
    else Some (ErrExternal "Txn is too big to fit into one request");
  Txn_SetEntry := λ _ _, None;
  Txn_CommitAt := λ _ _, None;
  Load_result := λ pred n,
    if bool_decide (pred = "title") && (2 <=? n)%nat then None
    else Some (ErrExternal "i/o timeout")
|}.

Definition nodeEnv : NodeEnv := {|
  Tablet_GroupId := λ _, Ok 1%N;
  node_groupId := 1%N;
  startTaskAtTs_err := λ _, None;
  ctx_IsWrite := false;
  view := λ w, schemaReader (World.predicate w);
  IndexingInProgress := λ w, negb (size (World.mutSchema w) =? 0)%nat
|}.

Definition rebuildOf (pred : string) : IndexRebuild.t :=
  IndexRebuild.mk pred 5%N (plain pred) (indexed pred).

(** A batch that indexes "name" and "title", and an interleaving of its
    call: wait, the two iterations, return; then the two goroutines pass
    [wg.Wait()] and [throttle.Do()] one after the other. *)
Definition indexTwo : list SchemaUpdate.t := [indexed "name"; indexed "title"].

Definition bothStarted : list Label :=
  [MainStep; MainStep; MainStep; MainStep; GoStep 0; GoStep 1; GoStep 0; GoStep 1].

(** Schema states: none, and the scalar predicate "name". *)
Definition noSchema : SchemaReader := schemaReader ∅.
Definition nameSchema : SchemaReader := schemaReader {["name" := scalarName]}.

(** The package x of a node that runs with strict mutations. *)
Definition xStrict : XPkg := {|
  Star := star;
  ParseAttr := λ attr, attr;
  ParseNamespaceAttr := λ attr, (0%N, attr);
  NamespaceAttr := λ _ attr, attr;
  IsInternalPredicate := λ _, false;
  DataKey := @DataKey xAclOff;
  DataPrefix := @DataPrefix xAclOff;
  SchemaKey := @SchemaKey xAclOff;
  WorkerConfig_AclEnabled := false;
  WorkerConfig_StrictMutations := true
|}.

(** A uid edge on "name", a tagged delete on entity 0, and a delete of the
    whole predicate "name". *)
Definition nameToUid : DirectedEdge.t :=
  DirectedEdge.mk 1%N "name" [] Posting_UID 2%N "" DirectedEdge_SET.
Definition dropName : DirectedEdge.t :=
  DirectedEdge.mk 0%N "name" star Posting_DEFAULT 0%N "" DirectedEdge_DEL.

(** Schema updates: "email", unique with a hash index and upsert; "name"
    as a password; and a type whose field is "name", one whose field is the
    reverse of "friend". *)
Definition uniqueEmail : SchemaUpdate.t :=
  SchemaUpdate.mk "email" Posting_STRING SchemaUpdate_INDEX ["hash"]
                  false false true false true "".
Definition nameAsPassword : SchemaUpdate.t :=
  SchemaUpdate.mk "name" Posting_PASSWORD SchemaUpdate_NONE [] false false false false false "".
Definition person : TypeUpdate.t := TypeUpdate.mk "Person" [scalarName].
Definition personBatch : Mutations.t := batch [] [scalarName] [person] 0.
Definition follower : TypeUpdate.t := TypeUpdate.mk "Follower" [plain "~friend"].
Definition followerBatch : Mutations.t := batch [] [scalarName] [follower] 0.

(** A cluster like [cluster], where the schema of "friend" is known to the
    other group. *)
Definition clusterWithFriend : Cluster := {|
  BelongsTo := @BelongsTo cluster;
  KnownGroups := @KnownGroups cluster;
  ServesGroup := @ServesGroup cluster;
  groupId := @groupId cluster;
  Leader := @Leader cluster;
  Oracle_WaitForTs := @Oracle_WaitForTs cluster;
  Oracle_FillContext := @Oracle_FillContext cluster;
  Node_proposeAndWait := @Node_proposeAndWait cluster;
  Remote_Mutate := @Remote_Mutate cluster;
  ctx_Done := @ctx_Done cluster;
  GetSchemaOverNetwork := λ fields, Ok (filter (λ f, f = "friend") fields)
|}.

(** The store refuses the record of the type "Broken". *)
Definition typeStoreEnv : TypeStoreEnv := {|
  TypeTxn_SetEntry := λ _ _, None;
  TypeTxn_CommitAt := λ typeName _,
    if bool_decide (typeName = "Broken") then Some (ErrExternal "Txn is too big")
    else None
|}.
End Example.

(** * Properties *)

(** ** Edge applier: the read strategy *)

Lemma string_length_zero (s : string) : String.length s = 0%nat ↔ s = "".
Proof. destruct s; simpl; split; intros; congruence. Qed.

Lemma string_length_pos (s : string) : (0 < String.length s)%nat ↔ s ≠ "".
Proof. destruct s; simpl; split; intros; try congruence; lia. Qed.

(** C4, first-match reading of the switch: which retrieval runMutation
    picks, case by case. The scalar-only retrieval is picked exactly for a
    non-list predicate and an edge without language tag, whatever the
    operation and the count index; the full posting list exactly when that
    case does not apply and the edge has a language tag, the predicate a
    count index, or the operation is a delete; the in-memory delta facade
    exactly for a list predicate, no language tag, no count index and no
    delete. *)
Theorem chooseGetFn_cases (edge : DirectedEdge.t) (su : SchemaUpdate.t) :
  (chooseGetFn edge su = UseGetScalarList ↔
     DirectedEdge.Lang edge = "" ∧ SchemaUpdate.List su = false) ∧
  (chooseGetFn edge su = UseGet ↔
     ¬ (DirectedEdge.Lang edge = "" ∧ SchemaUpdate.List su = false) ∧
     (DirectedEdge.Lang edge ≠ "" ∨ SchemaUpdate.Count su = true
      ∨ DirectedEdge.Op edge = DirectedEdge_DEL)) ∧
  (chooseGetFn edge su = UseGetFromDelta ↔
     SchemaUpdate.List su = true ∧ DirectedEdge.Lang edge = ""
     ∧ SchemaUpdate.Count su = false ∧ DirectedEdge.Op edge ≠ DirectedEdge_DEL).
Proof.
  unfold chooseGetFn.
  destruct (SchemaUpdate.List su), (SchemaUpdate.Count su);
    repeat case_bool_decide; simpl;
    rewrite ?string_length_zero, ?string_length_pos in *;
    intuition congruence.
Qed.

(** C4, as worded, does not hold: a delete on a non-list predicate,
    without language tag, is served by the scalar-only retrieval, not by the
    full posting list; and so is a set on a non-list predicate with a count
    index. *)
Lemma chooseGetFn_delete_on_scalar :
  DirectedEdge.Op (Example.nameEdge "" [x61] Posting_STRING DirectedEdge_DEL) = DirectedEdge_DEL
  ∧ chooseGetFn (Example.nameEdge "" [x61] Posting_STRING DirectedEdge_DEL)
                Example.scalarName = UseGetScalarList
  ∧ UseGetScalarList ≠ UseGet.
Proof. repeat split; done. Qed.

(** ** Edge applier: the schema lookup *)

Section EdgeApplierFacts.
Context `{!XPkg, !TypesPkg, !PostingTypeOf, !SchemaReader}.
Context {Txn PList : Type} `{!PostingStore Txn PList}.


(** ** Edge validation: language tags *)

Lemma typeChecks_lang (edge : DirectedEdge.t) (su : SchemaUpdate.t) :
  DirectedEdge.Lang edge ≠ "" → SchemaUpdate.Lang su = false →
  typeChecks edge su
  = TcReturn (Some (ErrLangDirective (ParseAttr (DirectedEdge.Attr edge)) edge)).
Proof.
  intros Hlang Hsu. unfold typeChecks.
  by rewrite bool_decide_true, Hsu.
Qed.

(** C8, with the two wildcard exits of ValidateAndConvert set aside: an
    edge with a language tag that is not a star-all value on entity 0 or of
    default type fails validation against a schema without language
    support, with the error that names the predicate; and runMutation then
    returns an error with the transaction and the edge as they were. *)
Theorem language_tag_needs_lang_schema (edge : DirectedEdge.t) (su : SchemaUpdate.t) :
  DirectedEdge.Lang edge ≠ "" →
  SchemaUpdate.Lang su = false →
  ¬ (DirectedEdge.Value edge = Star
     ∧ (DirectedEdge.Entity edge = 0%N ∨ DirectedEdge.ValueType edge = DefaultID)) →
  ValidateAndConvert edge su
    = (edge, Some (ErrLangDirective (ParseAttr (DirectedEdge.Attr edge)) edge))
  ∧ ∀ (txn : Txn) (ok : bool),
      State_Get true (DirectedEdge.Attr edge) = (su, ok) →
      ∃ err, runMutation edge txn = (txn, edge, Some err).
Proof.
  intros Hlang Hsu Hstar.
  assert (Hdel : isDeletePredicateEdge edge = false).
  { unfold isDeletePredicateEdge, isStarAll.
    apply andb_false_iff. destruct (N.eqb_spec (DirectedEdge.Entity edge) 0).
    - right. apply bool_decide_eq_false. tauto.
    - by left. }
  assert (Hval : ValidateAndConvert edge su
            = (edge, Some (ErrLangDirective (ParseAttr (DirectedEdge.Attr edge)) edge))).
  { unfold ValidateAndConvert. rewrite Hdel.
    assert (bool_decide (DirectedEdge.ValueType edge = DefaultID)
            && isStarAll (DirectedEdge.Value edge) = false) as ->.
    { unfold isStarAll. apply andb_false_iff.
      destruct (decide (DirectedEdge.ValueType edge = DefaultID)).
      - right. apply bool_decide_eq_false. tauto.
      - left. by apply bool_decide_eq_false. }
    by rewrite typeChecks_lang. }
  split; [done|].
  intros txn ok Hget. unfold runMutation. rewrite Hget.
  destruct (bool_decide (DirectedEdge.Op edge ≠ DirectedEdge_DEL) && negb ok); [eauto|].
  unfold applyEdge. rewrite Hdel, Hval. eauto.
Qed.

(** ** Edge validation: the permission predicate *)

(** C9, for a node with access control enabled: when the edge is on the
    permission predicate, reaches the conversion and converts to the
    integer [perm], a value outside [0,7] is rejected with the range error
    (which is neither the not-an-integer error nor the conversion
    failure), and a value inside is accepted, the edge rewritten to the
    marshalled bytes. *)
Theorem permission_range (edge : DirectedEdge.t) (su : SchemaUpdate.t)
    (schemaType : TypeID) (dst b : Val.t) (perm : Z) :
  WorkerConfig_AclEnabled = true →
  ParseAttr (DirectedEdge.Attr edge) = "dgraph.rule.permission" →
  isDeletePredicateEdge edge = false →
  bool_decide (DirectedEdge.ValueType edge = DefaultID)
    && isStarAll (DirectedEdge.Value edge) = false →
  typeChecks edge su = TcConvert schemaType →
  Convert (Val.mk (DirectedEdge.ValueType edge) (VBytes (DirectedEdge.Value edge)))
          schemaType = Ok dst →
  Marshal dst (ValueForType BinaryID) = Ok b →
  Val.Value dst = VInt64 perm →
  (perm < 0 ∨ perm > 7 →
     ValidateAndConvert edge su = (edge, Some (ErrPermissionRange perm))
     ∧ ErrPermissionRange perm ≠ ErrPermissionNotInt
     ∧ ∀ t1 t2, ErrPermissionRange perm ≠ ErrConvertEdgeType t1 t2)
  ∧ (0 ≤ perm ≤ 7 →
     ∀ bs, Val.Value b = VBytes bs →
       ValidateAndConvert edge su
         = (DirectedEdge.setValue bs (DirectedEdge.setValueType (Enum schemaType) edge),
            None)).
Proof.
  intros Hacl Hattr Hdel Hstar Htc Hconv Hmar Hval.
  unfold ValidateAndConvert. rewrite Hdel, Hstar, Htc.
  unfold convertEdge. rewrite Hconv, Hmar.
  unfold checkPermission. rewrite Hacl, Hattr, Hval. simpl.
  split.
  - intros Hout. repeat split; [|done|done].
    assert (bool_decide (perm < 0) || bool_decide (perm > 7) = true) as ->; [|done].
    apply orb_true_iff. destruct Hout; [left|right]; by apply bool_decide_eq_true.
  - intros Hin bs Hbs.
    assert (bool_decide (perm < 0) || bool_decide (perm > 7) = false) as ->.
    { apply orb_false_iff. split; apply bool_decide_eq_false; lia. }
    by rewrite Hbs.
Qed.
End EdgeApplierFacts.

Section EdgeExamples.
#[local] Existing Instances Example.typesPkg Example.postingTypeOf Example.postingStore.


(** The delete above is applied although "name" has no schema, and the
    same edge as a set is refused. *)
Example delete_without_schema_is_applied :
  @runMutation Example.xAclOff _ _ Example.noSchema _ _ _ Example.deleteName []
  = ([(@DataKey Example.xAclOff "name" 1%N, Example.deleteName)], Example.deleteName, None).
Proof. reflexivity. Qed.

Example set_without_schema_is_refused :
  @runMutation Example.xAclOff _ _ Example.noSchema _ _ _
     (Example.nameEdge "" [x61] Posting_STRING DirectedEdge_SET) []
  = ([], Example.nameEdge "" [x61] Posting_STRING DirectedEdge_SET,
     Some (ErrNoSchemaFor "name")).
Proof. reflexivity. Qed.

Lemma language_tag_needs_lang_schema_witness :
  DirectedEdge.Lang Example.taggedName ≠ ""
  ∧ SchemaUpdate.Lang Example.scalarName = false
  ∧ @ValidateAndConvert Example.xAclOff _ _ Example.taggedName Example.scalarName
    = (Example.taggedName, Some (ErrLangDirective "name" Example.taggedName))
  ∧ ∃ err, @runMutation Example.xAclOff _ _ Example.nameSchema _ _ _ Example.taggedName []
           = ([], Example.taggedName, Some err).
Proof.
  assert (H1 : DirectedEdge.Lang Example.taggedName ≠ "") by discriminate.
  assert (H2 : ¬ (DirectedEdge.Value Example.taggedName = @Star Example.xAclOff
                  ∧ (DirectedEdge.Entity Example.taggedName = 0%N
                     ∨ DirectedEdge.ValueType Example.taggedName = DefaultID))).
  { intros [? _]. discriminate. }
  pose proof (@language_tag_needs_lang_schema Example.xAclOff _ _ Example.nameSchema
                _ _ _ Example.taggedName Example.scalarName H1 eq_refl H2) as [Hv Hr].
  split; [exact H1|]. split; [reflexivity|]. split; [exact Hv|].
  exact (Hr [] true eq_refl).
Defined.

(** C8, as worded, does not hold: the delete of every value of "name"
    tagged "en" on entity 1 carries a language tag, the schema of "name"
    declares no language support, and yet validation accepts the edge and
    runMutation applies it. *)
Lemma language_tag_star_is_accepted :
  DirectedEdge.Lang Example.deleteTaggedStar ≠ ""
  ∧ SchemaUpdate.Lang Example.scalarName = false
  ∧ @ValidateAndConvert Example.xAclOff _ _ Example.deleteTaggedStar Example.scalarName
    = (Example.deleteTaggedStar, None)
  ∧ @runMutation Example.xAclOff _ _ Example.nameSchema _ _ _ Example.deleteTaggedStar []
    = ([(@DataKey Example.xAclOff "name" 1%N, Example.deleteTaggedStar)], Example.deleteTaggedStar, None).
Proof. split; [discriminate|]. repeat split; reflexivity. Qed.

(** The permission edge whose value is the decimal digit 9, on a node with
    access control enabled. *)
Lemma permission_range_witness :
  @WorkerConfig_AclEnabled Example.xAclOn = true
  ∧ @ParseAttr Example.xAclOn (DirectedEdge.Attr (Example.permissionEdge x39))
    = "dgraph.rule.permission"
  ∧ Convert (Val.mk Posting_DEFAULT (VBytes [x39])) Posting_INT
    = Ok (Val.mk Posting_INT (VInt64 9))
  ∧ @ValidateAndConvert Example.xAclOn _ _ (Example.permissionEdge x39)
     Example.permissionSchema
  = (Example.permissionEdge x39, Some (ErrPermissionRange 9)).
Proof.
  do 3 (split; [reflexivity|]).
  refine (proj1 (proj1 (@permission_range Example.xAclOn _ _
            (Example.permissionEdge x39) Example.permissionSchema Posting_INT
            (Val.mk Posting_INT (VInt64 9))
            (Val.mk BinaryID (VBytes [x09; x00; x00; x00; x00; x00; x00; x00])) 9
            eq_refl eq_refl eq_refl eq_refl eq_refl eq_refl eq_refl eq_refl) _)).
  right. reflexivity.
Defined.

(** With access control enabled, 7 is accepted and stored as an integer. *)
Example permission_7_is_accepted :
  @ValidateAndConvert Example.xAclOn _ _ (Example.permissionEdge x37)
     Example.permissionSchema
  = (DirectedEdge.mk 1%N "dgraph.rule.permission"
       [x07; x00; x00; x00; x00; x00; x00; x00] Posting_INT 0%N "" DirectedEdge_SET,
     None).
Proof. reflexivity. Qed.

(** C9, as worded, does not hold: on a node with access control
    disabled the permission edge that converts to 9 is accepted. *)
Lemma permission_9_accepted_without_acl :
  @ParseAttr Example.xAclOff (DirectedEdge.Attr (Example.permissionEdge x39))
    = "dgraph.rule.permission"
  ∧ Convert (Val.mk Posting_DEFAULT (VBytes [x39])) Posting_INT
    = Ok (Val.mk Posting_INT (VInt64 9))
  ∧ @ValidateAndConvert Example.xAclOff _ _ (Example.permissionEdge x39)
       Example.permissionSchema
    = (DirectedEdge.mk 1%N "dgraph.rule.permission"
         [x09; x00; x00; x00; x00; x00; x00; x00] Posting_INT 0%N "" DirectedEdge_SET,
       None).
Proof. repeat split; reflexivity. Qed.
End EdgeExamples.

(** ** Schema validation: changes of shape *)

Section SchemaValidationFacts.
Context `{!XPkg, !SchemaReader, !KVStore}.

(** hasEdges looks at the user meta of the items only: it answers true
    exactly when some item under the data prefix of the predicate, read at
    the timestamp, does not carry the empty-posting bit. *)
Lemma hasEdges_spec (attr : string) (startTs : N) :
  hasEdges attr startTs = true ↔
  ∃ it, it ∈ iterate startTs (DataPrefix attr)
        ∧ N.land (Item.UserMeta it) BitEmptyPosting = 0%N.
Proof.
  unfold hasEdges. rewrite existsb_exists. split.
  - intros (it & Hin & Hbit). exists it. split; [by apply list_elem_of_In|].
    by apply N.eqb_eq.
  - intros (it & Hin & Hbit). exists it. split; [by apply list_elem_of_In|].
    by apply N.eqb_eq.
Qed.

Lemma validateSchemaForUnique_fields (prev cur : SchemaUpdate.t) :
  let cur' := fst (validateSchemaForUnique prev cur) in
  SchemaUpdate.Predicate cur' = SchemaUpdate.Predicate cur
  ∧ SchemaUpdate.ValueType cur' = SchemaUpdate.ValueType cur
  ∧ SchemaUpdate.List cur' = SchemaUpdate.List cur.
Proof.
  unfold validateSchemaForUnique.
  repeat (case_match; simpl; try done).
Qed.

Lemma checkConversion_rejects (t : TypeID) (s : SchemaUpdate.t) :
  hasEdges (SchemaUpdate.Predicate s) MaxUint64 = true →
  IsScalar t ≠ IsScalar (SchemaUpdate.ValueType s)
  ∨ (State_IsList (SchemaUpdate.Predicate s) = true
     ∧ SchemaUpdate.List s = false
     ∧ ¬ (t = Posting_PASSWORD ∧ SchemaUpdate.ValueType s = Posting_PASSWORD)) →
  is_Some (checkConversion t s).
Proof.
  intros Hdata Hshape. unfold checkConversion, Enum. rewrite Hdata.
  destruct (IsScalar t && _) eqn:Hpw.
  - (* a password on either side: any change of type is refused *)
    destruct (decide (t = SchemaUpdate.ValueType s)) as [Heq|Hne];
      [exfalso | rewrite (bool_decide_eq_true_2 _ Hne); eauto].
    apply andb_true_iff in Hpw as [_ Hpw]. apply orb_true_iff in Hpw.
    destruct Hshape as [Hflip | (_ & _ & Hnot)].
    + apply Hflip. by rewrite Heq.
    + apply Hnot. destruct Hpw as [Hpw|Hpw]; apply bool_decide_eq_true in Hpw;
        split; congruence.
  - destruct (decide (IsScalar t = IsScalar (SchemaUpdate.ValueType s))) as [Hsame|Hflip].
    + rewrite (bool_decide_eq_true_2 _ Hsame).
      destruct Hshape as [Hflip | (Hlist & Hnon & _)]; [done|].
      rewrite Hlist, Hnon. simpl. eauto.
    + rewrite (bool_decide_eq_false_2 _ Hflip). eauto.
Qed.

(** C3, with the one case the password rule takes away: for a predicate
    that has a schema (its type is known to the schema state) and data
    (hasEdges at the maximal timestamp), checkSchema refuses an update
    that flips the uid/scalar shape, whatever its other fields, and
    refuses a change from list to non-list unless the old and the new type
    are both password. *)
Theorem shape_change_with_data_rejected (s : SchemaUpdate.t) (t : TypeID) :
  State_TypeOf (SchemaUpdate.Predicate s) = Ok t →
  hasEdges (SchemaUpdate.Predicate s) MaxUint64 = true →
  IsScalar t ≠ IsScalar (SchemaUpdate.ValueType s)
  ∨ (State_IsList (SchemaUpdate.Predicate s) = true
     ∧ SchemaUpdate.List s = false
     ∧ ¬ (t = Posting_PASSWORD ∧ SchemaUpdate.ValueType s = Posting_PASSWORD)) →
  ∃ err, snd (checkSchema (Some s)) = Some err.
Proof.
  intros Htype Hdata Hshape.
  enough (is_Some (snd (checkSchemaUpdate s))) as [err Herr].
  { exists err. unfold checkSchema. by destruct (checkSchemaUpdate s). }
  unfold checkSchemaUpdate.
  repeat match goal with
         | |- is_Some (snd (if ?c then _ else _)) => destruct c; [simpl; eauto|]
         end.
  destruct (SchemaUpdate.Unique s).
  - pose proof (validateSchemaForUnique_fields
                  (fst (State_Get false (SchemaUpdate.Predicate s))) s) as (Hp & Hv & Hl).
    destruct (validateSchemaForUnique _ s) as [s1 [err|]]; simpl in *; [eauto|].
    rewrite Hp, Htype. simpl.
    apply checkConversion_rejects; rewrite ?Hp, ?Hv, ?Hl; done.
  - simpl. rewrite Htype. simpl. by apply checkConversion_rejects.
Qed.
End SchemaValidationFacts.

Section SchemaValidationExamples.
#[local] Existing Instances Example.xAclOff Example.shapes Example.someData.

Lemma shape_change_with_data_rejected_witness :
  State_TypeOf (SchemaUpdate.Predicate Example.friendAsString) = Ok Posting_UID
  ∧ hasEdges (SchemaUpdate.Predicate Example.friendAsString) MaxUint64 = true
  ∧ IsScalar Posting_UID ≠ IsScalar (SchemaUpdate.ValueType Example.friendAsString)
  ∧ ∃ err, snd (checkSchema (Some Example.friendAsString)) = Some err.
Proof.
  assert (Hflip : IsScalar Posting_UID
                  ≠ IsScalar (SchemaUpdate.ValueType Example.friendAsString))
    by discriminate.
  split; [reflexivity|]. split; [reflexivity|]. split; [exact Hflip|].
  exact (shape_change_with_data_rejected Example.friendAsString Posting_UID
           eq_refl eq_refl (or_introl Hflip)).
Defined.

Example friend_as_string_error :
  checkSchema (Some Example.friendAsString)
  = (Some Example.friendAsString, Some (ErrScalarUidWithData "friend")).
Proof. reflexivity. Qed.

(** C3, as worded, does not hold: "secret" is a list of passwords with
    data, the update makes it a single password, and checkSchema accepts
    it: the password case of the switch comes before the list check. *)
Lemma password_list_to_single_accepted :
  State_TypeOf (SchemaUpdate.Predicate Example.secretSingle) = Ok Posting_PASSWORD
  ∧ hasEdges (SchemaUpdate.Predicate Example.secretSingle) MaxUint64 = true
  ∧ State_IsList (SchemaUpdate.Predicate Example.secretSingle) = true
  ∧ SchemaUpdate.List Example.secretSingle = false
  ∧ checkSchema (Some Example.secretSingle) = (Some Example.secretSingle, None).
Proof. repeat split; reflexivity. Qed.

(** The scan goes by the empty-posting mark alone: "name" has an item, and
    it is marked empty. *)
Example hasEdges_marked_empty : hasEdges "name" MaxUint64 = false.
Proof. reflexivity. Qed.
End SchemaValidationExamples.

(** ** Mutation router: the partition by group *)

Section RouterFacts.
Context `{!XPkg, !SchemaReader, !Cluster}.


Lemma upsertGroup_lookup (f : Mutations.t → Mutations.t) (g gid : N)
    (mm : gmap N Mutations.t) :
  upsertGroup f g mm !! gid
  = if decide (g = gid) then Some (f (default (Mutations.new g) (mm !! g)))
    else mm !! gid.
Proof. unfold upsertGroup. apply lookup_insert. Qed.


Lemma Partitioned_empty : Partitioned [] [] ∅.
Proof. intros gid. by rewrite lookup_empty. Qed.

Lemma ownedBy_owner (g gid : N) (pred : string) :
  BelongsTo pred = Ok g → ownedBy gid pred = bool_decide (g = gid).
Proof. unfold ownedBy. by intros ->. Qed.

Lemma Partitioned_addEdge md edge g edges schemas mm :
  BelongsTo (DirectedEdge.Attr edge) = Ok g →
  Partitioned edges schemas mm →
  Partitioned (edges ++ [edge]) schemas (upsertGroup (Mutations.addEdge md edge) g mm).
Proof.
  intros Hg Hp gid. specialize (Hp gid).
  rewrite upsertGroup_lookup, filter_app, filter_cons, filter_nil.
  rewrite (ownedBy_owner g gid _ Hg).
  destruct (decide (g = gid)) as [->|Hne].
  - rewrite bool_decide_eq_true_2 by done. simpl.
    destruct (mm !! gid) as [mu|]; simpl.
    + by destruct Hp as (? & -> & ?).
    + by destruct Hp as (-> & ->).
  - rewrite bool_decide_eq_false_2 by done. simpl. by rewrite app_nil_r.
Qed.

Lemma Partitioned_addSchema schema g edges schemas mm :
  BelongsTo (SchemaUpdate.Predicate schema) = Ok g →
  Partitioned edges schemas mm →
  Partitioned edges (schemas ++ [schema]) (upsertGroup (Mutations.addSchema schema) g mm).
Proof.
  intros Hg Hp gid. specialize (Hp gid).
  rewrite upsertGroup_lookup, filter_app, filter_cons, filter_nil.
  rewrite (ownedBy_owner g gid _ Hg).
  destruct (decide (g = gid)) as [->|Hne].
  - rewrite bool_decide_eq_true_2 by done. simpl.
    destruct (mm !! gid) as [mu|]; simpl.
    + by destruct Hp as (? & ? & ->).
    + by destruct Hp as (-> & ->).
  - rewrite bool_decide_eq_false_2 by done. simpl. by rewrite app_nil_r.
Qed.

Lemma placeEdges_Partitioned md edges edges0 schemas mm mm' :
  placeEdges md edges mm = Ok mm' →
  Partitioned edges0 schemas mm →
  Partitioned (edges0 ++ edges) schemas mm'.
Proof.
  revert edges0 mm. induction edges as [|edge rest IH]; intros edges0 mm; simpl.
  - intros [= <-]. by rewrite app_nil_r.
  - destruct (BelongsTo (DirectedEdge.Attr edge)) as [g|] eqn:Hg; [|done].
    intros Hrest Hp. rewrite (assoc_L (++) edges0 [edge] rest : edges0 ++ edge :: rest = _).
    eapply IH; [done|]. by apply Partitioned_addEdge.
Qed.

Lemma placeSchema_Partitioned schemas edges schemas0 mm mm' :
  placeSchema schemas mm = Ok mm' →
  Partitioned edges schemas0 mm →
  Partitioned edges (schemas0 ++ schemas) mm'.
Proof.
  revert schemas0 mm. induction schemas as [|schema rest IH]; intros schemas0 mm; simpl.
  - intros [= <-]. by rewrite app_nil_r.
  - destruct (BelongsTo (SchemaUpdate.Predicate schema)) as [g|] eqn:Hg; [|done].
    intros Hrest Hp.
    rewrite (assoc_L (++) schemas0 [schema] rest : schemas0 ++ schema :: rest = _).
    eapply IH; [done|]. by apply Partitioned_addSchema.
Qed.

(** A loop over the known groups with an idempotent update: every known
    group has an entry afterwards, updated; the other entries are as
    before. *)
Lemma upsertGroups_lookup (f : Mutations.t → Mutations.t) (groups : list N)
    (mm : gmap N Mutations.t) (gid : N) :
  (∀ mu, f (f mu) = f mu) →
  foldl (λ mm g, upsertGroup f g mm) mm groups !! gid
  = if decide (gid ∈ groups)
    then Some (f (default (Mutations.new gid) (mm !! gid)))
    else mm !! gid.
Proof.
  intros Hidem. revert mm.
  induction groups as [|g rest IH]; intros mm.
  - destruct (decide (gid ∈ [])) as [Hin|]; [|done]. by apply not_elem_of_nil in Hin.
  - cbn [foldl]. rewrite IH, upsertGroup_lookup.
    destruct (decide (g = gid)) as [->|Hne].
    + destruct (decide (gid ∈ gid :: rest)) as [_|Hnin];
        [|exfalso; apply Hnin, list_elem_of_here].
      destruct (decide (gid ∈ rest)); [|done]. simpl. by rewrite Hidem.
    + destruct (decide (gid ∈ rest)) as [Hin|Hnin];
        destruct (decide (gid ∈ g :: rest)) as [Hin'|Hnin']; try done.
      * exfalso. by apply Hnin', list_elem_of_further.
      * exfalso. apply elem_of_cons in Hin' as [?|?]; [congruence|done].
Qed.

Lemma toKnownGroups_lookup (f : Mutations.t → Mutations.t) (mm : gmap N Mutations.t)
    (gid : N) :
  (∀ mu, f (f mu) = f mu) →
  toKnownGroups f mm !! gid
  = if decide (gid ∈ KnownGroups)
    then Some (f (default (Mutations.new gid) (mm !! gid)))
    else mm !! gid.
Proof. apply upsertGroups_lookup. Qed.

Lemma Partitioned_toKnownGroups (f : Mutations.t → Mutations.t) edges schemas mm :
  (∀ mu, f (f mu) = f mu) →
  (∀ mu, Mutations.GroupId (f mu) = Mutations.GroupId mu
         ∧ Mutations.Edges (f mu) = Mutations.Edges mu
         ∧ Mutations.Schema (f mu) = Mutations.Schema mu) →
  Partitioned edges schemas mm →
  Partitioned edges schemas (toKnownGroups f mm).
Proof.
  intros Hidem Hkeep Hp gid. specialize (Hp gid).
  rewrite toKnownGroups_lookup by done.
  destruct (decide (gid ∈ KnownGroups)); [|done].
  destruct (Hkeep (default (Mutations.new gid) (mm !! gid))) as (-> & -> & ->).
  destruct (mm !! gid) as [mu|]; simpl; [done|].
  by destruct Hp as (-> & ->).
Qed.

Lemma placeEdges_resolves md edges mm mm' :
  placeEdges md edges mm = Ok mm' →
  ∀ e, e ∈ edges → ∃ gid, BelongsTo (DirectedEdge.Attr e) = Ok gid.
Proof.
  revert mm. induction edges as [|e' rest IH]; intros mm Hplace e Hin.
  - by apply not_elem_of_nil in Hin.
  - simpl in Hplace.
    destruct (BelongsTo (DirectedEdge.Attr e')) as [g|] eqn:Hg; [|done].
    apply elem_of_cons in Hin as [->|Hin]; [eauto|]. by eapply IH.
Qed.

Lemma placeSchema_resolves schemas mm mm' :
  placeSchema schemas mm = Ok mm' →
  ∀ s, s ∈ schemas → ∃ gid, BelongsTo (SchemaUpdate.Predicate s) = Ok gid.
Proof.
  revert mm. induction schemas as [|s' rest IH]; intros mm Hplace s Hin.
  - by apply not_elem_of_nil in Hin.
  - simpl in Hplace.
    destruct (BelongsTo (SchemaUpdate.Predicate s')) as [g|] eqn:Hg; [|done].
    apply elem_of_cons in Hin as [->|Hin]; [eauto|]. by eapply IH.
Qed.

Lemma placeEdges_total md edges mm :
  (∀ e, e ∈ edges → ∃ gid, BelongsTo (DirectedEdge.Attr e) = Ok gid) →
  ∃ mm', placeEdges md edges mm = Ok mm'.
Proof.
  revert mm. induction edges as [|e rest IH]; intros mm Hres; simpl; [eauto|].
  destruct (Hres e) as [g ->]; [apply list_elem_of_here|].
  apply IH. intros e' Hin. by apply Hres, list_elem_of_further.
Qed.

Lemma placeSchema_total schemas mm :
  (∀ s, s ∈ schemas → ∃ gid, BelongsTo (SchemaUpdate.Predicate s) = Ok gid) →
  ∃ mm', placeSchema schemas mm = Ok mm'.
Proof.
  revert mm. induction schemas as [|s rest IH]; intros mm Hres; simpl; [eauto|].
  destruct (Hres s) as [g ->]; [apply list_elem_of_here|].
  apply IH. intros s' Hin. by apply Hres, list_elem_of_further.
Qed.

Lemma Partitioned_edge_owner edges schemas mm e gid :
  Partitioned edges schemas mm → e ∈ edges →
  BelongsTo (DirectedEdge.Attr e) = Ok gid →
  ∃ mu, mm !! gid = Some mu ∧ e ∈ Mutations.Edges mu.
Proof.
  intros Hp Hin Hgid. specialize (Hp gid).
  assert (Hown : e ∈ filter (λ e, ownedBy gid (DirectedEdge.Attr e)) edges).
  { apply list_elem_of_filter. split; [|done].
    rewrite (ownedBy_owner gid gid _ Hgid). by apply bool_decide_pack. }
  destruct (mm !! gid) as [mu|].
  - exists mu. by destruct Hp as (_ & -> & _).
  - destruct Hp as [Hnil _]. rewrite Hnil in Hown. by apply not_elem_of_nil in Hown.
Qed.

Lemma Partitioned_schema_owner edges schemas mm s gid :
  Partitioned edges schemas mm → s ∈ schemas →
  BelongsTo (SchemaUpdate.Predicate s) = Ok gid →
  ∃ mu, mm !! gid = Some mu ∧ s ∈ Mutations.Schema mu.
Proof.
  intros Hp Hin Hgid. specialize (Hp gid).
  assert (Hown : s ∈ filter (λ s, ownedBy gid (SchemaUpdate.Predicate s)) schemas).
  { apply list_elem_of_filter. split; [|done].
    rewrite (ownedBy_owner gid gid _ Hgid). by apply bool_decide_pack. }
  destruct (mm !! gid) as [mu|].
  - exists mu. by destruct Hp as (_ & _ & ->).
  - destruct Hp as [_ Hnil]. rewrite Hnil in Hown. by apply not_elem_of_nil in Hown.
Qed.

Lemma populateMutationMap_Partitioned (src : Mutations.t) (mm : gmap N Mutations.t) :
  populateMutationMap src = Ok mm →
  Partitioned (Mutations.Edges src) (Mutations.Schema src) mm.
Proof.
  unfold populateMutationMap.
  destruct (placeEdges _ _ ∅) as [mm1|] eqn:He; [|done].
  destruct (placeSchema _ mm1) as [mm2|] eqn:Hs; [|done].
  intros [= <-].
  assert (Hp2 : Partitioned (Mutations.Edges src) (Mutations.Schema src) mm2).
  { eapply (placeSchema_Partitioned _ _ []); [done|].
    eapply (placeEdges_Partitioned _ _ []); [done|]. apply Partitioned_empty. }
  repeat case_bool_decide; repeat apply Partitioned_toKnownGroups; done.
Qed.

Lemma populateMutationMap_resolves (src : Mutations.t) (mm : gmap N Mutations.t) :
  populateMutationMap src = Ok mm →
  (∀ e, e ∈ Mutations.Edges src → ∃ gid, BelongsTo (DirectedEdge.Attr e) = Ok gid)
  ∧ (∀ s, s ∈ Mutations.Schema src →
       ∃ gid, BelongsTo (SchemaUpdate.Predicate s) = Ok gid).
Proof.
  unfold populateMutationMap.
  destruct (placeEdges _ _ ∅) as [mm1|] eqn:He; [|done].
  destruct (placeSchema _ mm1) as [mm2|] eqn:Hs; [|done].
  intros _. split; [by eapply placeEdges_resolves | by eapply placeSchema_resolves].
Qed.

Lemma populateMutationMap_total (src : Mutations.t) :
  (∀ e, e ∈ Mutations.Edges src → ∃ gid, BelongsTo (DirectedEdge.Attr e) = Ok gid) →
  (∀ s, s ∈ Mutations.Schema src →
     ∃ gid, BelongsTo (SchemaUpdate.Predicate s) = Ok gid) →
  ∃ mm, populateMutationMap src = Ok mm.
Proof.
  intros He Hs. unfold populateMutationMap.
  destruct (placeEdges_total (Mutations.Metadata src) _ ∅ He) as [mm1 ->].
  destruct (placeSchema_total _ mm1 Hs) as [mm2 ->]. eauto.
Qed.

(** C7: the map populateMutationMap returns holds, for every group, the
    edges and the schema updates of the batch whose predicate the group
    owns, and no others; every edge and every schema update is in the entry
    of its owner; and when the batch drops something, or carries type
    updates, every known group has an entry with the drop operation and its
    value, or with the type updates. *)
Theorem populateMutationMap_partition (src : Mutations.t) (mm : gmap N Mutations.t) :
  populateMutationMap src = Ok mm →
  (∀ gid mu, mm !! gid = Some mu →
     Mutations.GroupId mu = gid
     ∧ Mutations.Edges mu
       = filter (λ e, ownedBy gid (DirectedEdge.Attr e)) (Mutations.Edges src)
     ∧ Mutations.Schema mu
       = filter (λ s, ownedBy gid (SchemaUpdate.Predicate s)) (Mutations.Schema src))
  ∧ (∀ e, e ∈ Mutations.Edges src →
       ∃ gid mu, BelongsTo (DirectedEdge.Attr e) = Ok gid
                 ∧ mm !! gid = Some mu ∧ e ∈ Mutations.Edges mu)
  ∧ (∀ s, s ∈ Mutations.Schema src →
       ∃ gid mu, BelongsTo (SchemaUpdate.Predicate s) = Ok gid
                 ∧ mm !! gid = Some mu ∧ s ∈ Mutations.Schema mu)
  ∧ (Mutations.DropOp src > 0 →
       ∀ gid, gid ∈ KnownGroups →
         ∃ mu, mm !! gid = Some mu
               ∧ Mutations.DropOp mu = Mutations.DropOp src
               ∧ Mutations.DropValue mu = Mutations.DropValue src)
  ∧ (Mutations.Types src ≠ [] →
       ∀ gid, gid ∈ KnownGroups →
         ∃ mu, mm !! gid = Some mu ∧ Mutations.Types mu = Mutations.Types src).
Proof.
  intros Hpop.
  pose proof (populateMutationMap_Partitioned _ _ Hpop) as Hp.
  pose proof (populateMutationMap_resolves _ _ Hpop) as [Hre Hrs].
  split; [|split; [|split; [|split]]].
  - intros gid mu Hmu. specialize (Hp gid). by rewrite Hmu in Hp.
  - intros e Hin. destruct (Hre e Hin) as [gid Hgid].
    destruct (Partitioned_edge_owner _ _ _ _ _ Hp Hin Hgid) as (mu & ? & ?). eauto.
  - intros s Hin. destruct (Hrs s Hin) as [gid Hgid].
    destruct (Partitioned_schema_owner _ _ _ _ _ Hp Hin Hgid) as (mu & ? & ?). eauto.
  - intros Hdrop gid Hknown. revert Hpop. unfold populateMutationMap.
    destruct (placeEdges _ _ ∅) as [mm1|]; [|done].
    destruct (placeSchema _ mm1) as [mm2|]; [|done].
    intros [= <-]. rewrite (bool_decide_eq_true_2 _ Hdrop).
    case_bool_decide; rewrite !toKnownGroups_lookup by done;
      rewrite !decide_True by done; simpl; eauto.
  - intros Htypes gid Hknown. revert Hpop. unfold populateMutationMap.
    destruct (placeEdges _ _ ∅) as [mm1|]; [|done].
    destruct (placeSchema _ mm1) as [mm2|]; [|done].
    intros [= <-].
    rewrite (bool_decide_eq_true_2 (0 < length (Mutations.Types src))%nat)
      by (destruct (Mutations.Types src); simpl; [done|lia]).
    rewrite toKnownGroups_lookup by done. rewrite decide_True by done. eauto.
Qed.

(** ** Mutation router: group 0 *)


(** ** Mutation router: the replies of the groups *)

Lemma collectReplies_keys (replies : list res.t) (acc : TxnContext.t * option error)
    (r : res.t) (c : TxnContext.t) :
  r ∈ replies → res.ctx r = Some c →
  (∀ k, k ∈ TxnContext.Keys c → k ∈ TxnContext.Keys (fst (foldl collectReply acc replies)))
  ∧ (∀ p, p ∈ TxnContext.Preds c → p ∈ TxnContext.Preds (fst (foldl collectReply acc replies))).
Proof.
  assert (Hmono : ∀ l acc,
    (∀ k, k ∈ TxnContext.Keys (fst acc) → k ∈ TxnContext.Keys (fst (foldl collectReply acc l)))
    ∧ (∀ p, p ∈ TxnContext.Preds (fst acc) → p ∈ TxnContext.Preds (fst (foldl collectReply acc l)))).
  { induction l as [|x l IH]; intros [tctx e]; [done|]. cbn [foldl].
    destruct (IH (collectReply (tctx, e) x)) as [IHk IHp].
    split; intros y Hy; [apply IHk | apply IHp]; simpl;
      destruct (res.ctx x); simpl; try done; apply elem_of_app; by left. }
  revert acc. induction replies as [|x l IH]; intros [tctx e] Hin Hctx.
  - by apply not_elem_of_nil in Hin.
  - cbn [foldl]. apply elem_of_cons in Hin as [<-|Hin]; [|by apply IH].
    destruct (Hmono l (collectReply (tctx, e) r)) as [Hk Hp].
    split; intros y Hy; [apply Hk | apply Hp]; simpl; rewrite Hctx; simpl;
      apply elem_of_app; by right.
Qed.

Lemma collectReplies_no_error (replies : list res.t) (acc : TxnContext.t * option error) :
  (∀ r, r ∈ replies → res.err r = None) →
  snd (foldl collectReply acc replies) = snd acc.
Proof.
  revert acc. induction replies as [|x l IH]; intros [tctx e] Hnone; [done|].
  cbn [foldl]. rewrite IH by (intros r Hr; by apply Hnone, list_elem_of_further).
  simpl. by rewrite (Hnone x) by apply list_elem_of_here.
Qed.

Lemma collectReplies_error (replies : list res.t) (acc : TxnContext.t * option error) :
  (∃ r, r ∈ replies ∧ res.err r ≠ None) →
  ∃ r err, r ∈ replies ∧ res.err r = Some err
           ∧ snd (foldl collectReply acc replies) = Some err.
Proof.
  revert acc. induction replies as [|x l IH]; intros [tctx e] (r & Hin & Herr).
  - by apply not_elem_of_nil in Hin.
  - cbn [foldl].
    destruct (decide (Exists (λ r', is_Some (res.err r')) l)) as [Hlater|Hnone].
    + apply Exists_exists in Hlater as (r0 & Hr0 & [err0 Herr0]).
      destruct (IH (collectReply (tctx, e) x)) as (r' & err & ? & ? & ?).
      { exists r0. split; [done|]. by rewrite Herr0. }
      exists r', err. split; [by apply list_elem_of_further|done].
    + assert (Hall : ∀ r', r' ∈ l → res.err r' = None).
      { intros r' Hr'. destruct (res.err r') eqn:He'; [|done].
        exfalso. apply Hnone, Exists_exists. exists r'. split; [done|].
        rewrite He'. eauto. }
      rewrite collectReplies_no_error by done.
      apply elem_of_cons in Hin as [->|Hin]; [|by rewrite Hall in Herr].
      destruct (res.err x) as [err|] eqn:Hx; [|done].
      exists x, err. split; [apply list_elem_of_here|]. split; [done|].
      simpl. by rewrite Hx.
Qed.


(** C5: once the batch is dispatched (no group 0 in the map), in
    whatever order the replies arrive: if some group replies with an
    error, MutateOverNetwork returns an error, and it is the error of a
    group; and the keys and the predicates of every reply that carries a
    transaction context, those of the groups that succeeded among them, are
    in the transaction context returned. *)
Theorem MutateOverNetwork_partial_failure (arrival : list res.t → list res.t)
    (m : Mutations.t) (mm : gmap N Mutations.t) :
  (∀ l, arrival l ≡ₚ l) →
  verifyTypes m = None →
  populateMutationMap m = Ok mm →
  mm !! 0%N = None →
  ((∃ r, r ∈ dispatched m mm ∧ res.err r ≠ None) →
     ∃ r err, r ∈ dispatched m mm ∧ res.err r = Some err
              ∧ snd (MutateOverNetwork arrival m) = Some err)
  ∧ (∀ r c, r ∈ dispatched m mm → res.ctx r = Some c →
       (∀ k, k ∈ TxnContext.Keys c →
             k ∈ TxnContext.Keys (fst (MutateOverNetwork arrival m)))
       ∧ (∀ p, p ∈ TxnContext.Preds c →
             p ∈ TxnContext.Preds (fst (MutateOverNetwork arrival m))))
  ∧ ((∀ r, r ∈ dispatched m mm → res.err r = None) →
       snd (MutateOverNetwork arrival m) = None).
Proof.
  intros Harr Hverify Hpop Hzero.
  assert (Hrun : MutateOverNetwork arrival m
                 = collectReplies (TxnContext.mk (Mutations.StartTs m) 0%N false [] [])
                                  (arrival (dispatched m mm))).
  { unfold MutateOverNetwork. rewrite Hverify, Hpop.
    rewrite bool_decide_eq_false_2; [done|]. rewrite Hzero. by intros [? ?]. }
  rewrite Hrun. unfold collectReplies.
  assert (Hmem : ∀ r, r ∈ arrival (dispatched m mm) ↔ r ∈ dispatched m mm).
  { intros r. by rewrite (Harr (dispatched m mm)). }
  split; [|split].
  - intros (r & Hin & Herr).
    destruct (collectReplies_error (arrival (dispatched m mm))
                (TxnContext.mk (Mutations.StartTs m) 0%N false [] [], None))
      as (r' & err & Hin' & Herr' & Hres).
    { exists r. split; [by apply Hmem|done]. }
    exists r', err. split; [by apply Hmem|done].
  - intros r c Hin Hctx. apply collectReplies_keys with r; [by apply Hmem|done].
  - intros Hnone. rewrite collectReplies_no_error; [done|].
    intros r Hr. by apply Hnone, Hmem.
Qed.

(** A group this node serves always replies with a transaction context. *)
Lemma proposeOrSend_local_ctx (gid : N) (m : Mutations.t) :
  ServesGroup gid = true → is_Some (res.ctx (proposeOrSend gid m)).
Proof.
  intros Hs. unfold proposeOrSend. rewrite Hs.
  destruct (proposeAndWait _ _). simpl. eauto.
Qed.
End RouterFacts.

Section RouterExamples.
#[local] Existing Instances Example.xAclOff Example.nameSchema Example.cluster.

Example populateMutationMap_two_groups :
  populateMutationMap Example.twoGroupBatch = Ok Example.twoGroupMap.
Proof. vm_compute. reflexivity. Qed.

Lemma populateMutationMap_partition_witness :
  populateMutationMap Example.twoGroupBatch = Ok Example.twoGroupMap
  ∧ (∀ gid mu, Example.twoGroupMap !! gid = Some mu →
       Mutations.GroupId mu = gid
       ∧ Mutations.Edges mu
         = filter (λ e, ownedBy gid (DirectedEdge.Attr e))
                  (Mutations.Edges Example.twoGroupBatch)
       ∧ Mutations.Schema mu
         = filter (λ s, ownedBy gid (SchemaUpdate.Predicate s))
                  (Mutations.Schema Example.twoGroupBatch)).
Proof.
  assert (Hpop : populateMutationMap Example.twoGroupBatch = Ok Example.twoGroupMap)
    by (vm_compute; reflexivity).
  split; [exact Hpop|].
  exact (proj1 (populateMutationMap_partition Example.twoGroupBatch Example.twoGroupMap
                  Hpop)).
Defined.



Lemma MutateOverNetwork_partial_failure_witness :
  populateMutationMap Example.twoEdgeBatch = Ok Example.twoEdgeMap
  ∧ Example.twoEdgeMap !! 0%N = None
  ∧ Example.unreachable ∈ dispatched Example.twoEdgeBatch Example.twoEdgeMap
  ∧ ∃ r err, r ∈ dispatched Example.twoEdgeBatch Example.twoEdgeMap
             ∧ res.err r = Some err
             ∧ snd (MutateOverNetwork (λ l, l) Example.twoEdgeBatch) = Some err.
Proof.
  assert (Hpop : populateMutationMap Example.twoEdgeBatch = Ok Example.twoEdgeMap)
    by (vm_compute; reflexivity).
  assert (Hin : Example.unreachable ∈ dispatched Example.twoEdgeBatch Example.twoEdgeMap).
  { vm_compute. apply list_elem_of_here. }
  assert (Hverify : verifyTypes Example.twoEdgeBatch = None) by reflexivity.
  assert (Hzero : Example.twoEdgeMap !! 0%N = None) by reflexivity.
  split; [exact Hpop|]. split; [exact Hzero|]. split; [exact Hin|].
  apply (MutateOverNetwork_partial_failure (λ l, l) Example.twoEdgeBatch
           Example.twoEdgeMap (λ l, reflexivity l) Hverify Hpop Hzero).
  exists Example.unreachable. split; [exact Hin|discriminate].
Defined.

(** The scenario of the two groups: group 2 cannot be reached, group 1
    proposes; the call returns the error of group 2 and the keys and
    predicates of group 1. *)
Example MutateOverNetwork_two_groups :
  MutateOverNetwork (λ l, l) Example.twoEdgeBatch
  = (TxnContext.mk 5%N 0%N false ["name/1"] ["1-name"],
     Some (ErrExternal "rpc error: connection refused"))
  ∧ MutateOverNetwork (@rev _) Example.twoEdgeBatch
    = (TxnContext.mk 5%N 0%N false ["name/1"] ["1-name"],
       Some (ErrExternal "rpc error: connection refused")).
Proof. split; vm_compute; reflexivity. Qed.
End RouterExamples.

(** ** Schema mutation coordinator: a rebuild that fails *)

Section SchemaCommitFacts.
Context `{!RebuildEnv}.

Lemma schema_Load_durable (pred : string) (w w' : World.t) (r : option error) :
  schema_Load pred w = (w', r) →
  World.durable w' = World.durable w
  ∧ World.loads w' = S (World.loads w)
  ∧ World.slept w' = World.slept w
  ∧ r = Load_result pred (World.loads w)
  ∧ (r = None → World.predicate w' !! pred = World.durable w !! pred).
Proof.
  unfold schema_Load.
  destruct (Load_result pred (World.loads w)) as [err|]; intros [= <- <-]; simpl.
  - done.
  - repeat split; try done. intros _.
    destruct (World.durable w !! pred); [apply lookup_insert_eq | apply lookup_delete_eq].
Qed.

(** The retry loop on [schema.Load]: either the attempt [k], within the
    budget, is the first that succeeds, or every attempt of the budget
    fails. *)
Lemma retryLoop_Load (pred : string) (retry : nat) (err : option error)
    (w w' : World.t) (r : option error) :
  retryLoop retry 10%N (schema_Load pred) err w = (w', r) →
  World.durable w' = World.durable w
  ∧ ((∃ k, (k < retry)%nat
           ∧ Load_result pred (World.loads w + k) = None
           ∧ (∀ j, (j < k)%nat → is_Some (Load_result pred (World.loads w + j)))
           ∧ r = None
           ∧ World.loads w' = (World.loads w + S k)%nat
           ∧ World.slept w' = (World.slept w + 10 * N.of_nat k)%N
           ∧ World.predicate w' !! pred = World.durable w !! pred)
     ∨ ((∀ j, (j < retry)%nat → is_Some (Load_result pred (World.loads w + j)))
        ∧ World.loads w' = (World.loads w + retry)%nat
        ∧ World.slept w' = (World.slept w + 10 * N.of_nat retry)%N
        ∧ r = match retry with
              | O => err
              | S n => Load_result pred (World.loads w + n)
              end)).
Proof.
  revert err w. induction retry as [|retry IH]; intros err w; simpl.
  - intros [= <- <-]. split; [done|]. right.
    repeat split; try done; try lia. all: intros; lia.
  - destruct (schema_Load pred w) as [w1 r1] eqn:Hload.
    apply schema_Load_durable in Hload as (Hd & Hl & Hs & Hr & Hp).
    destruct r1 as [e|].
    + intros Hloop. apply IH in Hloop as [Hd' Hcases].
      simpl in Hd', Hcases. split; [congruence|].
      rewrite Hl, Hs in Hcases.
      destruct Hcases as [(k & Hk & Hok & Hfail & -> & Hloads & Hslept & Hpred) | (Hfail & Hloads & Hslept & Hres)].
      * left. exists (S k). split; [lia|].
        split; [by replace (World.loads w + S k)%nat with (S (World.loads w) + k)%nat by lia|].
        split.
        { intros [|j] Hj.
          - rewrite Nat.add_0_r, <- Hr. eauto.
          - replace (World.loads w + S j)%nat with (S (World.loads w) + j)%nat by lia.
            apply Hfail. lia. }
        split; [done|]. split; [lia|]. split; [lia|]. by rewrite Hpred, Hd.
      * right. split.
        { intros [|j] Hj.
          - rewrite Nat.add_0_r, <- Hr. eauto.
          - replace (World.loads w + S j)%nat with (S (World.loads w) + j)%nat by lia.
            apply Hfail. lia. }
        split; [lia|]. split; [lia|].
        rewrite Hres. destruct retry as [|n].
        -- by rewrite Nat.add_0_r.
        -- by replace (S (World.loads w) + n)%nat with (World.loads w + S n)%nat by lia.
    + intros [= <- <-]. split; [done|]. left. exists 0%nat.
      split; [lia|]. rewrite Nat.add_0_r, <- Hr.
      split; [done|]. split; [intros j Hj; lia|].
      split; [done|]. split; [lia|]. split; [lia|]. by apply Hp.
Qed.

(** C2: when the background rebuild of a schema update fails, the
    schema records of the store are as they were before, and the schema of
    the predicate is reloaded with a budget of ten attempts and a pause of
    10 ms after each failure: either one of the ten attempts is the first
    to succeed, the in-memory schema of the predicate is then the stored
    one and the process goes on; or all ten fail and the process ends
    fatally with the error of the last attempt. *)
Theorem rebuild_failure_reloads_schema (update : SchemaUpdate.t)
    (rebuild : IndexRebuild.t) (w : World.t) (err : error) :
  BuildIndexes rebuild = Some err →
  let pred := SchemaUpdate.Predicate update in
  let w' := fst (buildIndexes update rebuild w) in
  let ex := snd (buildIndexes update rebuild w) in
  World.durable w' = World.durable w
  ∧ ((∃ k, (k < 10)%nat
           ∧ Load_result pred (World.loads w + k) = None
           ∧ (∀ j, (j < k)%nat → is_Some (Load_result pred (World.loads w + j)))
           ∧ ex = Alive
           ∧ World.loads w' = (World.loads w + S k)%nat
           ∧ World.slept w' = (World.slept w + 10 * N.of_nat k)%N
           ∧ World.predicate w' !! pred = World.durable w !! pred)
     ∨ ((∀ j, (j < 10)%nat → is_Some (Load_result pred (World.loads w + j)))
        ∧ (∃ loadErr, Load_result pred (World.loads w + 9) = Some loadErr
                      ∧ ex = Fatal 10 loadErr)
        ∧ World.loads w' = (World.loads w + 10)%nat
        ∧ World.slept w' = (World.slept w + 100)%N)).
Proof.
  intros Hbuild pred w' ex. subst w' ex.
  unfold buildIndexes, buildIndexesHelper. rewrite Hbuild.
  unfold undoSchemaUpdate, RetryUntilSuccess. fold pred.
  destruct (retryLoop 10 10%N (schema_Load pred) None w) as [w1 r] eqn:Hloop.
  apply retryLoop_Load in Hloop as [Hd Hcases].
  destruct Hcases as [(k & Hk & Hok & Hfail & -> & Hloads & Hslept & Hpred)
                     | (Hfail & Hloads & Hslept & ->)].
  - simpl. split; [done|]. left. exists k. done.
  - destruct (Hfail 9%nat) as [loadErr Hlast]; [lia|].
    rewrite Hlast. simpl. split; [done|]. right.
    split; [done|]. split; [eauto|]. split; [done|]. by rewrite Hslept.
Qed.

(** The schema record of a predicate changes in the store only under
    a rebuild that succeeded. *)
Corollary durable_change_needs_rebuild (update : SchemaUpdate.t)
    (rebuild : IndexRebuild.t) (w : World.t) :
  World.durable (fst (buildIndexes update rebuild w)) ≠ World.durable w →
  BuildIndexes rebuild = None.
Proof.
  intros Hchange. destruct (BuildIndexes rebuild) as [err|] eqn:Hbuild; [|done].
  unfold buildIndexes, buildIndexesHelper in Hchange. rewrite Hbuild in Hchange.
  unfold undoSchemaUpdate, RetryUntilSuccess in Hchange.
  destruct (retryLoop _ _ _ _ _) as [w1 r] eqn:Hloop.
  apply retryLoop_Load in Hloop as [Hd _].
  destruct r; simpl in Hchange; congruence.
Qed.
End SchemaCommitFacts.

(** ** Schema mutation coordinator: the rebuilds in progress *)

Section CoordinatorFacts.
Context `{!XPkg, !KVStore, !RebuildEnv, !NodeEnv}.
Variable updates : list SchemaUpdate.t.
Variable startTs : N.

Abbreviation building := (λ g : Goroutine.t, Goroutine.phase g = GBuilding).

Lemma stopIndexing_keeps (c : bool) (s : Coord.t) :
  Coord.world (stopIndexing c s) = Coord.world s
  ∧ Coord.pc (stopIndexing c s) = Coord.pc s
  ∧ Coord.throttle (stopIndexing c s) = Coord.throttle s
  ∧ Coord.goroutines (stopIndexing c s) = Coord.goroutines s.
Proof. unfold stopIndexing, closer_Done. by case_match. Qed.

Lemma mainReturn_keeps (err : option error) (s : Coord.t) :
  Coord.world (mainReturn err s) = Coord.world s
  ∧ Coord.pc (mainReturn err s) = MReturned err
  ∧ Coord.throttle (mainReturn err s) = Coord.throttle s
  ∧ Coord.goroutines (mainReturn err s) = Coord.goroutines s.
Proof.
  unfold mainReturn. simpl.
  induction (Coord.deferred s) as [|n IH]; simpl; [done|].
  destruct (stopIndexing_keeps true (Nat.iter n (stopIndexing true) s))
    as (-> & _ & -> & ->).
  tauto.
Qed.










End CoordinatorFacts.

Section CoordinatorExamples.
#[local] Existing Instances Example.xAclOff Example.someData Example.rebuildEnv
  Example.nodeEnv.

Lemma rebuild_failure_reloads_schema_witness :
  BuildIndexes (Example.rebuildOf "title")
    = Some (ErrExternal "Txn is too big to fit into one request")
  ∧ World.durable (fst (buildIndexes (Example.indexed "title")
                          (Example.rebuildOf "title") Example.world0))
    = World.durable Example.world0.
Proof.
  split; [reflexivity|].
  exact (proj1 (rebuild_failure_reloads_schema (Example.indexed "title")
                  (Example.rebuildOf "title") Example.world0 _ eq_refl)).
Defined.

(** The schema of "title" is back at the third load, after two pauses;
    that of "body" is not after ten, and the process ends. *)
Example title_rebuild_rolled_back :
  buildIndexes (Example.indexed "title") (Example.rebuildOf "title") Example.world0
  = (World.mk Example.threePredicates ∅ Example.threePredicates 3 20%N, Alive).
Proof. vm_compute. reflexivity. Qed.

Example body_rebuild_fatal :
  buildIndexes (Example.indexed "body") (Example.rebuildOf "body") Example.world0
  = (World.mk Example.threePredicates ∅ Example.threePredicates 10 100%N,
     Fatal 10 (ErrExternal "i/o timeout")).
Proof. vm_compute. reflexivity. Qed.



(** While the indexing slot is taken the call does not move; it does once
    the earlier task has ended. *)
Example waits_for_the_slot :
  step Example.indexTwo 5%N MainStep
       (runSchemaMutation Example.indexTwo Example.world0 true) = None
  ∧ Coord.pc <$> run Example.indexTwo 5%N [EarlierTaskEnds; MainStep]
                     (runSchemaMutation Example.indexTwo Example.world0 true)
    = Some (MLoop 0).
Proof. split; vm_compute; reflexivity. Qed.
End CoordinatorExamples.

(** * Further properties *)

(** ** Edge validation *)

Section EdgeValidationMore.
Context `{!XPkg, !TypesPkg, !PostingTypeOf, !SchemaReader}.
Context {Txn PList : Type} `{!PostingStore Txn PList}.

(** X1: ValidateAndConvert rewrites nothing of an edge but its value and its
    value type: entity, attribute, object uid, language tag and operation are
    the same after every call, failed or not. *)
Theorem ValidateAndConvert_keeps_identity (edge : DirectedEdge.t) (su : SchemaUpdate.t) :
  let edge' := fst (ValidateAndConvert edge su) in
  DirectedEdge.Entity edge' = DirectedEdge.Entity edge
  ∧ DirectedEdge.Attr edge' = DirectedEdge.Attr edge
  ∧ DirectedEdge.ValueId edge' = DirectedEdge.ValueId edge
  ∧ DirectedEdge.Lang edge' = DirectedEdge.Lang edge
  ∧ DirectedEdge.Op edge' = DirectedEdge.Op edge.
Proof.
  unfold ValidateAndConvert, convertEdge.
  repeat (case_match; simpl; try done).
Qed.

Lemma not_wildcard (edge : DirectedEdge.t) :
  isDeletePredicateEdge edge = false →
  ¬ (DirectedEdge.ValueType edge = DefaultID ∧ DirectedEdge.Value edge = Star) →
  ∀ su, ValidateAndConvert edge su
        = match typeChecks edge su with
          | TcReturn err => (edge, err)
          | TcConvert schemaType => convertEdge edge schemaType
          end.
Proof.
  intros Hdel Hstar su. unfold ValidateAndConvert. rewrite Hdel.
  assert (bool_decide (DirectedEdge.ValueType edge = DefaultID)
          && isStarAll (DirectedEdge.Value edge) = false) as ->; [|done].
  unfold isStarAll. apply andb_false_iff.
  destruct (decide (DirectedEdge.ValueType edge = DefaultID)).
  - right. apply bool_decide_eq_false. tauto.
  - left. by apply bool_decide_eq_false.
Qed.

(** X2: an edge that is not one of the two wildcard forms and whose
    storage type has the other shape than the schema type (uid against
    scalar) is refused and left as it was: with the language error when it
    carries a tag the schema does not allow, else with the error that says
    which side is the uid. *)
Theorem shape_mismatch_refused (edge : DirectedEdge.t) (su : SchemaUpdate.t) :
  isDeletePredicateEdge edge = false →
  ¬ (DirectedEdge.ValueType edge = DefaultID ∧ DirectedEdge.Value edge = Star) →
  IsScalar (SchemaUpdate.ValueType su) ≠ IsScalar (posting_TypeID edge) →
  ValidateAndConvert edge su
  = (edge,
     Some (if bool_decide (DirectedEdge.Lang edge ≠ "") && negb (SchemaUpdate.Lang su)
           then ErrLangDirective (ParseAttr (DirectedEdge.Attr edge)) edge
           else if IsScalar (SchemaUpdate.ValueType su)
                then ErrScalarInputIsUid (ParseAttr (DirectedEdge.Attr edge)) edge
                else ErrUidInputIsScalar (ParseAttr (DirectedEdge.Attr edge)) edge)).
Proof.
  intros Hdel Hstar Hshape. rewrite not_wildcard by done.
  unfold typeChecks.
  destruct (bool_decide (DirectedEdge.Lang edge ≠ "") && negb (SchemaUpdate.Lang su)); [done|].
  destruct (IsScalar (SchemaUpdate.ValueType su)), (IsScalar (posting_TypeID edge));
    simpl; done.
Qed.

Lemma convertEdge_type (edge edge' : DirectedEdge.t) (schemaType : TypeID) :
  convertEdge edge schemaType = (edge', None) →
  DirectedEdge.ValueType edge' = schemaType.
Proof.
  unfold convertEdge, Enum.
  repeat (case_match; try done); by intros [= <-].
Qed.

(** X3: when ValidateAndConvert accepts an edge that is not a wildcard,
    the edge agrees with the schema: either it is untouched, and then schema
    and storage type are both uid or the storage type is the schema type; or
    its value type is now the schema type, or, for a schema without a type
    yet, the storage type it came with. *)
Theorem accepted_edge_has_schema_type (edge edge' : DirectedEdge.t) (su : SchemaUpdate.t) :
  isDeletePredicateEdge edge = false →
  ¬ (DirectedEdge.ValueType edge = DefaultID ∧ DirectedEdge.Value edge = Star) →
  ValidateAndConvert edge su = (edge', None) →
  (edge' = edge
   ∧ ((IsScalar (SchemaUpdate.ValueType su) = false ∧ IsScalar (posting_TypeID edge) = false)
      ∨ posting_TypeID edge = SchemaUpdate.ValueType su))
  ∨ DirectedEdge.ValueType edge'
    = (if bool_decide (SchemaUpdate.ValueType su = DefaultID)
       then posting_TypeID edge else SchemaUpdate.ValueType su).
Proof.
  intros Hdel Hstar. rewrite not_wildcard by done.
  unfold typeChecks.
  destruct (bool_decide (DirectedEdge.Lang edge ≠ "") && negb (SchemaUpdate.Lang su)); [done|].
  destruct (IsScalar (SchemaUpdate.ValueType su)) eqn:Hschema,
           (IsScalar (posting_TypeID edge)) eqn:Hstorage; simpl; try done.
  - destruct (decide (SchemaUpdate.ValueType su = Posting_VFLOAT)) as [Hv|Hv].
    + rewrite (bool_decide_eq_true_2 _ Hv).
      destruct (negb _); [done|]. intros Hconv%convertEdge_type. right.
      rewrite Hconv. case_bool_decide as Hd; [|done]. rewrite Hv in Hd. discriminate.
    + rewrite (bool_decide_eq_false_2 _ Hv).
      destruct (decide (posting_TypeID edge = SchemaUpdate.ValueType su)) as [Hsame|Hdiff];
        destruct (decide (SchemaUpdate.ValueType su = DefaultID)) as [Hdef|Hdef].
      * rewrite (bool_decide_eq_true_2 _ Hsame), (bool_decide_eq_true_2 _ Hdef).
        rewrite bool_decide_eq_false_2 by auto. simpl.
        intros Hconv%convertEdge_type. right. rewrite Hconv. by case_bool_decide.
      * rewrite (bool_decide_eq_true_2 _ Hsame), (bool_decide_eq_true_2 _ Hdef).
        simpl. intros [= <-]. left. auto.
      * rewrite (bool_decide_eq_false_2 _ Hdiff), (bool_decide_eq_true_2 _ Hdef). simpl.
        intros Hconv%convertEdge_type. right. rewrite Hconv. by case_bool_decide.
      * rewrite (bool_decide_eq_false_2 _ Hdiff), (bool_decide_eq_false_2 _ Hdef). simpl.
        intros Hconv%convertEdge_type. right. rewrite Hconv. by case_bool_decide.
  - intros [= <-]. left. auto.
Qed.

(** X4: runMutation never applies a delete of a whole predicate (entity 0,
    star value): it returns an error, the missing-schema one or "we should
    never reach here", and transaction and edge are as they were. *)
Theorem runMutation_refuses_predicate_delete (edge : DirectedEdge.t) (txn : Txn) :
  isDeletePredicateEdge edge = true →
  ∃ err, runMutation edge txn = (txn, edge, Some err)
         ∧ (err = ErrNeverReachHere ∨ err = ErrNoSchemaFor (DirectedEdge.Attr edge)).
Proof.
  intros Hdel. unfold runMutation.
  destruct (State_Get true (DirectedEdge.Attr edge)) as [su ok].
  destruct (bool_decide _ && negb ok); [eauto|].
  unfold applyEdge. rewrite Hdel. eauto.
Qed.
End EdgeValidationMore.

(** ** Schema validation *)

Section SchemaValidationMore.
Context `{!XPkg, !SchemaReader, !KVStore}.

(** X5: a schema update that checkSchema accepts has a name that is not
    empty and not internal, an index directive exactly when it has a
    tokenizer (or a vector index specification), no index on a uid, no
    reverse edge on anything but a uid, and with upsert a tokenizer or the
    unique directive. *)
Theorem checkSchema_accepted (s : SchemaUpdate.t) :
  snd (checkSchema (Some s)) = None →
  ParseAttr (SchemaUpdate.Predicate s) ≠ ""
  ∧ IsInternalPredicate (SchemaUpdate.Predicate s) = false
  ∧ (SchemaUpdate.Directive s = SchemaUpdate_INDEX
     ↔ HasTokenizerOrVectorIndexSpec s = true)
  ∧ (SchemaUpdate.ValueType s = Posting_UID →
     SchemaUpdate.Directive s ≠ SchemaUpdate_INDEX)
  ∧ (SchemaUpdate.Directive s = SchemaUpdate_REVERSE →
     SchemaUpdate.ValueType s = Posting_UID)
  ∧ (SchemaUpdate.Upsert s = true →
     SchemaUpdate.Tokenizer s ≠ [] ∨ SchemaUpdate.Unique s = true).
Proof.
  unfold checkSchema.
  destruct (checkSchemaUpdate s) as [s' err] eqn:Hcheck. simpl. intros ->.
  revert Hcheck. unfold checkSchemaUpdate, UidID.
  repeat match goal with
         | |- (if ?c then _ else _) = _ → _ =>
             let H := fresh "Hc" in destruct c eqn:H; [by intros [=]|]
         end.
  intros _.
  repeat match goal with
         | H : bool_decide _ = false |- _ => apply bool_decide_eq_false in H
         | H : _ && _ = false |- _ => apply andb_false_iff in H
         | H : negb _ = false |- _ => apply negb_false_iff in H
         end.
  split; [done|]. split; [done|].
  split; [split|split; [|split]].
  - intros Hidx. destruct Hc1 as [Hc1|Hc1];
      [by apply bool_decide_eq_false in Hc1|].
    by apply negb_false_iff in Hc1.
  - intros Htok. destruct Hc2 as [Hc2|Hc2]; [congruence|].
    by apply bool_decide_eq_false, dec_stable in Hc2.
  - intros Huid Hidx. destruct Hc3 as [Hc3|Hc3];
      apply bool_decide_eq_false in Hc3; done.
  - intros Hrev. destruct Hc4 as [Hc4|Hc4]; apply bool_decide_eq_false in Hc4.
    + by apply dec_stable in Hc4.
    + done.
  - intros Hup. destruct Hc5 as [Hc5|Hc5].
    + apply andb_false_iff in Hc5 as [Hc5|Hc5]; [congruence|].
      apply bool_decide_eq_false in Hc5. left. intros Hnil. by rewrite Hnil in Hc5.
    + right. by apply negb_false_iff in Hc5.
Qed.

Lemma checkSchemaUpdate_upsert_only (s : SchemaUpdate.t) :
  fst (checkSchemaUpdate s) = s
  ∨ (SchemaUpdate.Unique s = true
     ∧ fst (checkSchemaUpdate s) = SchemaUpdate.setUpsert true s).
Proof.
  destruct (checkSchemaUpdate s) as [s' err] eqn:Hcheck. simpl.
  revert Hcheck. unfold checkSchemaUpdate.
  repeat match goal with
         | |- (if ?c then _ else _) = _ → _ =>
             destruct c; [intros [= <- <-]; by left|]
         end.
  destruct (SchemaUpdate.Unique s) eqn:Hu.
  - assert (Hv : fst (validateSchemaForUnique
                        (fst (State_Get false (SchemaUpdate.Predicate s))) s) = s
                 ∨ fst (validateSchemaForUnique
                          (fst (State_Get false (SchemaUpdate.Predicate s))) s)
                   = SchemaUpdate.setUpsert true s).
    { unfold validateSchemaForUnique.
      repeat (case_match; simpl; auto). }
    destruct (validateSchemaForUnique _ s) as [s1 e1]. simpl in Hv.
    destruct e1; [|destruct (State_TypeOf _)]; intros [= <- <-];
      destruct Hv as [->| ->]; auto.
  - destruct (State_TypeOf _); intros [= <- <-]; by left.
Qed.

(** X6: checkSchema leaves the update as it is, but for the upsert flag,
    which it sets when the unique directive is requested and the update gets
    past the checks that precede the one of that directive. *)
Theorem checkSchema_forces_upsert_only (s : SchemaUpdate.t) :
  fst (checkSchema (Some s)) = Some s
  ∨ (SchemaUpdate.Unique s = true
     ∧ fst (checkSchema (Some s)) = Some (SchemaUpdate.setUpsert true s)).
Proof.
  unfold checkSchema.
  destruct (checkSchemaUpdate_upsert_only s) as [Hs | [Hu Hs]];
    destruct (checkSchemaUpdate s) as [s' err]; simpl in *; subst; auto.
Qed.

(** X7: an accepted update with the unique directive has a string or
    integer value type and a tokenizer, one of hash, exact and int for a
    string; it comes out with upsert set; and against a previous schema of
    the predicate it neither drops upsert nor, if that schema was unique,
    goes without such a tokenizer. *)
Theorem unique_accepted (s s' : SchemaUpdate.t) :
  SchemaUpdate.Unique s = true →
  checkSchema (Some s) = (Some s', None) →
  let prev := fst (State_Get false (SchemaUpdate.Predicate s)) in
  SchemaUpdate.Upsert s' = true
  ∧ (SchemaUpdate.ValueType s = Posting_STRING ∧ validTokenizer (SchemaUpdate.Tokenizer s) = true
     ∨ SchemaUpdate.ValueType s = Posting_INT)
  ∧ SchemaUpdate.Tokenizer s ≠ []
  ∧ (SchemaUpdate.Predicate prev ≠ "" → SchemaUpdate.Upsert prev = true →
     SchemaUpdate.Upsert s = true)
  ∧ (SchemaUpdate.Predicate prev ≠ "" → SchemaUpdate.Unique prev = true →
     validTokenizer (SchemaUpdate.Tokenizer s) = true).
Proof.
  intros Hu. unfold checkSchema.
  destruct (checkSchemaUpdate s) as [s1 err] eqn:Hcheck. intros [= -> ->].
  cbv zeta. set (prev := fst (State_Get false (SchemaUpdate.Predicate s))).
  revert Hcheck. unfold checkSchemaUpdate. fold prev.
  repeat match goal with
         | |- (if ?c then _ else _) = _ → _ => destruct c; [by intros [=]|]
         end.
  rewrite Hu.
  destruct (validateSchemaForUnique prev s) as [s2 e2] eqn:Hv.
  destruct e2 as [e|]; [by intros [=]|].
  intros Hrest.
  assert (s2 = s') as ->.
  { by destruct (State_TypeOf _); injection Hrest as ->. }
  clear Hrest. unfold validateSchemaForUnique in Hv.
  destruct (bool_decide (SchemaUpdate.Predicate prev ≠ "") && SchemaUpdate.Upsert prev
            && negb (SchemaUpdate.Upsert s)) eqn:Hdrop; [done|].
  destruct (bool_decide (SchemaUpdate.Predicate prev ≠ "") && SchemaUpdate.Unique prev
            && negb (validTokenizer (SchemaUpdate.Tokenizer s))) eqn:Hidx; [done|].
  set (cur := if negb (SchemaUpdate.Upsert s)
              then SchemaUpdate.setUpsert true s else s) in Hv.
  assert (Hcur : SchemaUpdate.Upsert cur = true
                 ∧ SchemaUpdate.ValueType cur = SchemaUpdate.ValueType s
                 ∧ SchemaUpdate.Tokenizer cur = SchemaUpdate.Tokenizer s).
  { unfold cur. by destruct (SchemaUpdate.Upsert s) eqn:Hup. }
  destruct Hcur as (Hup & Hty & Htok). rewrite Hty, Htok in Hv.
  assert (Hs' : s' = cur
                ∧ (SchemaUpdate.ValueType s = Posting_STRING
                   ∧ validTokenizer (SchemaUpdate.Tokenizer s) = true
                   ∨ SchemaUpdate.ValueType s = Posting_INT)
                ∧ SchemaUpdate.Tokenizer s ≠ []).
  { destruct (SchemaUpdate.ValueType s); try done.
    - destruct (SchemaUpdate.Tokenizer s) as [|tok toks] eqn:Hts.
      + by rewrite bool_decide_eq_true_2 in Hv.
      + rewrite bool_decide_eq_false_2 in Hv by done. injection Hv as <-. auto.
    - destruct (SchemaUpdate.Tokenizer s) as [|tok toks] eqn:Hts.
      + by rewrite bool_decide_eq_true_2 in Hv.
      + rewrite bool_decide_eq_false_2 in Hv by done.
        rewrite bool_decide_eq_true_2 in Hv by (simpl; lia).
        destruct (validTokenizer (tok :: toks)); [|done].
        injection Hv as <-. auto. }
  destruct Hs' as (-> & Hkind & Hnonempty).
  split; [done|]. split; [done|]. split; [done|]. split.
  - intros Hprev Hpu. rewrite (bool_decide_eq_true_2 _ Hprev), Hpu in Hdrop.
    simpl in Hdrop. by apply negb_false_iff in Hdrop.
  - intros Hprev Hpq. rewrite (bool_decide_eq_true_2 _ Hprev), Hpq in Hidx.
    simpl in Hidx. by apply negb_false_iff in Hidx.
Qed.

(** X8: the type of a password predicate cannot change, nor can a scalar
    predicate become a password: with a previous scalar type, an update from
    or to password with another type is refused. *)
Theorem password_type_change_refused (s : SchemaUpdate.t) (t : TypeID) :
  State_TypeOf (SchemaUpdate.Predicate s) = Ok t →
  IsScalar t = true →
  t = Posting_PASSWORD ∨ SchemaUpdate.ValueType s = Posting_PASSWORD →
  t ≠ SchemaUpdate.ValueType s →
  ∃ err, snd (checkSchema (Some s)) = Some err.
Proof.
  intros Htype Hscalar Hpw Hne.
  assert (Hconv : ∀ s1, SchemaUpdate.ValueType s1 = SchemaUpdate.ValueType s →
                        is_Some (checkConversion t s1)).
  { intros s1 Hv. unfold checkConversion, Enum. rewrite Hscalar. simpl.
    destruct (bool_decide _ || bool_decide _) eqn:Hor.
    - clear Hor. case_bool_decide as Hd; [eauto|]. exfalso. apply Hne. congruence.
    - exfalso. apply orb_false_iff in Hor as [H1' H2'].
      apply bool_decide_eq_false in H1', H2'. destruct Hpw; congruence. }
  enough (is_Some (snd (checkSchemaUpdate s))) as [err Herr].
  { exists err. unfold checkSchema. by destruct (checkSchemaUpdate s). }
  unfold checkSchemaUpdate.
  repeat match goal with
         | |- is_Some (snd (if ?c then _ else _)) => destruct c; [simpl; eauto|]
         end.
  destruct (SchemaUpdate.Unique s).
  - pose proof (validateSchemaForUnique_fields
                  (fst (State_Get false (SchemaUpdate.Predicate s))) s) as (Hp & Hv & Hl).
    destruct (validateSchemaForUnique _ s) as [s1 [err|]]; simpl in *; [eauto|].
    rewrite Hp, Htype. simpl. by apply Hconv.
  - simpl. rewrite Htype. simpl. by apply Hconv.
Qed.

(** X9: for a predicate without data (hasEdges at the maximal timestamp
    answers false) the check of the old type against the new one refuses a
    password change and nothing else: list to non-list and uid to scalar are
    then allowed. *)
Theorem no_data_only_password_refused (s : SchemaUpdate.t) (t : TypeID) :
  hasEdges (SchemaUpdate.Predicate s) MaxUint64 = false →
  (is_Some (checkConversion t s)
   ↔ IsScalar t = true
     ∧ (t = Posting_PASSWORD ∨ SchemaUpdate.ValueType s = Posting_PASSWORD)
     ∧ t ≠ SchemaUpdate.ValueType s).
Proof.
  intros Hnone. unfold checkConversion, Enum. rewrite Hnone.
  rewrite !andb_false_r.
  destruct (IsScalar t); simpl.
  - destruct (decide (t = Posting_PASSWORD)) as [Ht|Ht];
      destruct (decide (SchemaUpdate.ValueType s = Posting_PASSWORD)) as [Hs|Hs];
      rewrite ?(bool_decide_eq_true_2 _ Ht), ?(bool_decide_eq_false_2 _ Ht),
              ?(bool_decide_eq_true_2 _ Hs), ?(bool_decide_eq_false_2 _ Hs); simpl.
    1-3: destruct (decide (t = SchemaUpdate.ValueType s)) as [He|He];
         [ rewrite (bool_decide_eq_false_2 (t ≠ _)) by auto
         | rewrite (bool_decide_eq_true_2 (t ≠ _)) by auto ];
         split; [ intros [? [=]] | intros (_ & _ & ?); done
                | intros _; auto | eauto ].
    case_bool_decide; split; try (intros [? [=]]); intros (_ & [?|?] & _); done.
  - case_bool_decide; split; try (intros [? [=]]); intros ([=] & _).
Qed.
End SchemaValidationMore.

(** ** Mutation router *)

Section RouterMore.
Context `{!XPkg, !SchemaReader, !Cluster}.

Lemma typeSanityCheckFields_sane (fields : list SchemaUpdate.t) :
  typeSanityCheckFields fields = None ↔ Forall saneField fields.
Proof.
  induction fields as [|field rest IH]; simpl.
  - split; [constructor|done].
  - rewrite Forall_cons, <- IH. unfold saneField. clear IH.
    destruct (SchemaUpdate.Tokenizer field) as [|tok toks]; simpl;
      repeat case_bool_decide; simpl; try lia;
      (split; [try done; intros Hrest; by repeat split
              | try done; try (intros [(? & ? & ? & ?) ?]; done);
                try (intros [(? & Hobj & ? & ?) ?]; by destruct Hobj)]).
Qed.

(** X10: typeSanityCheck accepts a type update exactly when every field
    has a name, names its object type when its value type is OBJECT, and
    carries neither a directive nor tokenizers. *)
Theorem typeSanityCheck_accepts (t : TypeUpdate.t) :
  typeSanityCheck t = None ↔ Forall saneField (TypeUpdate.Fields t).
Proof. apply typeSanityCheckFields_sane. Qed.

Lemma collectFields_types (reqPredSet : gset string) (types : list TypeUpdate.t)
    (acc fields : list string) :
  collectFields reqPredSet types acc = Ok fields →
  ∀ t, t ∈ types → TypeUpdate.TypeName t ≠ "" ∧ typeSanityCheck t = None.
Proof.
  revert acc. induction types as [|t' rest IH]; intros acc Hc t Hin.
  - by apply not_elem_of_nil in Hin.
  - simpl in Hc. case_bool_decide as Hname; [done|].
    destruct (typeSanityCheck t') eqn:Hsane; [done|].
    destruct (fieldsNotInRequest _ _ _) as [acc'|]; [|done].
    apply elem_of_cons in Hin as [->|Hin]; [done|]. by eapply IH.
Qed.

Lemma fieldsResolve_fields (schemaSet reqPredSet : gset string) (typeName : string)
    (typeFields : list SchemaUpdate.t) :
  fieldsResolve schemaSet reqPredSet typeName typeFields = None →
  ∀ f, f ∈ typeFields →
    ∃ name, fieldName f = Ok name ∧ (name ∈ schemaSet ∨ name ∈ reqPredSet).
Proof.
  induction typeFields as [|f' rest IH]; intros Hr f Hin.
  - by apply not_elem_of_nil in Hin.
  - simpl in Hr. destruct (fieldName f') as [name|] eqn:Hname; [|done].
    destruct (negb (bool_decide (name ∈ schemaSet))
              && negb (bool_decide (name ∈ reqPredSet))) eqn:Hmiss; [done|].
    apply elem_of_cons in Hin as [->|Hin]; [|by apply IH].
    exists name. split; [done|].
    apply andb_false_iff in Hmiss as [Hm|Hm]; apply negb_false_iff, bool_decide_eq_true in Hm;
      auto.
Qed.

Lemma typesResolve_fields (schemaSet reqPredSet : gset string) (types : list TypeUpdate.t) :
  typesResolve schemaSet reqPredSet types = None →
  ∀ t f, t ∈ types → f ∈ TypeUpdate.Fields t →
    ∃ name, fieldName f = Ok name ∧ (name ∈ schemaSet ∨ name ∈ reqPredSet).
Proof.
  induction types as [|t' rest IH]; intros Hr t f Hin Hf.
  - by apply not_elem_of_nil in Hin.
  - simpl in Hr. destruct (fieldsResolve _ _ _ _) eqn:Hfields; [done|].
    apply elem_of_cons in Hin as [->|Hin]; [|by eapply IH].
    by eapply fieldsResolve_fields.
Qed.

(** X11: a batch that passes verifyTypes has, for every type update, a
    type name, fields that typeSanityCheck accepts, and for every field a
    predicate (without the tilde of a reverse edge) that is the predicate of
    a schema update of the batch or of a schema node fetched over the
    network. *)
Theorem verifyTypes_sound (m : Mutations.t) :
  verifyTypes m = None →
  ∃ fields schemas,
    GetSchemaOverNetwork fields = Ok schemas
    ∧ ∀ t, t ∈ Mutations.Types m →
        TypeUpdate.TypeName t ≠ ""
        ∧ Forall saneField (TypeUpdate.Fields t)
        ∧ ∀ f, f ∈ TypeUpdate.Fields t →
            ∃ name, fieldName f = Ok name
                    ∧ (name ∈ SchemaUpdate.Predicate <$> Mutations.Schema m
                       ∨ name ∈ schemas).
Proof.
  unfold verifyTypes.
  destruct (collectFields _ _ _) as [fields|] eqn:Hcollect; [|done].
  destruct (GetSchemaOverNetwork fields) as [schemas|] eqn:Hnet; [|done].
  intros Hresolve. exists fields, schemas. split; [done|].
  intros t Hin.
  destruct (collectFields_types _ _ _ _ Hcollect t Hin) as [Hname Hsane].
  split; [done|]. split; [by apply typeSanityCheckFields_sane|].
  intros f Hf.
  destruct (typesResolve_fields _ _ _ Hresolve t f Hin Hf) as (name & Hn & Hwhere).
  exists name. split; [done|].
  destruct Hwhere as [Hs|Hr];
    [right; by apply elem_of_list_to_set in Hs | left; by apply elem_of_list_to_set in Hr].
Qed.

Lemma fieldsNotInRequest_fields (reqPredSet : gset string)
    (typeFields : list SchemaUpdate.t) (acc fields : list string) :
  fieldsNotInRequest reqPredSet typeFields acc = Ok fields →
  ∀ name, name ∈ fields →
    name ∈ acc ∨ ((name ∉ reqPredSet) ∧ ∃ f, f ∈ typeFields ∧ fieldName f = Ok name).
Proof.
  revert acc. induction typeFields as [|f' rest IH]; intros acc; simpl.
  - intros [= <-]. auto.
  - destruct (fieldName f') as [name'|] eqn:Hname; [|done].
    intros Hrest name Hin. destruct (IH _ Hrest name Hin) as [Hacc | (Hnot & f & Hf & Hfn)].
    + case_bool_decide as Hreq; [by left|].
      apply elem_of_app in Hacc as [?|Hone]; [by left|].
      apply list_elem_of_singleton in Hone as ->.
      right. split; [done|]. exists f'. split; [apply list_elem_of_here|done].
    + right. split; [done|]. exists f. split; [by apply list_elem_of_further|done].
Qed.

(** X12: the predicates verifyTypes asks the network for are fields of the
    type updates of the batch, and none of them is the predicate of a schema
    update of the batch. *)
Theorem verifyTypes_fetches_only_missing (m : Mutations.t) (fields : list string) :
  collectFields (list_to_set (SchemaUpdate.Predicate <$> Mutations.Schema m))
                (Mutations.Types m) [] = Ok fields →
  ∀ name, name ∈ fields →
    (name ∉ SchemaUpdate.Predicate <$> Mutations.Schema m)
    ∧ ∃ t f, t ∈ Mutations.Types m ∧ f ∈ TypeUpdate.Fields t ∧ fieldName f = Ok name.
Proof.
  set (R := list_to_set (SchemaUpdate.Predicate <$> Mutations.Schema m) : gset string).
  assert (Hgen : ∀ types acc fields,
    collectFields R types acc = Ok fields →
    ∀ name, name ∈ fields →
      name ∈ acc ∨ ((name ∉ R) ∧ ∃ t f, t ∈ types ∧ f ∈ TypeUpdate.Fields t
                                       ∧ fieldName f = Ok name)).
  { induction types as [|t' rest IH]; intros acc fs; simpl.
    - intros [= <-]. auto.
    - case_bool_decide; [done|]. destruct (typeSanityCheck t'); [done|].
      destruct (fieldsNotInRequest R (TypeUpdate.Fields t') acc) as [acc'|] eqn:Hf; [|done].
      intros Hrest name Hin.
      destruct (IH _ _ Hrest name Hin) as [Hacc | (Hnot & t & f & Ht & Hf' & Hn)].
      + destruct (fieldsNotInRequest_fields _ _ _ _ Hf name Hacc)
          as [? | (Hnot & f & Hf' & Hn)]; [by left|].
        right. split; [done|]. exists t', f. split; [apply list_elem_of_here|done].
      + right. split; [done|]. exists t, f. split; [by apply list_elem_of_further|done]. }
  intros Hc name Hin.
  destruct (Hgen _ _ _ Hc name Hin) as [Hnil | (Hnot & Hex)].
  - by apply not_elem_of_nil in Hnil.
  - split; [|done]. intros Hreq. apply Hnot. by apply elem_of_list_to_set.
Qed.

(** X13: populateMutationMap returns a map exactly when the group lookup
    succeeds for the predicate of every edge and of every schema update. *)
Theorem populateMutationMap_succeeds_iff (src : Mutations.t) :
  (∃ mm, populateMutationMap src = Ok mm)
  ↔ (∀ e, e ∈ Mutations.Edges src → ∃ gid, BelongsTo (DirectedEdge.Attr e) = Ok gid)
    ∧ (∀ s, s ∈ Mutations.Schema src →
         ∃ gid, BelongsTo (SchemaUpdate.Predicate s) = Ok gid).
Proof.
  split.
  - intros [mm Hpop]. by eapply populateMutationMap_resolves.
  - intros [He Hs]. by apply populateMutationMap_total.
Qed.

Lemma placeEdges_dom md edges mm mm' gid :
  placeEdges md edges mm = Ok mm' → is_Some (mm' !! gid) →
  is_Some (mm !! gid) ∨ ∃ e, e ∈ edges ∧ BelongsTo (DirectedEdge.Attr e) = Ok gid.
Proof.
  revert mm. induction edges as [|e rest IH]; intros mm; simpl.
  - intros [= <-]. auto.
  - destruct (BelongsTo (DirectedEdge.Attr e)) as [g|] eqn:Hg; [|done].
    intros Hrest Hsome. destruct (IH _ Hrest Hsome) as [Hin | (e' & He' & Hown)].
    + rewrite upsertGroup_lookup in Hin. destruct (decide (g = gid)) as [->|]; [|by left].
      right. exists e. split; [apply list_elem_of_here|done].
    + right. exists e'. split; [by apply list_elem_of_further|done].
Qed.

Lemma placeSchema_dom schemas mm mm' gid :
  placeSchema schemas mm = Ok mm' → is_Some (mm' !! gid) →
  is_Some (mm !! gid) ∨ ∃ s, s ∈ schemas ∧ BelongsTo (SchemaUpdate.Predicate s) = Ok gid.
Proof.
  revert mm. induction schemas as [|s rest IH]; intros mm; simpl.
  - intros [= <-]. auto.
  - destruct (BelongsTo (SchemaUpdate.Predicate s)) as [g|] eqn:Hg; [|done].
    intros Hrest Hsome. destruct (IH _ Hrest Hsome) as [Hin | (s' & Hs' & Hown)].
    + rewrite upsertGroup_lookup in Hin. destruct (decide (g = gid)) as [->|]; [|by left].
      right. exists s. split; [apply list_elem_of_here|done].
    + right. exists s'. split; [by apply list_elem_of_further|done].
Qed.

(** X14: the groups populateMutationMap makes an entry for are the owners
    of the edges and schema updates of the batch and, when the batch drops
    something or carries type updates, the known groups; no other group gets
    a mutation. *)
Theorem populateMutationMap_groups (src : Mutations.t) (mm : gmap N Mutations.t)
    (gid : N) :
  populateMutationMap src = Ok mm →
  (is_Some (mm !! gid)
   ↔ (∃ e, e ∈ Mutations.Edges src ∧ BelongsTo (DirectedEdge.Attr e) = Ok gid)
     ∨ (∃ s, s ∈ Mutations.Schema src ∧ BelongsTo (SchemaUpdate.Predicate s) = Ok gid)
     ∨ ((Mutations.DropOp src > 0 ∨ Mutations.Types src ≠ []) ∧ gid ∈ KnownGroups)).
Proof.
  intros Hpop. pose proof (populateMutationMap_Partitioned _ _ Hpop) as Hp.
  revert Hpop. unfold populateMutationMap.
  destruct (placeEdges _ _ ∅) as [mm1|] eqn:He; [|done].
  destruct (placeSchema _ mm1) as [mm2|] eqn:Hs; [|done].
  intros [= Hmm].
  assert (Htypes : (0 < length (Mutations.Types src))%nat ↔ Mutations.Types src ≠ []).
  { destruct (Mutations.Types src); simpl; split; intros; try done; lia. }
  split.
  - intros Hsome. rewrite <- Hmm in Hsome.
    assert (H2 : is_Some (mm2 !! gid)
                 ∨ (Mutations.DropOp src > 0 ∨ Mutations.Types src ≠ []) ∧ gid ∈ KnownGroups).
    { revert Hsome.
      destruct (bool_decide (Mutations.DropOp src > 0)) eqn:Hd;
        destruct (bool_decide (0 < length (Mutations.Types src))%nat) eqn:Ht;
        rewrite ?toKnownGroups_lookup by done;
        destruct (decide (gid ∈ KnownGroups)) as [Hk|Hk]; intros Hsome;
        try (by left); right; (split; [|done]);
        first [ left; by apply bool_decide_eq_true in Hd
              | right; apply Htypes; by apply bool_decide_eq_true in Ht ]. }
    destruct H2 as [Hin2|?]; [|auto].
    destruct (placeSchema_dom _ _ _ _ Hs Hin2) as [Hin1|?]; [|auto].
    destruct (placeEdges_dom _ _ _ _ _ He Hin1) as [Hin0|?]; [|auto].
    rewrite lookup_empty in Hin0. by destruct Hin0.
  - intros [(e & Hin & Hown) | [(s & Hin & Hown) | [Hall Hknown]]].
    + destruct (Partitioned_edge_owner _ _ _ _ _ Hp Hin Hown) as (mu & -> & _). eauto.
    + destruct (Partitioned_schema_owner _ _ _ _ _ Hp Hin Hown) as (mu & -> & _). eauto.
    + rewrite <- Hmm. destruct Hall as [Hdrop|Hty].
      * rewrite (bool_decide_eq_true_2 _ Hdrop).
        case_bool_decide; rewrite !toKnownGroups_lookup by done;
          rewrite !decide_True by done; eauto.
      * apply Htypes in Hty. rewrite (bool_decide_eq_true_2 _ Hty).
        rewrite toKnownGroups_lookup by done. rewrite decide_True by done. eauto.
Qed.

Lemma placeEdges_Fresh md edges mm mm' :
  placeEdges md edges mm = Ok mm' → Fresh md mm → Fresh md mm'.
Proof.
  revert mm. induction edges as [|e rest IH]; intros mm; simpl.
  - by intros [= <-].
  - destruct (BelongsTo (DirectedEdge.Attr e)) as [g|]; [|done].
    intros Hrest Hf. eapply IH; [done|]. intros gid mu.
    rewrite upsertGroup_lookup. destruct (decide (g = gid)) as [->|]; [|by apply Hf].
    intros [= <-]. destruct (mm !! gid) as [mu0|] eqn:Hmu0; simpl.
    + destruct (Hf _ _ Hmu0) as (? & ? & ? & ? & ?).
      repeat split; try done. by destruct (Mutations.Edges mu0).
    + done.
Qed.

Lemma placeSchema_Fresh md schemas mm mm' :
  placeSchema schemas mm = Ok mm' → Fresh md mm → Fresh md mm'.
Proof.
  revert mm. induction schemas as [|sc rest IH]; intros mm; simpl.
  - by intros [= <-].
  - destruct (BelongsTo (SchemaUpdate.Predicate sc)) as [g|]; [|done].
    intros Hrest Hf. eapply IH; [done|]. intros gid mu.
    rewrite upsertGroup_lookup. destruct (decide (g = gid)) as [->|]; [|by apply Hf].
    intros [= <-]. destruct (mm !! gid) as [mu0|] eqn:Hmu0; simpl.
    + by destruct (Hf _ _ Hmu0) as (? & ? & ? & ? & ?).
    + done.
Qed.

(** X15: in the mutation populateMutationMap makes for a group, the start
    timestamp is not set yet, the metadata of the batch is there exactly when
    the group gets an edge, and the drop operation and the type updates are
    those of the batch for a known group and absent for any other group,
    also when that group owns an edge or a schema update. *)
Theorem populateMutationMap_fields (src : Mutations.t) (mm : gmap N Mutations.t)
    (gid : N) (mu : Mutations.t) :
  populateMutationMap src = Ok mm →
  mm !! gid = Some mu →
  Mutations.StartTs mu = 0%N
  ∧ Mutations.Metadata mu
    = match Mutations.Edges mu with [] => None | _ => Mutations.Metadata src end
  ∧ (gid ∈ KnownGroups →
     Mutations.Types mu = Mutations.Types src
     ∧ (Mutations.DropOp src > 0 →
        Mutations.DropOp mu = Mutations.DropOp src
        ∧ Mutations.DropValue mu = Mutations.DropValue src)
     ∧ (Mutations.DropOp src ≤ 0 → Mutations.DropOp mu = 0 ∧ Mutations.DropValue mu = ""))
  ∧ (gid ∉ KnownGroups →
     Mutations.Types mu = [] ∧ Mutations.DropOp mu = 0 ∧ Mutations.DropValue mu = "").
Proof.
  unfold populateMutationMap.
  destruct (placeEdges _ _ ∅) as [mm1|] eqn:He; [|done].
  destruct (placeSchema _ mm1) as [mm2|] eqn:Hs; [|done].
  assert (Hf : Fresh (Mutations.Metadata src) mm2).
  { eapply placeSchema_Fresh; [done|]. eapply placeEdges_Fresh; [done|].
    intros g m0. by rewrite lookup_empty. }
  assert (Hnew : ∀ mu0, default (Mutations.new gid) (mm2 !! gid) = mu0 →
            Mutations.StartTs mu0 = 0%N ∧ Mutations.DropOp mu0 = 0
            ∧ Mutations.DropValue mu0 = "" ∧ Mutations.Types mu0 = []
            ∧ Mutations.Metadata mu0
              = match Mutations.Edges mu0 with [] => None | _ => Mutations.Metadata src end).
  { intros mu0 <-. destruct (mm2 !! gid) as [m0|] eqn:Hm0; simpl; [by eapply Hf|done]. }
  destruct (Hnew _ eq_refl) as (Hts & Hop & Hval & Hty & Hmd).
  intros [= <-].
  destruct (bool_decide (Mutations.DropOp src > 0)) eqn:Hd;
    destruct (bool_decide (0 < length (Mutations.Types src))%nat) eqn:Ht;
    rewrite ?toKnownGroups_lookup by done;
    destruct (decide (gid ∈ KnownGroups)) as [Hk|Hk];
    try apply bool_decide_eq_true in Hd; try apply bool_decide_eq_false in Hd;
    try apply bool_decide_eq_true in Ht; try apply bool_decide_eq_false in Ht;
    intros Hmu;
    try (injection Hmu as <-; simpl);
    try (destruct (Hf _ _ Hmu) as (? & ? & ? & ? & ?));
    (split; [done|]); (split; [done|]); (split; intros Hin; [|done || by destruct Hin]);
    try (by destruct Hk);
    (split; [|split; [intros; done || lia | intros; done || lia]]);
    try done;
    destruct (Mutations.Types src); simpl in *; done || lia.
Qed.

Lemma collectReplies_fold (replies : list res.t) (acc : TxnContext.t * option error) :
  foldl collectReply acc replies
  = (TxnContext.mk (TxnContext.StartTs acc.1) (TxnContext.CommitTs acc.1)
       (TxnContext.Aborted acc.1)
       (TxnContext.Keys acc.1 ++ concat (replyKeys <$> replies))
       (TxnContext.Preds acc.1 ++ concat (replyPreds <$> replies)),
     match last (omap res.err replies) with
     | Some err => Some err
     | None => acc.2
     end).
Proof.
  revert acc. induction replies as [|r rest IH]; intros [[st ct ab ks ps] e].
  - simpl. by rewrite !app_nil_r.
  - cbn [foldl]. rewrite IH. destruct r as [err ctx]. unfold replyKeys, replyPreds.
    destruct ctx as [c|], err as [x|]; cbn -[last];
      rewrite ?app_nil_r, <- ?(assoc_L (++)), ?last_cons;
      by destruct (last (omap res.err rest)).
Qed.

(** X16: what the loop over the replies of MutateOverNetwork returns: the
    keys and the predicates of the replies, each list appended in the order
    the replies arrive, behind those the context had; the error of the last
    reply that carries one; start and commit timestamp and the abort flag
    are never taken from a reply. *)
Theorem collectReplies_aggregates (tctx : TxnContext.t) (replies : list res.t) :
  collectReplies tctx replies
  = (TxnContext.mk (TxnContext.StartTs tctx) (TxnContext.CommitTs tctx)
       (TxnContext.Aborted tctx)
       (TxnContext.Keys tctx ++ concat (replyKeys <$> replies))
       (TxnContext.Preds tctx ++ concat (replyPreds <$> replies)),
     last (omap res.err replies)).
Proof.
  unfold collectReplies. rewrite collectReplies_fold. simpl.
  by destruct (last (omap res.err replies)).
Qed.

(** The transaction context MutateOverNetwork returns carries the
    start timestamp of the batch, no commit timestamp and no abort mark,
    whether the call fails or not and whatever the groups reply. *)
Lemma MutateOverNetwork_context (arrival : list res.t → list res.t) (m : Mutations.t) :
  TxnContext.StartTs (fst (MutateOverNetwork arrival m)) = Mutations.StartTs m
  ∧ TxnContext.CommitTs (fst (MutateOverNetwork arrival m)) = 0%N
  ∧ TxnContext.Aborted (fst (MutateOverNetwork arrival m)) = false.
Proof.
  unfold MutateOverNetwork, collectReplies.
  destruct (verifyTypes m); [done|].
  destruct (populateMutationMap m) as [mm|]; [|done].
  case_bool_decide; [done|]. by rewrite collectReplies_fold.
Qed.




Lemma concat_fmap_Permutation {A B} (f : A → list B) (l1 l2 : list A) :
  l1 ≡ₚ l2 → concat (f <$> l1) ≡ₚ concat (f <$> l2).
Proof.
  induction 1 as [|x l1 l2 _ IH|x y l|l1 l2 l3 _ IH1 _ IH2]; simpl.
  - done.
  - by rewrite IH.
  - rewrite !(assoc_L (++)). f_equiv. apply Permutation_app_comm.
  - by rewrite IH1.
Qed.

Lemma last_omap_err_None (l : list res.t) :
  last (omap res.err l) = None ↔ ∀ r, r ∈ l → res.err r = None.
Proof.
  rewrite last_None. induction l as [|r l IH]; simpl.
  - split; [by intros _ r ?%not_elem_of_nil|done].
  - destruct (res.err r) as [err|] eqn:Herr.
    + split; [done|]. intros Hall. specialize (Hall r (list_elem_of_here _ _)). congruence.
    + rewrite IH. split.
      * intros Hall r' [->|?]%elem_of_cons; auto.
      * intros Hall r' ?. by apply Hall, list_elem_of_further.
Qed.

(** X18: the order in which the replies arrive changes neither whether
    MutateOverNetwork fails nor which keys and predicates it returns, only
    their order (and which of several errors is returned). *)
Theorem MutateOverNetwork_arrival_order (arrival1 arrival2 : list res.t → list res.t)
    (m : Mutations.t) :
  (∀ l, arrival1 l ≡ₚ l) → (∀ l, arrival2 l ≡ₚ l) →
  TxnContext.Keys (fst (MutateOverNetwork arrival1 m))
    ≡ₚ TxnContext.Keys (fst (MutateOverNetwork arrival2 m))
  ∧ TxnContext.Preds (fst (MutateOverNetwork arrival1 m))
    ≡ₚ TxnContext.Preds (fst (MutateOverNetwork arrival2 m))
  ∧ (snd (MutateOverNetwork arrival1 m) = None ↔ snd (MutateOverNetwork arrival2 m) = None).
Proof.
  intros Harr1 Harr2. unfold MutateOverNetwork.
  destruct (verifyTypes m); [done|].
  destruct (populateMutationMap m) as [mm|]; [|done].
  case_bool_decide; [done|].
  unfold collectReplies. rewrite !collectReplies_fold. simpl.
  assert (Hp : arrival1 (dispatched m mm) ≡ₚ arrival2 (dispatched m mm)).
  { by rewrite Harr1, Harr2. }
  split; [by apply concat_fmap_Permutation|].
  split; [by apply concat_fmap_Permutation|].
  assert (Hnone : ∀ l : list res.t,
    match last (omap res.err l) with Some err => Some err | None => None end = None
    ↔ ∀ r, r ∈ l → res.err r = None).
  { intros l. rewrite <- last_omap_err_None. by destruct (last (omap res.err l)). }
  rewrite !Hnone. split; intros Hall r Hr; apply Hall.
  - by rewrite Hp.
  - by rewrite <- Hp.
Qed.

Lemma strictCheck_error (edges : list DirectedEdge.t) :
  (∃ e err, e ∈ edges ∧ State_TypeOf (DirectedEdge.Attr e) = Err err) →
  ∃ e err, e ∈ edges ∧ State_TypeOf (DirectedEdge.Attr e) = Err err
           ∧ strictCheck edges = Some err.
Proof.
  induction edges as [|e' rest IH]; intros (e & err & Hin & Herr).
  - by apply not_elem_of_nil in Hin.
  - simpl. destruct (State_TypeOf (DirectedEdge.Attr e')) as [t|err'] eqn:Ht.
    + apply elem_of_cons in Hin as [->|Hin]; [congruence|].
      destruct IH as (e0 & err0 & ? & ? & ?); [eauto|].
      exists e0, err0. split; [by apply list_elem_of_further|done].
    + exists e', err'. split; [apply list_elem_of_here|done].
Qed.

(** X19: on a node that runs with strict mutations, a mutation with an
    edge on a predicate whose type the schema state does not know is
    refused: proposeAndWait returns the error of the type lookup of such an
    edge and leaves the transaction context as it was. *)
Theorem proposeAndWait_strict (txnCtx : TxnContext.t) (m : Mutations.t)
    (e : DirectedEdge.t) (err : error) :
  WorkerConfig_StrictMutations = true →
  e ∈ Mutations.Edges m →
  State_TypeOf (DirectedEdge.Attr e) = Err err →
  ∃ e' err', e' ∈ Mutations.Edges m
             ∧ State_TypeOf (DirectedEdge.Attr e') = Err err'
             ∧ proposeAndWait txnCtx m = (txnCtx, Some err').
Proof.
  intros Hstrict Hin Herr.
  destruct (strictCheck_error (Mutations.Edges m)) as (e' & err' & ? & ? & Hcheck); [eauto|].
  exists e', err'. split; [done|]. split; [done|].
  unfold proposeAndWait. by rewrite Hstrict, Hcheck.
Qed.

(** For a group this node serves, the reply MutateOverNetwork gets
    from proposeOrSend is what the mutation service Mutate of the node
    answers to the same mutation under a live context: the short cut and the
    call over the network agree. *)
Lemma dispatched_local_is_Mutate (m : Mutations.t) (mm : gmap N Mutations.t)
    (gid : N) (mu : Mutations.t) :
  populateMutationMap m = Ok mm →
  mm !! gid = Some mu →
  ServesGroup gid = true →
  let sent := Mutations.setStartTs (Mutations.StartTs m) mu in
  proposeOrSend gid sent = res.mk (snd (Mutate None sent)) (Some (fst (Mutate None sent))).
Proof.
  intros Hpop Hmu Hserves sent.
  pose proof (populateMutationMap_Partitioned _ _ Hpop gid) as Hp.
  rewrite Hmu in Hp. destruct Hp as (Hgid & _).
  unfold proposeOrSend, Mutate. rewrite Hserves.
  assert (Mutations.GroupId sent = gid) as -> by done.
  rewrite Hserves. simpl. by destruct (proposeAndWait TxnContext.zero sent).
Qed.
End RouterMore.

(** ** Edge applier *)

Section EdgeApplierMore.
Context `{!XPkg, !TypesPkg, !PostingTypeOf, !SchemaReader}.
Context {Txn PList : Type} `{!PostingStore Txn PList}.

(** X20: whenever runMutation returns without error, or has changed the
    transaction, the edge passed ValidateAndConvert against the schema of the
    lookup, and the edge it leaves is the converted one; in every other case
    it returns an error and the transaction is as it was. *)
Theorem runMutation_validated (edge edge' : DirectedEdge.t) (txn txn' : Txn)
    (err : option error) :
  runMutation edge txn = (txn', edge', err) →
  (txn' = txn ∧ is_Some err)
  ∨ ValidateAndConvert edge (fst (State_Get true (DirectedEdge.Attr edge))) = (edge', None).
Proof.
  unfold runMutation.
  destruct (State_Get true (DirectedEdge.Attr edge)) as [su ok]. simpl.
  destruct (bool_decide _ && negb ok); [intros [= <- <- <-]; eauto|].
  unfold applyEdge.
  destruct (isDeletePredicateEdge edge); [intros [= <- <- <-]; eauto|].
  destruct (ValidateAndConvert edge su) as [e1 [verr|]]; [intros [= <- <- <-]; eauto|].
  destruct (callGet _ _ txn) as [txn1 [plist|gerr]].
  - destruct (AddMutationWithIndex plist e1 txn1). intros [= <- <- <-]. by right.
  - intros [= <- <- <-]. by right.
Qed.
End EdgeApplierMore.

(** ** Commit through Zero *)

Section CommitMore.
Context `{!Cluster, !ZeroEnv}.

(** X21: CommitOverNetwork returns a commit timestamp other than 0 exactly
    when it returns no error; a reply of Zero without commit timestamp, or
    marked aborted, becomes the error of an aborted transaction. *)
Theorem CommitOverNetwork_timestamp (tc : TxnContext.t) (st : Stats.t) :
  let '(_, _, ts, err) := CommitOverNetwork tc st in
  (err = None ↔ ts ≠ 0%N)
  ∧ (∀ pl tctx, Leader 0%N = Some pl →
       Zero_CommitOrAbort pl
         (TxnContext.mk (TxnContext.StartTs tc) (TxnContext.CommitTs tc)
            (TxnContext.Aborted tc) (x_Unique (TxnContext.Keys tc))
            (x_Unique (TxnContext.Preds tc))) = Ok tctx →
       if TxnContext.Aborted tctx || (TxnContext.CommitTs tctx =? 0)%N
       then err = Some ErrAborted
       else err = None ∧ ts = TxnContext.CommitTs tctx).
Proof.
  unfold CommitOverNetwork.
  destruct (Leader 0%N) as [pl|]; [|by split].
  destruct (Zero_CommitOrAbort pl _) as [tctx|zerr] eqn:Hz.
  - destruct (TxnContext.Aborted tctx) eqn:Hab; simpl.
    + split; [done|]. intros ? ? [= <-]. rewrite Hz. intros [= <-]. by rewrite Hab.
    + destruct (N.eqb_spec (TxnContext.CommitTs tctx) 0) as [Hzero|Hpos].
      * split; [done|]. intros ? ? [= <-]. rewrite Hz. intros [= <-].
        rewrite Hab. simpl. by rewrite Hzero.
      * split; [done|]. intros ? ? [= <-]. rewrite Hz. intros [= <-].
        rewrite Hab. simpl. by destruct (N.eqb_spec (TxnContext.CommitTs tctx) 0).
  - split; [done|]. intros ? ? [= <-]. by rewrite Hz.
Qed.

(** X22: the counters of CommitOverNetwork: a discard is counted exactly
    for a context the client marked aborted, also when Zero cannot be
    reached; a commit exactly when the call returns no error; an abort only
    for a transaction the client did not discard and with the error of an
    aborted transaction, never together with a discard or a commit. *)
Theorem CommitOverNetwork_counters (tc : TxnContext.t) (st : Stats.t) :
  let '(_, st', _, err) := CommitOverNetwork tc st in
  Stats.TxnDiscards st'
    = (Stats.TxnDiscards st + if TxnContext.Aborted tc then 1 else 0)%nat
  ∧ Stats.TxnCommits st'
    = (Stats.TxnCommits st + match err with None => 1 | Some _ => 0 end)%nat
  ∧ (Stats.TxnAborts st' = Stats.TxnAborts st
     ∨ Stats.TxnAborts st' = S (Stats.TxnAborts st)
       ∧ TxnContext.Aborted tc = false ∧ err = Some ErrAborted).
Proof.
  unfold CommitOverNetwork.
  destruct (Leader 0%N) as [pl|];
    [destruct (Zero_CommitOrAbort pl _) as [tctx|zerr];
       [destruct (TxnContext.Aborted tctx || (TxnContext.CommitTs tctx =? 0)%N)|]|];
    destruct (TxnContext.Aborted tc); simpl; repeat split; try lia; auto.
Qed.
End CommitMore.

(** ** Schema creation and type updates *)

Section SchemaCreationMore.
Context `{!XPkg, !KVStore, !RebuildEnv, !NodeEnv}.

Lemma updateSchema_world (s : SchemaUpdate.t) (ts : N) (w w' : World.t)
    (err : option error) :
  updateSchema s ts w = (w', err) →
  World.predicate w' = <[SchemaUpdate.Predicate s := s]> (World.predicate w)
  ∧ World.mutSchema w' = delete (SchemaUpdate.Predicate s) (World.mutSchema w)
  ∧ World.durable w'
    = match err with
      | None => <[SchemaUpdate.Predicate s := s]> (World.durable w)
      | Some _ => World.durable w
      end.
Proof.
  unfold updateSchema.
  destruct (Txn_SetEntry _ ts); [by intros [= <- <-]|].
  destruct (Txn_CommitAt _ ts); by intros [= <- <-].
Qed.

Lemma checkSchemaUpdate_view (sr : SchemaReader) (s s' : SchemaUpdate.t)
    (err : option error) :
  @checkSchemaUpdate _ sr _ s = (s', err) →
  SchemaUpdate.Predicate s' = SchemaUpdate.Predicate s
  ∧ SchemaUpdate.ValueType s' = SchemaUpdate.ValueType s
  ∧ SchemaUpdate.Directive s' = SchemaUpdate.Directive s
  ∧ SchemaUpdate.Tokenizer s' = SchemaUpdate.Tokenizer s
  ∧ SchemaUpdate.Count s' = SchemaUpdate.Count s
  ∧ SchemaUpdate.List s' = SchemaUpdate.List s
  ∧ SchemaUpdate.Lang s' = SchemaUpdate.Lang s
  ∧ SchemaUpdate.Unique s' = SchemaUpdate.Unique s
  ∧ SchemaUpdate.ObjectTypeName s' = SchemaUpdate.ObjectTypeName s
  ∧ (s' = s ∨ SchemaUpdate.Unique s = true ∧ SchemaUpdate.Upsert s' = true).
Proof.
  intros Hcheck.
  destruct (@checkSchemaUpdate_upsert_only _ sr _ s) as [Hs | [Hu Hs]];
    rewrite Hcheck in Hs; simpl in Hs; subst s'; repeat split; auto.
Qed.

(** X23: a createSchema that fails, in the check or in the write, leaves
    the schema records of the store as they were. *)
Theorem createSchema_failure_keeps_store (attr : string) (typ : TypeID)
    (hint : Metadata_HintType) (ts : N) (w w' : World.t) (err : error) :
  createSchema attr typ hint ts w = (w', Some err) →
  World.durable w' = World.durable w.
Proof.
  unfold createSchema.
  destruct (@State_Get (view w) true attr) as [s0 ok].
  destruct (checkSchemaUpdate _) as [s1 [cerr|]]; [by intros [= <- _]|].
  intros Hupd. by apply updateSchema_world in Hupd as (_ & _ & ->).
Qed.

(** X24: createSchema on a predicate without schema commits, in memory
    and in the store, a schema of the type written that has no directive,
    tokenizer, count, upsert, language or unique mark, and is a list exactly
    when the hint says list, or says nothing and the type is uid. *)
Theorem createSchema_new_predicate (attr : string) (typ : TypeID)
    (hint : Metadata_HintType) (ts : N) (w w' : World.t) :
  snd (@State_Get (view w) true attr) = false →
  createSchema attr typ hint ts w = (w', None) →
  ∃ s, World.predicate w' = <[attr := s]> (World.predicate w)
       ∧ World.durable w' = <[attr := s]> (World.durable w)
       ∧ SchemaUpdate.Predicate s = attr
       ∧ SchemaUpdate.ValueType s = Enum typ
       ∧ (SchemaUpdate.List s = true
          ↔ hint = Metadata_LIST ∨ (hint = Metadata_DEFAULT ∧ typ = UidID))
       ∧ SchemaUpdate.Directive s = SchemaUpdate_NONE
       ∧ SchemaUpdate.Tokenizer s = []
       ∧ SchemaUpdate.Count s = false ∧ SchemaUpdate.Upsert s = false
       ∧ SchemaUpdate.Lang s = false ∧ SchemaUpdate.Unique s = false.
Proof.
  unfold createSchema.
  destruct (@State_Get (view w) true attr) as [s0 ok]. simpl. intros ->.
  destruct (checkSchemaUpdate _) as [s1 [cerr|]] eqn:Hcheck; [done|].
  apply checkSchemaUpdate_view in Hcheck as (_ & _ & _ & _ & _ & _ & _ & _ & _ & Hs1).
  destruct Hs1 as [-> | [Hu _]]; [|done].
  intros Hupd. apply updateSchema_world in Hupd as (Hp & _ & Hd). simpl in Hp, Hd.
  exists (schemaFor attr typ hint). repeat split; try done.
  - simpl. destruct hint; [|done|auto]. intros Hl%bool_decide_eq_true. auto.
  - simpl. intros [-> | [-> ->]]; [done|]. by apply bool_decide_eq_true.
Qed.

(** X25: createSchema on a predicate that has a schema (say one that
    only holds access-control settings) ignores the hint and commits that
    schema with the type written: directive, tokenizers and every flag are
    kept, but for upsert, which the unique directive forces on. *)
Theorem createSchema_existing_predicate (attr : string) (typ : TypeID)
    (hint : Metadata_HintType) (ts : N) (w w' : World.t) (s0 : SchemaUpdate.t) :
  @State_Get (view w) true attr = (s0, true) →
  createSchema attr typ hint ts w = (w', None) →
  ∃ s, World.predicate w' = <[SchemaUpdate.Predicate s0 := s]> (World.predicate w)
       ∧ World.durable w' = <[SchemaUpdate.Predicate s0 := s]> (World.durable w)
       ∧ SchemaUpdate.Predicate s = SchemaUpdate.Predicate s0
       ∧ SchemaUpdate.ValueType s = Enum typ
       ∧ SchemaUpdate.Directive s = SchemaUpdate.Directive s0
       ∧ SchemaUpdate.Tokenizer s = SchemaUpdate.Tokenizer s0
       ∧ SchemaUpdate.Count s = SchemaUpdate.Count s0
       ∧ SchemaUpdate.List s = SchemaUpdate.List s0
       ∧ SchemaUpdate.Lang s = SchemaUpdate.Lang s0
       ∧ SchemaUpdate.Unique s = SchemaUpdate.Unique s0
       ∧ (SchemaUpdate.Upsert s = SchemaUpdate.Upsert s0
          ∨ SchemaUpdate.Unique s0 = true ∧ SchemaUpdate.Upsert s = true).
Proof.
  unfold createSchema. intros ->.
  destruct (checkSchemaUpdate _) as [s1 [cerr|]] eqn:Hcheck; [done|].
  apply checkSchemaUpdate_view in Hcheck
    as (Hp & Hv & Hdir & Htok & Hc & Hl & Hlang & Hu & _ & Hs1).
  intros Hupd. apply updateSchema_world in Hupd as (Hpred & _ & Hd).
  rewrite Hp in Hpred, Hd. simpl in *.
  exists s1. repeat split; try done.
  destruct Hs1 as [-> | [? ?]]; auto.
Qed.
End SchemaCreationMore.

Section TypeMutationMore.
Context `{!TypeStoreEnv}.

(** X26: runTypeMutation publishes the type in memory whether the write
    succeeds or not, and there is no way back: after a write that fails the
    schema state holds the update and the store the record it had; no other
    type is touched. *)
Theorem runTypeMutation_outcome (update : TypeUpdate.t) (ts : N) (w : TypeWorld.t) :
  let '(w', err) := runTypeMutation update ts w in
  TypeWorld.types w' = <[TypeUpdate.TypeName update := update]> (TypeWorld.types w)
  ∧ TypeWorld.durable w'
    = match err with
      | None => <[TypeUpdate.TypeName update := update]> (TypeWorld.durable w)
      | Some _ => TypeWorld.durable w
      end.
Proof.
  unfold runTypeMutation, updateType.
  destruct (TypeTxn_SetEntry _ ts); [|destruct (TypeTxn_CommitAt _ ts)];
    simpl; by rewrite insert_insert_eq.
Qed.
End TypeMutationMore.

(** ** Schema mutation coordinator *)

Section SchemaCommitMore.
Context `{!RebuildEnv}.

Lemma agreeOutside_refl (P : string → Prop) (w : World.t) : agreeOutside P w w.
Proof. by intros p _. Qed.

Lemma agreeOutside_trans (P : string → Prop) (w1 w2 w3 : World.t) :
  agreeOutside P w1 w2 → agreeOutside P w2 w3 → agreeOutside P w1 w3.
Proof.
  intros H12 H23 p Hp. destruct (H12 p Hp) as (? & ? & ?), (H23 p Hp) as (? & ? & ?).
  repeat split; congruence.
Qed.

Lemma agreeOutside_weaken (P Q : string → Prop) (w w' : World.t) :
  (∀ p, P p → Q p) → agreeOutside P w w' → agreeOutside Q w w'.
Proof. intros HPQ Hagree p Hp. apply Hagree. auto. Qed.

Lemma schema_Load_outside (pred : string) (w w' : World.t) (r : option error) :
  schema_Load pred w = (w', r) → agreeOutside (λ p, p = pred) w w'.
Proof.
  unfold schema_Load.
  destruct (Load_result pred (World.loads w)); intros [= <- <-] p Hp; simpl; [done|].
  rewrite lookup_delete_ne by done.
  destruct (World.durable w !! pred);
    [rewrite lookup_insert_ne by done | rewrite lookup_delete_ne by done]; done.
Qed.

Lemma retryLoop_outside (pred : string) (retry : nat) (wait : N) (err : option error)
    (w w' : World.t) (r : option error) :
  retryLoop retry wait (schema_Load pred) err w = (w', r) →
  agreeOutside (λ p, p = pred) w w'.
Proof.
  revert err w. induction retry as [|retry IH]; intros err w; simpl.
  - intros [= <- <-]. apply agreeOutside_refl.
  - destruct (schema_Load pred w) as [w1 [e|]] eqn:Hload.
    + intros Hloop. apply IH in Hloop. apply schema_Load_outside in Hload.
      eapply agreeOutside_trans; [done|].
      intros p Hp. by destruct (Hloop p Hp).
    + intros [= <- <-]. by eapply schema_Load_outside.
Qed.

Lemma undoSchemaUpdate_outside (pred : string) (w w' : World.t) (ex : exit) :
  undoSchemaUpdate pred w = (w', ex) →
  agreeOutside (λ p, p = pred) w w' ∧ World.durable w' = World.durable w.
Proof.
  unfold undoSchemaUpdate, RetryUntilSuccess.
  destruct (retryLoop _ _ _ _ _) as [w1 r] eqn:Hloop.
  pose proof (retryLoop_outside _ _ _ _ _ _ _ Hloop).
  apply retryLoop_Load in Hloop as [Hd _].
  by destruct r; intros [= <- <-].
Qed.

Lemma updateSchema_outside (s : SchemaUpdate.t) (ts : N) (w w' : World.t)
    (err : option error) :
  updateSchema s ts w = (w', err) →
  agreeOutside (λ p, p = SchemaUpdate.Predicate s) w w'.
Proof.
  unfold updateSchema.
  destruct (Txn_SetEntry _ ts); [|destruct (Txn_CommitAt _ ts)];
    intros [= <- <-] p Hp; simpl;
    rewrite ?lookup_insert_ne, ?lookup_delete_ne by done; done.
Qed.

Lemma buildIndexes_outside (update : SchemaUpdate.t) (rebuild : IndexRebuild.t)
    (w w' : World.t) (ex : exit) :
  buildIndexes update rebuild w = (w', ex) →
  agreeOutside (λ p, p = SchemaUpdate.Predicate update) w w'.
Proof.
  unfold buildIndexes, buildIndexesHelper.
  destruct (BuildIndexes rebuild).
  - intros Hundo. by apply undoSchemaUpdate_outside in Hundo as [? _].
  - destruct (updateSchema _ _ w) as [w1 [err|]] eqn:Hupd.
    + intros Hundo. apply undoSchemaUpdate_outside in Hundo as [? _].
      apply updateSchema_outside in Hupd. by eapply agreeOutside_trans.
    + intros [= <- <-]. by eapply updateSchema_outside.
Qed.
End SchemaCommitMore.

Section CoordinatorMore.
Context `{!XPkg, !KVStore, !RebuildEnv, !NodeEnv}.
Variable updates : list SchemaUpdate.t.
Variable startTs : N.

(** X27: stopIndexing is a one-shot: a call changes the state only when
    no predicate is being indexed and [done] is not set, and then it sets
    [done]; once [done] is set no call changes anything, whichever closer
    it is made with; and a call right after another changes nothing. *)
Theorem stopIndexing_one_shot (c c' : bool) (s : Coord.t) :
  (stopIndexing c s = s
   ∨ (IndexingInProgress (Coord.world s) = false ∧ Coord.done s = false
      ∧ Coord.done (stopIndexing c s) = true))
  ∧ (Coord.done s = true → stopIndexing c s = s)
  ∧ stopIndexing c' (stopIndexing c s) = stopIndexing c s.
Proof.
  split; [|split].
  - unfold stopIndexing.
    destruct (IndexingInProgress (Coord.world s)), (Coord.done s); simpl; auto.
  - intros Hdone. unfold stopIndexing. by rewrite Hdone, andb_false_r.
  - unfold stopIndexing at 2 3.
    destruct (negb (IndexingInProgress (Coord.world s)) && negb (Coord.done s)) eqn:Hfire.
    + unfold stopIndexing, closer_Done. simpl. by rewrite andb_false_r.
    + unfold stopIndexing. by rewrite Hfire.
Qed.

Lemma loopBody_outside (i : nat) (su : SchemaUpdate.t) (s : Coord.t) :
  agreeOutside (λ p, p = SchemaUpdate.Predicate su)
               (Coord.world s) (Coord.world (loopBody startTs i su s))
  ∧ (Coord.goroutines (loopBody startTs i su s) = Coord.goroutines s
     ∨ ∃ g, SchemaUpdate.Predicate (Goroutine.update g) = SchemaUpdate.Predicate su
            ∧ Coord.goroutines (loopBody startTs i su s) = Coord.goroutines s ++ [g]).
Proof.
  assert (Hpub : ∀ (w : World.t) q m,
    agreeOutside (λ p, p = SchemaUpdate.Predicate su) w
      (World.SetMutSchema (SchemaUpdate.Predicate su) m
         (World.Set_ (SchemaUpdate.Predicate su) q w))).
  { intros w q m p Hp. simpl. by rewrite !lookup_insert_ne by done. }
  assert (Hret : ∀ e,
    agreeOutside (λ p, p = SchemaUpdate.Predicate su)
                 (Coord.world s) (Coord.world (mainReturn e s))
    ∧ (Coord.goroutines (mainReturn e s) = Coord.goroutines s
       ∨ ∃ g, SchemaUpdate.Predicate (Goroutine.update g) = SchemaUpdate.Predicate su
              ∧ Coord.goroutines (mainReturn e s) = Coord.goroutines s ++ [g])).
  { intros e. destruct (mainReturn_keeps e s) as (-> & _ & _ & ->).
    split; [apply agreeOutside_refl|by left]. }
  unfold loopBody.
  destruct (Tablet_GroupId _) as [gid|terr]; [|apply Hret].
  case_bool_decide; [apply Hret|].
  destruct (checkSchemaUpdate su) as [su' [cerr|]] eqn:Hcheck; [apply Hret|].
  apply checkSchemaUpdate_view in Hcheck as (Hpred & _).
  destruct (State_Get _ _) as [old ok].
  set (rebuild := IndexRebuild.mk _ _ _ _).
  set (started := if _ && _ then _ else _).
  assert (Hst : (∃ err, started = Err err)
                ∨ ∃ s1, started = Ok s1 ∧ Coord.world s1 = Coord.world s
                        ∧ Coord.goroutines s1 = Coord.goroutines s).
  { unfold started. destruct (_ && _ && _).
    - destruct (startTaskAtTs_err startTs); [left; eauto|right].
      eexists. split; [done|]. done.
    - right. eauto. }
  clearbody started. destruct Hst as [[err ->] | (s1 & -> & Hw1 & Hg1)]; [apply Hret|].
  destruct (setup ok rebuild) as [serr|].
  - destruct (undoSchemaUpdate _ _) as [w ex] eqn:Hundo.
    apply undoSchemaUpdate_outside in Hundo as [Hundo _]. simpl in Hundo.
    rewrite Hw1 in Hundo.
    assert (Hw : agreeOutside (λ p, p = SchemaUpdate.Predicate su) (Coord.world s) w).
    { eapply agreeOutside_trans; [apply Hpub|done]. }
    destruct ex.
    + match goal with |- context [mainReturn ?e ?x] =>
        destruct (mainReturn_keeps e x) as (-> & _ & _ & ->) end.
      simpl. split; [done|by left].
    + simpl. split; [done|by left].
  - destruct (ok && NeedIndexRebuild rebuild).
    + simpl. rewrite Hw1, Hg1. split; [apply Hpub|].
      right. eexists. split; [|reflexivity]. done.
    + destruct (updateSchema _ _ _) as [w uerr] eqn:Hupd.
      apply updateSchema_outside in Hupd. simpl in Hupd. rewrite Hpred, Hw1 in Hupd.
      assert (Hw : agreeOutside (λ p, p = SchemaUpdate.Predicate su) (Coord.world s) w).
      { eapply agreeOutside_trans; [apply Hpub|done]. }
      destruct uerr.
      * match goal with |- context [mainReturn ?e ?x] =>
          destruct (mainReturn_keeps e x) as (-> & _ & _ & ->) end.
        simpl. split; [done|by left].
      * simpl. split; [done|by left].
Qed.

(** What holds of the schema and of the goroutines in every state of a
    call on [w0]: predicates outside the batch are as in [w0], and every
    goroutine rebuilds a predicate of the batch. *)
Lemma Frame_step (w0 : World.t) (l : Label) (s s' : Coord.t) :
  agreeOutside (λ p, p ∈ SchemaUpdate.Predicate <$> updates) w0 (Coord.world s)
  ∧ Forall (λ g, SchemaUpdate.Predicate (Goroutine.update g)
                 ∈ SchemaUpdate.Predicate <$> updates) (Coord.goroutines s) →
  step updates startTs l s = Some s' →
  agreeOutside (λ p, p ∈ SchemaUpdate.Predicate <$> updates) w0 (Coord.world s')
  ∧ Forall (λ g, SchemaUpdate.Predicate (Goroutine.update g)
                 ∈ SchemaUpdate.Predicate <$> updates) (Coord.goroutines s').
Proof.
  intros [Hw Hg]. unfold step. destruct (Coord.exited s); [|done].
  destruct l as [|k|].
  - unfold mainStep. destruct (Coord.pc s) as [|i|err]; [| |done].
    + unfold waitForTask. destruct (Coord.indexing s); [done|]. by intros [= <-].
    + destruct (updates !! i) as [su|] eqn:Hi; intros [= <-].
      * assert (Hin : SchemaUpdate.Predicate su ∈ SchemaUpdate.Predicate <$> updates).
        { apply list_elem_of_fmap. exists su. split; [done|]. by eapply list_elem_of_lookup_2. }
        destruct (loopBody_outside i su s) as [Hout Hgo]. split.
        -- eapply agreeOutside_trans; [done|].
           eapply agreeOutside_weaken; [|done]. by intros p ->.
        -- destruct Hgo as [-> | (g & Hgp & ->)]; [done|].
           apply Forall_app. split; [done|]. constructor; [|done]. by rewrite Hgp.
      * by destruct (mainReturn_keeps None s) as (-> & _ & _ & ->).
  - unfold goStep. destruct (Coord.goroutines s !! k) as [g|] eqn:Hk; [|done].
    assert (Hin : SchemaUpdate.Predicate (Goroutine.update g)
                  ∈ SchemaUpdate.Predicate <$> updates).
    { by eapply Forall_lookup_1 in Hg. }
    destruct (Goroutine.phase g).
    + destruct (returned s); [|done]. intros [= <-]. simpl.
      split; [done|]. by apply Forall_insert.
    + case_bool_decide; [|done]. intros [= <-]. simpl.
      split; [done|]. by apply Forall_insert.
    + destruct (buildIndexes _ _ _) as [w ex] eqn:Hbuild.
      apply buildIndexes_outside in Hbuild.
      assert (Hw' : agreeOutside (λ p, p ∈ SchemaUpdate.Predicate <$> updates) w0 w).
      { eapply agreeOutside_trans; [done|].
        eapply agreeOutside_weaken; [|done]. by intros p ->. }
      destruct ex; intros [= <-].
      * match goal with |- context [stopIndexing ?c ?x] =>
          destruct (stopIndexing_keeps c x) as (-> & _ & _ & ->) end.
        simpl. split; [done|]. by apply Forall_insert.
      * done.
    + done.
  - destruct (Coord.pc s); try done. destruct (Coord.indexing s); [|done].
    by intros [= <-].
Qed.

(** X28: a call of runSchemaMutation, the goroutines it starts included,
    touches the schema of no predicate outside its batch: in every state it
    goes through, whatever the interleaving and whichever rebuilds fail, such
    a predicate has the schema in memory, under mutation and in the store
    that it had when the call began. ([schema.Load], which the undo calls,
    reloads the one predicate it is called with.) *)
Theorem runSchemaMutation_frame (w0 : World.t) (indexing : bool)
    (schedule : list Label) (s : Coord.t) (p : string) :
  run updates startTs schedule (runSchemaMutation updates w0 indexing) = Some s →
  p ∉ SchemaUpdate.Predicate <$> updates →
  World.predicate (Coord.world s) !! p = World.predicate w0 !! p
  ∧ World.mutSchema (Coord.world s) !! p = World.mutSchema w0 !! p
  ∧ World.durable (Coord.world s) !! p = World.durable w0 !! p.
Proof.
  intros Hrun Hp.
  enough (Hframe : agreeOutside (λ p, p ∈ SchemaUpdate.Predicate <$> updates) w0 (Coord.world s)
                   ∧ Forall (λ g, SchemaUpdate.Predicate (Goroutine.update g)
                                  ∈ SchemaUpdate.Predicate <$> updates) (Coord.goroutines s)).
  { by apply Hframe. }
  revert Hrun.
  assert (Hinit : agreeOutside (λ p, p ∈ SchemaUpdate.Predicate <$> updates) w0
                    (Coord.world (runSchemaMutation updates w0 indexing))
                  ∧ Forall (λ g, SchemaUpdate.Predicate (Goroutine.update g)
                                 ∈ SchemaUpdate.Predicate <$> updates)
                      (Coord.goroutines (runSchemaMutation updates w0 indexing))).
  { split; [apply agreeOutside_refl|constructor]. }
  revert Hinit. generalize (runSchemaMutation updates w0 indexing).
  induction schedule as [|l rest IH]; intros s0 Hinit; simpl.
  - by intros [= <-].
  - destruct (step updates startTs l s0) as [s1|] eqn:Hstep; [|done].
    apply IH. by eapply Frame_step.
Qed.

(** X29: for an update that passes checkSchema on a predicate whose
    index has to be rebuilt, the iteration of runSchemaMutation writes no
    schema record: when it goes on to the next update, readers see the query
    schema of the rebuild, the update is the schema under mutation, the
    indexing slot is taken, and a goroutine that waits for the return holds
    the update and the closer of the call. *)
Theorem loopBody_defers_write (i : nat) (su su' old : SchemaUpdate.t) (s : Coord.t) :
  Coord.pc s = MLoop i →
  @checkSchemaUpdate _ (view (Coord.world s)) _ su = (su', None) →
  @State_Get (view (Coord.world s)) ctx_IsWrite (SchemaUpdate.Predicate su) = (old, true) →
  NeedIndexRebuild (IndexRebuild.mk (SchemaUpdate.Predicate su) startTs old su') = true →
  let s' := loopBody startTs i su s in
  let rebuild := IndexRebuild.mk (SchemaUpdate.Predicate su) startTs old su' in
  World.durable (Coord.world s') = World.durable (Coord.world s)
  ∧ (Coord.pc s' = MLoop (S i) →
     World.predicate (Coord.world s') !! SchemaUpdate.Predicate su
       = Some (GetQuerySchema rebuild)
     ∧ World.mutSchema (Coord.world s') !! SchemaUpdate.Predicate su = Some su'
     ∧ Coord.indexing s' = true
     ∧ Coord.goroutines s'
       = Coord.goroutines s ++ [Goroutine.mk su' rebuild (Coord.closer s') GWaitGroup]).
Proof.
  intros Hpc Hcheck Hget Hneed. cbv zeta.
  assert (Hret : ∀ e (x : Coord.t) P,
    World.durable (Coord.world x) = World.durable (Coord.world s) →
    World.durable (Coord.world (mainReturn e x)) = World.durable (Coord.world s)
    ∧ (Coord.pc (mainReturn e x) = MLoop (S i) → P)).
  { intros e x P Hx. destruct (mainReturn_keeps e x) as (-> & -> & _ & _). done. }
  unfold loopBody.
  destruct (Tablet_GroupId _) as [gid|terr]; [|by apply Hret].
  case_bool_decide; [by apply Hret|].
  rewrite Hcheck, Hget, Hneed. simpl.
  destruct (Coord.indexing s) eqn:Hidx; simpl.
  - unfold setup. simpl.
    destruct (DropIndexes _) as [derr|]; [|destruct (BuildData _) as [berr|]].
    + destruct (undoSchemaUpdate _ _) as [w ex] eqn:Hu.
      apply undoSchemaUpdate_outside in Hu as [_ Hd]. simpl in Hd.
      destruct ex; [apply Hret; simpl; congruence|].
      simpl. rewrite Hpc. split; [congruence|]. intros [= ?]. lia.
    + destruct (undoSchemaUpdate _ _) as [w ex] eqn:Hu.
      apply undoSchemaUpdate_outside in Hu as [_ Hd]. simpl in Hd.
      destruct ex; [apply Hret; simpl; congruence|].
      simpl. rewrite Hpc. split; [congruence|]. intros [= ?]. lia.
    + simpl. split; [done|]. intros _. by rewrite !lookup_insert_eq.
  - destruct (startTaskAtTs_err startTs) as [serr|]; [by apply Hret|].
    unfold setup. simpl.
    destruct (DropIndexes _) as [derr|]; [|destruct (BuildData _) as [berr|]].
    + destruct (undoSchemaUpdate _ _) as [w ex] eqn:Hu.
      apply undoSchemaUpdate_outside in Hu as [_ Hd]. simpl in Hd.
      destruct ex; [apply Hret; simpl; congruence|].
      simpl. rewrite Hpc. split; [congruence|]. intros [= ?]. lia.
    + destruct (undoSchemaUpdate _ _) as [w ex] eqn:Hu.
      apply undoSchemaUpdate_outside in Hu as [_ Hd]. simpl in Hd.
      destruct ex; [apply Hret; simpl; congruence|].
      simpl. rewrite Hpc. split; [congruence|]. intros [= ?]. lia.
    + simpl. split; [done|]. intros _. by rewrite !lookup_insert_eq.
Qed.

(** X30: for an update that passes checkSchema and needs no rebuild (a
    new predicate among them), the iteration of runSchemaMutation starts no
    goroutine, and when it goes on to the next update the schema is
    committed: the store and the schema state hold the update, and nothing is
    left under mutation for the predicate. *)
Theorem loopBody_writes_at_once (i : nat) (su su' old : SchemaUpdate.t) (ok : bool)
    (s : Coord.t) :
  Coord.pc s = MLoop i →
  @checkSchemaUpdate _ (view (Coord.world s)) _ su = (su', None) →
  @State_Get (view (Coord.world s)) ctx_IsWrite (SchemaUpdate.Predicate su) = (old, ok) →
  ok && NeedIndexRebuild (IndexRebuild.mk (SchemaUpdate.Predicate su) startTs old su') = false →
  let s' := loopBody startTs i su s in
  Coord.goroutines s' = Coord.goroutines s
  ∧ (Coord.pc s' = MLoop (S i) →
     World.durable (Coord.world s')
       = <[SchemaUpdate.Predicate su := su']> (World.durable (Coord.world s))
     ∧ World.predicate (Coord.world s') !! SchemaUpdate.Predicate su = Some su'
     ∧ World.mutSchema (Coord.world s') !! SchemaUpdate.Predicate su = None).
Proof.
  intros Hpc Hcheck Hget Hneed. cbv zeta.
  assert (Hret : ∀ e (x : Coord.t) P,
    Coord.goroutines x = Coord.goroutines s →
    Coord.goroutines (mainReturn e x) = Coord.goroutines s
    ∧ (Coord.pc (mainReturn e x) = MLoop (S i) → P)).
  { intros e x P Hx. destruct (mainReturn_keeps e x) as (_ & -> & _ & ->). done. }
  unfold loopBody.
  destruct (Tablet_GroupId _) as [gid|terr]; [|by apply Hret].
  case_bool_decide; [by apply Hret|].
  rewrite Hcheck, Hget, Hneed. simpl.
  pose proof (checkSchemaUpdate_view _ _ _ _ Hcheck) as (Hpred & _).
  destruct (setup ok _) as [serr|].
  - destruct (undoSchemaUpdate _ _) as [w ex].
    destruct ex; [by apply Hret|].
    simpl. rewrite Hpc. split; [done|]. intros [= ?]. lia.
  - destruct (updateSchema _ _ _) as [w uerr] eqn:Hupd.
    apply updateSchema_world in Hupd as (Hp & Hm & Hd). simpl in Hp, Hm, Hd.
    destruct uerr; [by apply Hret|].
    simpl. split; [done|]. intros _. rewrite Hp, Hm, Hd, Hpred.
    by rewrite lookup_insert_eq, lookup_delete_eq.
Qed.
End CoordinatorMore.

(** ** The further properties on the small cluster *)

Section EdgeMoreExamples.
#[local] Existing Instances Example.xAclOff Example.typesPkg Example.postingTypeOf
  Example.nameSchema Example.postingStore.

(** A uid edge on the string predicate "name". *)
Lemma shape_mismatch_refused_witness :
  IsScalar (SchemaUpdate.ValueType Example.scalarName)
    ≠ IsScalar (posting_TypeID Example.nameToUid)
  ∧ ValidateAndConvert Example.nameToUid Example.scalarName
    = (Example.nameToUid, Some (ErrScalarInputIsUid "name" Example.nameToUid)).
Proof.
  assert (Hshape : IsScalar (SchemaUpdate.ValueType Example.scalarName)
                   ≠ IsScalar (posting_TypeID Example.nameToUid)) by discriminate.
  assert (Hstar : ¬ (DirectedEdge.ValueType Example.nameToUid = DefaultID
                     ∧ DirectedEdge.Value Example.nameToUid = Star)).
  { intros [Hty _]. discriminate Hty. }
  split; [exact Hshape|].
  exact (shape_mismatch_refused Example.nameToUid Example.scalarName eq_refl Hstar Hshape).
Defined.

(** A value of the default type written to the string predicate "name"
    comes out as a string. *)
Lemma accepted_edge_has_schema_type_witness :
  ValidateAndConvert (Example.nameEdge "" [x61] Posting_DEFAULT DirectedEdge_SET)
                     Example.scalarName
  = (Example.nameEdge "" [x61] Posting_STRING DirectedEdge_SET, None)
  ∧ ((Example.nameEdge "" [x61] Posting_STRING DirectedEdge_SET
      = Example.nameEdge "" [x61] Posting_DEFAULT DirectedEdge_SET
      ∧ ((IsScalar (SchemaUpdate.ValueType Example.scalarName) = false
          ∧ IsScalar (posting_TypeID
                        (Example.nameEdge "" [x61] Posting_DEFAULT DirectedEdge_SET)) = false)
         ∨ posting_TypeID (Example.nameEdge "" [x61] Posting_DEFAULT DirectedEdge_SET)
           = SchemaUpdate.ValueType Example.scalarName))
     ∨ DirectedEdge.ValueType (Example.nameEdge "" [x61] Posting_STRING DirectedEdge_SET)
       = Posting_STRING).
Proof.
  assert (Hstar : ¬ (DirectedEdge.ValueType
                       (Example.nameEdge "" [x61] Posting_DEFAULT DirectedEdge_SET) = DefaultID
                     ∧ DirectedEdge.Value
                         (Example.nameEdge "" [x61] Posting_DEFAULT DirectedEdge_SET) = Star)).
  { intros [_ Hv]. discriminate Hv. }
  split; [reflexivity|].
  exact (accepted_edge_has_schema_type
           (Example.nameEdge "" [x61] Posting_DEFAULT DirectedEdge_SET)
           (Example.nameEdge "" [x61] Posting_STRING DirectedEdge_SET)
           Example.scalarName eq_refl Hstar eq_refl).
Defined.

Lemma runMutation_refuses_predicate_delete_witness :
  isDeletePredicateEdge Example.dropName = true
  ∧ ∃ err, runMutation Example.dropName [] = ([], Example.dropName, Some err)
           ∧ (err = ErrNeverReachHere ∨ err = ErrNoSchemaFor "name").
Proof.
  split; [reflexivity|].
  exact (runMutation_refuses_predicate_delete Example.dropName [] eq_refl).
Defined.

Lemma runMutation_validated_witness :
  runMutation Example.deleteName []
  = ([(DataKey "name" 1%N, Example.deleteName)], Example.deleteName, None)
  ∧ ([(DataKey "name" 1%N, Example.deleteName)] = []
       ∧ is_Some (@None error)
     ∨ ValidateAndConvert Example.deleteName
         (fst (State_Get true (DirectedEdge.Attr Example.deleteName)))
       = (Example.deleteName, None)).
Proof.
  split; [reflexivity|].
  exact (runMutation_validated Example.deleteName Example.deleteName []
           [(DataKey "name" 1%N, Example.deleteName)] None eq_refl).
Defined.
End EdgeMoreExamples.

Section SchemaMoreExamples.
#[local] Existing Instances Example.xAclOff Example.nameSchema Example.someData.

Lemma checkSchema_accepted_witness :
  snd (checkSchema (Some (Example.indexed "title"))) = None
  ∧ (SchemaUpdate.Directive (Example.indexed "title") = SchemaUpdate_INDEX
     ↔ HasTokenizerOrVectorIndexSpec (Example.indexed "title") = true).
Proof.
  split; [reflexivity|].
  exact (proj1 (proj2 (proj2 (checkSchema_accepted (Example.indexed "title") eq_refl)))).
Defined.

Lemma unique_accepted_witness :
  checkSchema (Some Example.uniqueEmail) = (Some Example.uniqueEmail, None)
  ∧ SchemaUpdate.Upsert Example.uniqueEmail = true
  ∧ (SchemaUpdate.ValueType Example.uniqueEmail = Posting_STRING
       ∧ validTokenizer (SchemaUpdate.Tokenizer Example.uniqueEmail) = true
     ∨ SchemaUpdate.ValueType Example.uniqueEmail = Posting_INT).
Proof.
  split; [reflexivity|].
  pose proof (unique_accepted Example.uniqueEmail Example.uniqueEmail eq_refl eq_refl)
    as (Hup & Hkind & _).
  exact (conj Hup Hkind).
Defined.

(** The string predicate "name" cannot become a password. *)
Lemma password_type_change_refused_witness :
  State_TypeOf (SchemaUpdate.Predicate Example.nameAsPassword) = Ok Posting_STRING
  ∧ ∃ err, snd (checkSchema (Some Example.nameAsPassword)) = Some err.
Proof.
  assert (Hne : Posting_STRING ≠ SchemaUpdate.ValueType Example.nameAsPassword)
    by discriminate.
  split; [reflexivity|].
  exact (password_type_change_refused Example.nameAsPassword Posting_STRING
           eq_refl eq_refl (or_intror eq_refl) Hne).
Defined.

(** "name" has no data: from a list of uids it may become what the
    update says, unless a password is involved. *)
Lemma no_data_only_password_refused_witness :
  hasEdges (SchemaUpdate.Predicate Example.scalarName) MaxUint64 = false
  ∧ (is_Some (checkConversion Posting_UID Example.scalarName)
     ↔ IsScalar Posting_UID = true
       ∧ (Posting_UID = Posting_PASSWORD
          ∨ SchemaUpdate.ValueType Example.scalarName = Posting_PASSWORD)
       ∧ Posting_UID ≠ SchemaUpdate.ValueType Example.scalarName).
Proof.
  split; [reflexivity|].
  exact (no_data_only_password_refused Example.scalarName Posting_UID eq_refl).
Defined.
End SchemaMoreExamples.

Section RouterMoreExamples.
#[local] Existing Instances Example.xAclOff Example.nameSchema Example.cluster.

Lemma verifyTypes_sound_witness :
  verifyTypes Example.personBatch = None
  ∧ ∃ fields schemas,
      GetSchemaOverNetwork fields = Ok schemas
      ∧ ∀ t, t ∈ Mutations.Types Example.personBatch →
          TypeUpdate.TypeName t ≠ ""
          ∧ Forall saneField (TypeUpdate.Fields t)
          ∧ ∀ f, f ∈ TypeUpdate.Fields t →
              ∃ name, fieldName f = Ok name
                      ∧ (name ∈ SchemaUpdate.Predicate <$> Mutations.Schema Example.personBatch
                         ∨ name ∈ schemas).
Proof.
  assert (Hv : verifyTypes Example.personBatch = None)
    by (vm_compute; reflexivity).
  split; [exact Hv|].
  exact (verifyTypes_sound Example.personBatch Hv).
Defined.

(** The type Follower has the reverse of "friend" as its field; the batch
    brings no schema of "friend", which is asked for over the network. *)
Lemma verifyTypes_fetches_only_missing_witness :
  collectFields (list_to_set (SchemaUpdate.Predicate <$> Mutations.Schema Example.followerBatch))
                (Mutations.Types Example.followerBatch) [] = Ok ["friend"]
  ∧ ("friend" ∉ SchemaUpdate.Predicate <$> Mutations.Schema Example.followerBatch)
  ∧ ∃ t f, t ∈ Mutations.Types Example.followerBatch ∧ f ∈ TypeUpdate.Fields t
           ∧ fieldName f = Ok "friend".
Proof.
  assert (Hc : collectFields
                 (list_to_set (SchemaUpdate.Predicate <$> Mutations.Schema Example.followerBatch))
                 (Mutations.Types Example.followerBatch) [] = Ok ["friend"])
    by (vm_compute; reflexivity).
  split; [exact Hc|].
  exact (verifyTypes_fetches_only_missing Example.followerBatch
           ["friend"] Hc "friend" (list_elem_of_here _ _)).
Defined.

Lemma populateMutationMap_groups_witness :
  populateMutationMap Example.twoGroupBatch = Ok Example.twoGroupMap
  ∧ (is_Some (Example.twoGroupMap !! 3%N)
     ↔ (∃ e, e ∈ Mutations.Edges Example.twoGroupBatch
             ∧ BelongsTo (DirectedEdge.Attr e) = Ok 3%N)
       ∨ (∃ s, s ∈ Mutations.Schema Example.twoGroupBatch
               ∧ BelongsTo (SchemaUpdate.Predicate s) = Ok 3%N)
       ∨ ((Mutations.DropOp Example.twoGroupBatch > 0
           ∨ Mutations.Types Example.twoGroupBatch ≠ [])
          ∧ 3%N ∈ KnownGroups)).
Proof.
  assert (Hpop : populateMutationMap Example.twoGroupBatch
                 = Ok Example.twoGroupMap) by (vm_compute; reflexivity).
  split; [exact Hpop|].
  exact (populateMutationMap_groups Example.twoGroupBatch
           Example.twoGroupMap 3%N Hpop).
Defined.

Lemma populateMutationMap_fields_witness :
  populateMutationMap Example.twoEdgeBatch = Ok Example.twoEdgeMap
  ∧ Mutations.StartTs (Mutations.mk 2%N 0%N [Example.friendEdge] [] [] 0 "" None) = 0%N.
Proof.
  assert (Hpop : populateMutationMap Example.twoEdgeBatch
                 = Ok Example.twoEdgeMap) by (vm_compute; reflexivity).
  assert (Hmu : Example.twoEdgeMap !! 2%N
                = Some (Mutations.mk 2%N 0%N [Example.friendEdge] [] [] 0 "" None))
    by reflexivity.
  split; [exact Hpop|].
  exact (proj1 (populateMutationMap_fields Example.twoEdgeBatch
                  Example.twoEdgeMap 2%N _ Hpop Hmu)).
Defined.


(** The replies in the order of the map and in the opposite order. *)
Lemma MutateOverNetwork_arrival_order_witness :
  TxnContext.Keys (fst (MutateOverNetwork (λ l, l) Example.twoEdgeBatch))
    ≡ₚ TxnContext.Keys (fst (MutateOverNetwork (@rev _)
                               Example.twoEdgeBatch)).
Proof.
  exact (proj1 (MutateOverNetwork_arrival_order (λ l, l) (@rev _)
                  Example.twoEdgeBatch (λ l, reflexivity l)
                  (λ l, Permutation_sym (Permutation_rev l)))).
Defined.

(** With strict mutations, an edge on "orphan", which has no schema. *)
Lemma proposeAndWait_strict_witness :
  @WorkerConfig_StrictMutations Example.xStrict = true
  ∧ State_TypeOf (DirectedEdge.Attr Example.orphanEdge)
    = Err (ErrExternal "Schema not defined for predicate")
  ∧ ∃ e' err', e' ∈ Mutations.Edges Example.orphanBatch
               ∧ State_TypeOf (DirectedEdge.Attr e') = Err err'
               ∧ @proposeAndWait Example.xStrict _ _ TxnContext.zero
                   Example.orphanBatch
                 = (TxnContext.zero, Some err').
Proof.
  split; [reflexivity|]. split; [reflexivity|].
  exact (@proposeAndWait_strict Example.xStrict _ _ TxnContext.zero
           Example.orphanBatch Example.orphanEdge _ eq_refl (list_elem_of_here _ _) eq_refl).
Defined.
End RouterMoreExamples.

Section CoordinatorMoreExamples.
#[local] Existing Instances Example.xAclOff Example.someData Example.rebuildEnv
  Example.nodeEnv.

(** The empty name is refused, and nothing is written. *)
Lemma createSchema_failure_keeps_store_witness :
  createSchema "" Posting_STRING Metadata_DEFAULT 5%N Example.world0
    = (Example.world0, Some ErrNoPredicate)
  ∧ World.durable Example.world0 = World.durable Example.world0.
Proof.
  assert (Hc : createSchema "" Posting_STRING Metadata_DEFAULT 5%N Example.world0
               = (Example.world0, Some ErrNoPredicate)) by (vm_compute; reflexivity).
  split; [exact Hc|].
  exact (createSchema_failure_keeps_store "" Posting_STRING Metadata_DEFAULT 5%N
           Example.world0 Example.world0 ErrNoPredicate Hc).
Defined.

(** The first write to "age", an integer, and to "knows", a uid. *)
Lemma createSchema_new_predicate_witness :
  ∃ s, World.predicate (fst (createSchema "knows" UidID Metadata_DEFAULT 5%N Example.world0))
       = <["knows" := s]> (World.predicate Example.world0)
       ∧ World.durable (fst (createSchema "knows" UidID Metadata_DEFAULT 5%N Example.world0))
         = <["knows" := s]> (World.durable Example.world0)
       ∧ SchemaUpdate.Predicate s = "knows"
       ∧ SchemaUpdate.ValueType s = Enum UidID
       ∧ (SchemaUpdate.List s = true
          ↔ Metadata_DEFAULT = Metadata_LIST ∨ (Metadata_DEFAULT = Metadata_DEFAULT ∧ UidID = UidID))
       ∧ SchemaUpdate.Directive s = SchemaUpdate_NONE
       ∧ SchemaUpdate.Tokenizer s = []
       ∧ SchemaUpdate.Count s = false ∧ SchemaUpdate.Upsert s = false
       ∧ SchemaUpdate.Lang s = false ∧ SchemaUpdate.Unique s = false.
Proof.
  assert (Hc : createSchema "knows" UidID Metadata_DEFAULT 5%N Example.world0
               = (fst (createSchema "knows" UidID Metadata_DEFAULT 5%N Example.world0), None))
    by (vm_compute; reflexivity).
  assert (Hg : snd (@State_Get (view Example.world0) true "knows") = false) by reflexivity.
  exact (createSchema_new_predicate "knows" UidID Metadata_DEFAULT 5%N Example.world0
           _ Hg Hc).
Defined.

(** A write of an integer to "name", which has a schema: the hint is
    ignored. *)
Lemma createSchema_existing_predicate_witness :
  @State_Get (view Example.world0) true "name" = (Example.plain "name", true)
  ∧ ∃ s, World.predicate (fst (createSchema "name" Posting_STRING Metadata_LIST 5%N Example.world0))
         = <["name" := s]> (World.predicate Example.world0)
         ∧ SchemaUpdate.List s = false.
Proof.
  assert (Hc : createSchema "name" Posting_STRING Metadata_LIST 5%N Example.world0
               = (fst (createSchema "name" Posting_STRING Metadata_LIST 5%N Example.world0), None))
    by (vm_compute; reflexivity).
  assert (Hg : @State_Get (view Example.world0) true "name" = (Example.plain "name", true))
    by reflexivity.
  split; [exact Hg|].
  destruct (createSchema_existing_predicate "name" Posting_STRING Metadata_LIST 5%N Example.world0
              _ (Example.plain "name") Hg Hc)
    as (s & Hp & _ & _ & _ & _ & _ & _ & Hl & _).
  exact (ex_intro _ s (conj Hp Hl)).
Defined.

(** The batch that indexes "name" and "title" leaves "body" alone. *)
Lemma runSchemaMutation_frame_witness :
  match run Example.indexTwo 5%N Example.bothStarted
            (runSchemaMutation Example.indexTwo Example.world0 false) with
  | Some s => World.durable (Coord.world s) !! "body" = World.durable Example.world0 !! "body"
  | None => False
  end.
Proof.
  assert (Hp : "body" ∉ SchemaUpdate.Predicate <$> Example.indexTwo).
  { intros Hin. vm_compute in Hin.
    apply elem_of_cons in Hin as [Hin|Hin]; [discriminate Hin|].
    apply elem_of_cons in Hin as [Hin|Hin]; [discriminate Hin|].
    by apply not_elem_of_nil in Hin. }
  destruct (run Example.indexTwo 5%N Example.bothStarted
                (runSchemaMutation Example.indexTwo Example.world0 false))
    as [s|] eqn:Hrun.
  - exact (proj2 (proj2 (runSchemaMutation_frame Example.indexTwo 5%N Example.world0
                           false Example.bothStarted s "body" Hrun Hp))).
  - vm_compute in Hrun. discriminate.
Defined.

(** The first iteration of that batch: "name" gets an index. *)
Lemma loopBody_defers_write_witness :
  NeedIndexRebuild (Example.rebuildOf "name") = true
  ∧ World.durable
      (Coord.world (loopBody 5%N 0 (Example.indexed "name")
                      (Coord.mk Example.world0 (MLoop 0) false false 0 false 0 [] Alive)))
    = World.durable Example.world0.
Proof.
  assert (Hcheck : @checkSchemaUpdate _ (view Example.world0) _ (Example.indexed "name")
                   = (Example.indexed "name", None)) by reflexivity.
  assert (Hget : @State_Get (view Example.world0) ctx_IsWrite "name"
                 = (Example.plain "name", true)) by reflexivity.
  assert (Hneed : NeedIndexRebuild (Example.rebuildOf "name") = true) by reflexivity.
  split; [exact Hneed|].
  exact (proj1 (loopBody_defers_write 5%N 0 (Example.indexed "name") (Example.indexed "name")
                  (Example.plain "name")
                  (Coord.mk Example.world0 (MLoop 0) false false 0 false 0 [] Alive)
                  eq_refl Hcheck Hget Hneed)).
Defined.

(** An update of "age", a predicate without schema. *)
Lemma loopBody_writes_at_once_witness :
  Coord.goroutines (loopBody 5%N 0 (Example.plain "age")
                      (Coord.mk Example.world0 (MLoop 0) false false 0 false 0 [] Alive))
  = [].
Proof.
  assert (Hcheck : @checkSchemaUpdate _ (view Example.world0) _ (Example.plain "age")
                   = (Example.plain "age", None)) by reflexivity.
  assert (Hget : @State_Get (view Example.world0) ctx_IsWrite "age"
                 = (SchemaUpdate.zero, false)) by reflexivity.
  exact (proj1 (loopBody_writes_at_once 5%N 0 (Example.plain "age") (Example.plain "age")
                  SchemaUpdate.zero false
                  (Coord.mk Example.world0 (MLoop 0) false false 0 false 0 [] Alive)
                  eq_refl Hcheck Hget eq_refl)).
Defined.
End CoordinatorMoreExamples.
